(** * Terrain / hydrology pipeline of the tile map: a shallow embedding

    The development follows [core/Utils.ts] (class [MinHeap]) and
    [core/World.ts] (class [World]): the binary heap, the smoothing pass,
    the sink filling, the coast distance, and the passes of the river
    generation.

    Numbers.  Cell indices and array positions are [nat].  The entries of
    the [Int32Array]s that carry the sentinel [-1] ([distance], [downhill])
    are [Z].  Elevations, moisture and coordinates are JavaScript floats;
    they are embedded as exact rationals [Q]: every finite float is a
    rational, and the comparisons [<], [<=], [===] of the source are the
    comparisons of these rationals.  [fround] is the rounding of a store
    into a [Float32Array]; the array that [generateRivers] returns is
    rounded with it.  The stores into [elevations] and [moisture] are kept
    exact, and what is stated about the stored values is stated so that
    rounding to the nearest Float32 keeps it.  Flow volumes only ever hold
    sums of ones and are [Z]; a [Float32Array] holds them exactly up to
    [2^24], and what is stated about their values assumes no more cells
    than that.  Infinities and NaN have no counterpart.  The 32-bit range
    of indices and distances is not modelled: they stay below the cell
    count.

    Arrays.  A typed array is a list; a write outside it does nothing, as
    in the source.  A read outside it ([!!!]) yields a default value where
    the source reads [undefined]; this never happens in a [well_formed]
    world, where every cached neighbour index is a cell index, and the
    theorems about the stages assume one. *)

From Stdlib Require Import QArith Lqa Lia ZArith Qabs Qminmax.
From stdpp Require Import base list relations sorting.

(** ** Decidable comparisons on [Q] *)

#[global] Instance Qlt_dec (x y : Q) : Decision (x < y)%Q.
Proof.
  destruct (Qlt_le_dec x y) as [H | H]; [left; exact H | right].
  intros H'. exact (Qlt_not_le _ _ H' H).
Defined.

#[global] Instance Qle_dec (x y : Q) : Decision (x <= y)%Q.
Proof.
  destruct (Qlt_le_dec y x) as [H | H]; [right | left; exact H].
  intros H'. exact (Qlt_not_le _ _ H H').
Defined.

#[global] Instance Qeq_dec' (x y : Q) : Decision (x == y)%Q := Qeq_dec x y.

#[global] Instance Q_inhabited : Inhabited Q := populate 0%Q.

(** ** Float32 storage *)

(** [floor (log2 q)] for a positive [q]. *)
Definition ilog2 (q : Q) : Z :=
  let n := Qnum q in
  let d := Z.pos (Qden q) in
  let e := (Z.log2 n - Z.log2 d)%Z in
  if decide (n * 2 ^ Z.log2 d < d * 2 ^ Z.log2 n)%Z then (e - 1)%Z else e.

(** The integer nearest to [num / den], the even one of two that are
    equally near; [0 <= num] and [0 < den]. *)
Definition roundHalfEven (num den : Z) : Z :=
  let n := (num / den)%Z in
  let r := (num mod den)%Z in
  if decide (2 * r < den)%Z then n
  else if decide (den < 2 * r)%Z then (n + 1)%Z
  else if Z.even n then n else (n + 1)%Z.

(** The Float32 nearest to a positive [q]: a 24-bit mantissa times a power
    of two that is not below [2^-149]. *)
Definition froundPos (q : Q) : Q :=
  let ex := Z.max (ilog2 q - 23) (-149) in
  if decide (0 <= ex)%Z then
    inject_Z (roundHalfEven (Qnum q) (Z.pos (Qden q) * 2 ^ ex) * 2 ^ ex)
  else
    Qmake (roundHalfEven (Qnum q * 2 ^ (- ex)) (Z.pos (Qden q)))
          (Z.to_pos (2 ^ (- ex))).

(** [Math.fround], the conversion of a number stored into a
    [Float32Array]: the nearest Float32, the one with the even mantissa of
    two that are equally near. *)
Definition fround (q : Q) : Q :=
  if decide (q == 0)%Q then 0%Q
  else if decide (0 < q)%Q then froundPos q
  else (- froundPos (- q))%Q.

(** The numbers whose nearest Float32 is finite, those below
    [2^128 - 2^103] in magnitude; from there on the source stores an
    infinity, which [fround] does not follow. *)
Definition float32_finite (q : Q) : Prop :=
  (Qabs q < inject_Z (2 ^ 128 - 2 ^ 103))%Q.

(** The numbers a [Float32Array] holds: a mantissa below [2^24] in
    magnitude times a power of two from [2^-149] on. *)
Definition is_float32 (q : Q) : Prop :=
  ∃ m e : Z, (Z.abs m < 2 ^ 24)%Z ∧ (0 <= e)%Z ∧
             (q == Qmake (m * 2 ^ e) (Z.to_pos (2 ^ 149)))%Q.

(** ** [MinHeap] (core/Utils.ts) *)

Module MinHeap.
Section heap.
Context {T : Type}.
(** [this.compare]: the injected comparator; the heap only ever tests
    [this.compare(a, b) < 0]. *)
Variable compare : T -> T -> Q.

Definition precedes (a b : T) : Prop := (compare a b < 0)%Q.

(** [(index - 1) >>> 1] for [index > 0]. *)
Definition parentIndex (index : nat) : nat := (index - 1) / 2.
(** [(index << 1) + 1]. *)
Definition leftIndex (index : nat) : nat := 2 * index + 1.

(** [swap(i, j)]; it is only called on positions inside the array. *)
Definition swap (h : list T) (i j : nat) : list T :=
  match h !! i, h !! j with
  | Some x, Some y => <[j:=x]> (<[i:=y]> h)
  | _, _ => h
  end.

(** [bubbleUp(index)].  The loop variable strictly decreases, so [index]
    itself bounds the number of iterations: at fuel [0] the index is [0]
    and the source loop has exited. *)
Fixpoint bubbleUp_loop (fuel : nat) (h : list T) (index : nat) : list T :=
  match fuel with
  | O => h
  | S fuel' =>
      if decide (0 < index) then
        let p := parentIndex index in
        match h !! index, h !! p with
        | Some x, Some y =>
            if decide (precedes x y)
            then bubbleUp_loop fuel' (swap h index p) p
            else h
        | _, _ => h
        end
      else h
  end.

Definition bubbleUp (h : list T) (index : nat) : list T :=
  bubbleUp_loop index h index.

(** [push(item)]. *)
Definition push (h : list T) (item : T) : list T :=
  bubbleUp (h ++ [item]) (length h).

(** The choice of [swapIndex] in [bubbleDown]; [None] is the [break] of
    the first conditional. *)
Definition swapIndex (h : list T) (index : nat) : option nat :=
  let l := leftIndex index in
  let r := l + 1 in
  match h !! l with
  | None => None
  | Some x =>
      match h !! r with
      | Some y => if decide (precedes x y) then Some l else Some r
      | None => Some l
      end
  end.

(** [bubbleDown(index)].  The index strictly increases and the loop stops
    once the left child is outside the array, so [length h] bounds the
    number of iterations. *)
Fixpoint bubbleDown_loop (fuel : nat) (h : list T) (index : nat) : list T :=
  match fuel with
  | O => h
  | S fuel' =>
      match swapIndex h index with
      | None => h
      | Some s =>
          match h !! s, h !! index with
          | Some x, Some y =>
              if decide (precedes x y)
              then bubbleDown_loop fuel' (swap h index s) s
              else h
          | _, _ => h
          end
      end
  end.

Definition bubbleDown (h : list T) (index : nat) : list T :=
  bubbleDown_loop (length h) h index.

(** [pop()]: the result is the returned value ([None] is [undefined])
    and the array afterwards.  Elements of [T] are defined values, so the
    test [bottom !== undefined] of the source always succeeds. *)
Definition pop (h : list T) : option T * list T :=
  match h with
  | [] => (None, h)
  | top :: _ =>
      let h1 := take (length h - 1) h in
      match last h, h1 with
      | Some bottom, _ :: _ => (Some top, bubbleDown (<[0:=bottom]> h1) 0)
      | _, _ => (Some top, h1)
      end
  end.

(** The order the comparator induces: [cle a b] when [b] does not come
    strictly before [a]. *)
Definition cle (a b : T) : Prop := ¬ precedes b a.

(** The heap property at position [i]: the parent is not after the child. *)
Definition ordered_at (h : list T) (i : nat) : Prop :=
  ∀ x p, h !! i = Some x → h !! parentIndex i = Some p → cle p x.

Definition heap_ok (h : list T) : Prop := ∀ i, 0 < i → ordered_at h i.

(** The children of [k] are not before the parent of [k]. *)
Definition grand_ok (h : list T) (k : nat) : Prop :=
  ∀ i x g, 0 < k → 0 < i → parentIndex i = k →
    h !! i = Some x → h !! parentIndex k = Some g → cle g x.

(** The array is a heap except between [k] and its parent. *)
Definition up_ok (h : list T) (k : nat) : Prop :=
  (∀ i, 0 < i → i ≠ k → ordered_at h i) ∧ grand_ok h k.

(** The array is a heap except between [k] and its children. *)
Definition down_ok (h : list T) (k : nat) : Prop :=
  (∀ i, 0 < i → parentIndex i ≠ k → ordered_at h i) ∧ grand_ok h k.

(** A history of calls on one heap, starting from the empty array of the
    constructor. *)
Inductive op := Push (x : T) | Pop.

Definition apply_op (h : list T) (o : op) : list T :=
  match o with
  | Push x => push h x
  | Pop => (pop h).2
  end.

Definition run (ops : list op) : list T := foldl apply_op [] ops.

(** What a history leaves stored, read off the calls alone: a push adds
    its element, also one that is stored already; a pop takes one
    occurrence of an element that no stored element precedes; a pop of an
    empty store takes nothing. *)
Inductive stores : list op → list T → Prop :=
| stores_nil : stores [] []
| stores_push ops l x : stores ops l → stores (ops ++ [Push x]) (x :: l)
| stores_pop ops l top l' :
    stores ops l → l ≡ₚ top :: l' → (∀ y, y ∈ l → cle top y) →
    stores (ops ++ [Pop]) l'
| stores_pop_empty ops : stores ops [] → stores (ops ++ [Pop]) [].

End heap.
End MinHeap.

(** ** [World] (core/World.ts) *)

(** The fields of the class that the terrain and hydrology stages read or
    write.  [points] is the flat [x0, y0, x1, y1, ...] array; [adjacency]
    is the cached neighbour list of every cell.  The opaque [voronoi]
    handle and the noise offsets take no part in the stages below. *)
Record World := mkWorld {
  width : Q;
  height : Q;
  points : list Q;
  adjacency : list (list nat);
  elevations : list Q;
  moisture : list Q;
  rivers : list Q
}.

(** [get cellCount()]. *)
Definition cellCount (w : World) : nat := length (points w) / 2.

(** *** [smoothMap] *)

(** The body of the loop over [i]: the mean of the cell and its cached
    neighbours, read from [current]. *)
Definition smoothCell (adj : list (list nat)) (current : list Q) (i : nat) : Q :=
  let neighbors := adj !!! i in
  (foldl (fun sum n => sum + current !!! n) (current !!! i) neighbors
   / inject_Z (Z.of_nat (1 + length neighbors)))%Q.

(** One iteration of the loop over [k]: every cell of [next] is written
    from [current], a different buffer. *)
Definition smoothPass (n : nat) (adj : list (list nat)) (current next : list Q)
  : list Q :=
  foldl (fun nx i => <[i := smoothCell adj current i]> nx) next (seq 0 n).

(** The loop over [k] with the swap of the two buffers; the result is the
    buffer [current] ends on. *)
Fixpoint smoothLoop (iterations n : nat) (adj : list (list nat))
    (current next : list Q) : list Q :=
  match iterations with
  | O => current
  | S k => smoothLoop k n adj (smoothPass n adj current next) current
  end.

(** [smoothMap(data, iterations)]: the contents of [data] on return.  When
    [current] ends on the other buffer the source copies it into [data];
    when it ends on [data] itself there is nothing to copy. *)
Definition smoothMap (w : World) (data : list Q) (iterations : nat) : list Q :=
  smoothLoop iterations (cellCount w) (adjacency w) data
    (replicate (length data) 0%Q).

(** *** [fillSinks] *)

Definition epsilon : Q := 1 # 100000.

(** The comparator handed to the heap: [(a, b) => elevations[a] -
    elevations[b]], reading the elevations current at the call. *)
Definition elevCompare (elev : list Q) (a b : nat) : Q :=
  (elev !!! a - elev !!! b)%Q.

(** The mutable state of [fillSinks]: [this.elevations], [visited] and the
    array of the heap. *)
Record FillState := mkFill {
  fs_elev : list Q;
  fs_visited : list bool;
  fs_heap : list nat
}.

(** Step 1, the body of the seeding loop. *)
Definition seedCell (st : FillState) (i : nat) : FillState :=
  if decide (fs_elev st !!! i <= 0)%Q then
    mkFill (fs_elev st)
           (<[i := true]> (fs_visited st))
           (MinHeap.push (elevCompare (fs_elev st)) (fs_heap st) i)
  else st.

(** Step 2, the body of the loop over the neighbours [v] of [u].  The sum
    [elev u + epsilon] is kept exact; the source stores the Float32
    nearest to it, which is not below [elev u] either, and what is proved
    of a raised cell uses no more than that. *)
Definition raiseNeighbor (u : nat) (st : FillState) (v : nat) : FillState :=
  if decide (fs_visited st !! v = Some true) then st
  else
    let elev := fs_elev st in
    let elev' :=
      if decide (elev !!! v < elev !!! u)%Q
      then <[v := (elev !!! u + epsilon)%Q]> elev
      else elev in
    mkFill elev'
           (<[v := true]> (fs_visited st))
           (MinHeap.push (elevCompare elev') (fs_heap st) v).

(** Step 2, the [while (heap.length > 0)] loop.  Every cell enters the heap
    at most once, so [cellCount] iterations empty it (lemma
    [floodLoop_drains_heap]). *)
Fixpoint floodLoop (fuel : nat) (adj : list (list nat)) (st : FillState)
  : FillState :=
  match fuel with
  | O => st
  | S fuel' =>
      match MinHeap.pop (elevCompare (fs_elev st)) (fs_heap st) with
      | (None, _) => st
      | (Some u, h') =>
          floodLoop fuel' adj
            (foldl (raiseNeighbor u)
                   (mkFill (fs_elev st) (fs_visited st) h')
                   (adj !!! u))
      end
  end.

Definition fillSinksState (w : World) : FillState :=
  let n := cellCount w in
  floodLoop n (adjacency w)
    (foldl seedCell (mkFill (elevations w) (replicate n false) []) (seq 0 n)).

(** [fillSinks()]: the world afterwards. *)
Definition fillSinks (w : World) : World :=
  mkWorld (width w) (height w) (points w) (adjacency w)
          (fs_elev (fillSinksState w)) (moisture w) (rivers w).

(** *** [calculateDistanceToCoast] *)

(** [distance], [queue] and [queueStart]. *)
Record CoastState := mkCoast {
  cs_distance : list Z;
  cs_queue : list nat;
  cs_queueStart : nat
}.

Definition seedCoast (elev : list Q) (st : CoastState) (i : nat) : CoastState :=
  if decide (elev !!! i <= 0)%Q then
    mkCoast (<[i := 0%Z]> (cs_distance st)) (cs_queue st ++ [i])
            (cs_queueStart st)
  else st.

(** The body of the loop over the neighbours of [current]. *)
Definition relaxNeighbor (currentDist : Z) (st : CoastState) (nId : nat)
  : CoastState :=
  if decide (cs_distance st !! nId = Some (-1)%Z) then
    mkCoast (<[nId := (currentDist + 1)%Z]> (cs_distance st))
            (cs_queue st ++ [nId]) (cs_queueStart st)
  else st.

(** The [while (queueStart < queue.length)] loop.  Every cell enters the
    queue at most once, so [cellCount] iterations exhaust it (lemma
    [coastLoop_exhausts_queue]). *)
Fixpoint coastLoop (fuel : nat) (adj : list (list nat)) (st : CoastState)
  : CoastState :=
  match fuel with
  | O => st
  | S fuel' =>
      match cs_queue st !! cs_queueStart st with
      | None => st
      | Some current =>
          let currentDist := cs_distance st !!! current in
          coastLoop fuel' adj
            (foldl (relaxNeighbor currentDist)
                   (mkCoast (cs_distance st) (cs_queue st)
                            (S (cs_queueStart st)))
                   (adj !!! current))
      end
  end.

Definition coastState (w : World) : CoastState :=
  let n := cellCount w in
  coastLoop n (adjacency w)
    (foldl (seedCoast (elevations w)) (mkCoast (replicate n (-1)%Z) [] 0)
           (seq 0 n)).

Definition calculateDistanceToCoast (w : World) : list Z :=
  cs_distance (coastState w).

(** *** [generateRivers] *)

(** Pass 1: [bestNeighbor], [lowestH], [bestDist]. *)
Record Best := mkBest {
  bestNeighbor : Z;
  lowestH : Q;
  bestDist : Z
}.

Definition scanNeighbor (elev : list Q) (dist : list Z) (b : Best) (nId : nat)
  : Best :=
  let nH := elev !!! nId in
  let nDist := dist !!! nId in
  if decide (nH < lowestH b)%Q then mkBest (Z.of_nat nId) nH nDist
  else if decide ((nH == lowestH b)%Q ∧ (nDist < bestDist b)%Z)
       then mkBest (Z.of_nat nId) (lowestH b) nDist
       else b.

Definition downhillCell (adj : list (list nat)) (elev : list Q) (dist : list Z)
    (i : nat) : Z :=
  bestNeighbor
    (foldl (scanNeighbor elev dist) (mkBest (-1) (elev !!! i) (dist !!! i))
           (adj !!! i)).

(** The body of the loop over the cells; the first branch is the
    [continue]. *)
Definition assignDownhill (adj : list (list nat)) (elev : list Q)
    (dist : list Z) (dh : list Z) (i : nat) : list Z :=
  if decide (elev !!! i <= 1 # 20)%Q then dh
  else <[i := downhillCell adj elev dist i]> dh.

Definition downhillPass (n : nat) (adj : list (list nat)) (elev : list Q)
    (dist : list Z) : list Z :=
  foldl (assignDownhill adj elev dist) (replicate n (-1)%Z) (seq 0 n).

(** Pass 2: the comparator of [sortedIndices.sort]. *)
Definition riverCompare (elev : list Q) (dist : list Z) (a b : nat) : Q :=
  if decide (elev !!! b == elev !!! a)%Q
  then inject_Z (dist !!! b - dist !!! a)
  else (elev !!! b - elev !!! a)%Q.

(** [TypedArray.prototype.sort] belongs to the JavaScript engine.  It is
    modelled by a stable insertion sort; the properties below are proved
    for every sorted permutation of the indices, which this one is. *)
Fixpoint sortInsert (cmp : nat -> nat -> Q) (x : nat) (l : list nat) : list nat :=
  match l with
  | [] => [x]
  | y :: l' =>
      if decide (cmp y x < 0)%Q then y :: sortInsert cmp x l'
      else x :: y :: l'
  end.

Definition sortBy (cmp : nat -> nat -> Q) (l : list nat) : list nat :=
  foldr (sortInsert cmp) [] l.

(** The body of the accumulation loop.  [flux] is a [Float32Array] filled
    with 1: its entries are whole numbers, and a sum of two of them is
    stored as it is as long as it is at most [2^24]. *)
Definition accumulate (elev : list Q) (downhill : list Z) (flux : list Z)
    (i : nat) : list Z :=
  let target := downhill !!! i in
  if decide ((0 <= target)%Z ∧ (0 < elev !!! i)%Q) then
    <[Z.to_nat target := (flux !!! Z.to_nat target + flux !!! i)%Z]> flux
  else flux.

Definition fluxPass (n : nat) (elev : list Q) (downhill : list Z)
    (order : list nat) : list Z :=
  foldl (accumulate elev downhill) (replicate n 1%Z) order.

(** Pass 3: [RIVER_THRESHOLD] and the body of the extraction loop. *)
Definition RIVER_THRESHOLD : Z := 50.

Definition segment (pts : list Q) (downhill flux : list Z) (i : nat) : list Q :=
  let target := Z.to_nat (downhill !!! i) in
  [ pts !!! (i * 2); pts !!! (i * 2 + 1);
    pts !!! (target * 2); pts !!! (target * 2 + 1);
    inject_Z (flux !!! i) ].

Definition emitSegment (pts : list Q) (elev : list Q) (downhill flux : list Z)
    (segs : list Q) (i : nat) : list Q :=
  if decide ((RIVER_THRESHOLD < flux !!! i)%Z ∧ (0 < elev !!! i)%Q) then
    if decide (0 <= downhill !!! i)%Z
    then segs ++ segment pts downhill flux i
    else segs
  else segs.

(** The locals of [generateRivers], as functions of the world. *)
Definition distToCoast (w : World) : list Z := calculateDistanceToCoast w.

Definition downhill (w : World) : list Z :=
  downhillPass (cellCount w) (adjacency w) (elevations w) (distToCoast w).

Definition sortedIndices (w : World) : list nat :=
  sortBy (riverCompare (elevations w) (distToCoast w)) (seq 0 (cellCount w)).

Definition flux (w : World) : list Z :=
  fluxPass (cellCount w) (elevations w) (downhill w) (sortedIndices w).

Definition riverSegments (w : World) (dh fl : list Z) : list Q :=
  foldl (emitSegment (points w) (elevations w) dh fl) [] (seq 0 (cellCount w)).

(** [generateRivers()]: [new Float32Array(riverSegments)] rounds every
    number of the list on the way into the returned array. *)
Definition generateRivers (w : World) : list Q :=
  map fround (riverSegments w (downhill w) (flux w)).

(** *** [fbm] and [generateTerrain] *)

Section terrain.
(** [this.noise2D], the function [createNoise2D()] of the noise library
    returns. *)
Variable noise2D : Q → Q → Q.

(** The loop of [fbm], with its three running variables. *)
Fixpoint fbm_loop (octaves : nat) (x y scale offsetX offsetY : Q)
    (value amplitude frequency : Q) : Q :=
  match octaves with
  | O => value
  | S k =>
      let nx := ((x + offsetX) / scale * frequency)%Q in
      let ny := ((y + offsetY) / scale * frequency)%Q in
      fbm_loop k x y scale offsetX offsetY
               (value + noise2D nx ny * amplitude)%Q
               (amplitude * (1 # 2))%Q (frequency * 2)%Q
  end.

(** [fbm(x, y, octaves, scale, offsetX, offsetY)]. *)
Definition fbm (x y : Q) (octaves : nat) (scale offsetX offsetY : Q) : Q :=
  fbm_loop octaves x y scale offsetX offsetY 0 (1 # 2) 1.

(** The private offsets of the class and the two draws of [Math.random()]
    in [generateTerrain]. *)
Record TerrainSeed := mkSeed {
  offsetElevationX : Q;
  offsetElevationY : Q;
  offsetMoistureX : Q;
  offsetMoistureY : Q;
  randomElevation : Q;
  randomMoisture : Q
}.

(** The body of the loop of [generateTerrain], on the pair of
    [this.elevations] and [this.moisture].  The two values are stored
    exact; the source stores the Float32 nearest to each, and the bounds
    proved of them are bounds that this rounding keeps. *)
Definition terrainCell (seed : TerrainSeed) (w : World)
    (st : list Q * list Q) (i : nat) : list Q * list Q :=
  let minSide := Qmin (width w) (height w) in
  let scaleElevation := (minSide * ((1 # 2) + randomElevation seed * (1 # 2)))%Q in
  let scaleMoisture := (minSide * ((1 # 2) + randomMoisture seed * (1 # 2)))%Q in
  let x := points w !!! (i * 2) in
  let y := points w !!! (i * 2 + 1) in
  let h := fbm x y 5 scaleElevation (offsetElevationX seed)
               (offsetElevationY seed) in
  let h := (h + Qabs (fbm x y 4 (scaleElevation / 4)
                          (offsetElevationX seed + 5000)
                          (offsetElevationY seed)) * (3 # 10))%Q in
  let elev := <[i := (h - (15 # 100))%Q]> st.1 in
  let m := fbm x y 4 scaleMoisture (offsetMoistureX seed)
               (offsetMoistureY seed) in
  let m := if decide (elev !!! i < 0)%Q then (m + (1 # 2))%Q else m in
  (elev, <[i := m]> st.2).

(** [generateTerrain()]: the world afterwards. *)
Definition generateTerrain (seed : TerrainSeed) (w : World) : World :=
  let st := foldl (terrainCell seed w) (elevations w, moisture w)
                  (seq 0 (cellCount w)) in
  mkWorld (width w) (height w) (points w) (adjacency w) st.1 st.2 (rivers w).

End terrain.

(** *** [generatePoissonPoints], [precalculateNeighbors] and the constructor *)

(** The body of the copy loop of [generatePoissonPoints]: [pointsArray] is
    what [pds.fill()] returned, one two-element array per sample. *)
Definition storePoint (pointsArray : list (Q * Q)) (points : list Q)
    (i : nat) : list Q :=
  <[i * 2 + 1 := (pointsArray !!! i).2]>
    (<[i * 2 := (pointsArray !!! i).1]> points).

(** [generatePoissonPoints(targetNumPoints)] from the sampling on: the
    target number only steers the sampling library. *)
Definition generatePoissonPoints (pointsArray : list (Q * Q)) : list Q :=
  foldl (storePoint pointsArray)
        (replicate (length pointsArray * 2) 0%Q)
        (seq 0 (length pointsArray)).

(** [precalculateNeighbors()]: [neighbors i] is what
    [this.voronoi.neighbors(i)] yields. *)
Definition precalculateNeighbors (neighbors : nat → list nat) (w : World)
    : list (list nat) :=
  foldl (λ adj i, <[i := neighbors i]> adj)
        (replicate (cellCount w) [])
        (seq 0 (cellCount w)).

Section constructor.
Variable noise2D : Q → Q → Q.

(** [new World(width, height, numPoints)], with the samples and the
    neighbour relation of the Voronoi diagram as they came from the
    libraries. *)
Definition construct (seed : TerrainSeed) (wd ht : Q)
    (pointsArray : list (Q * Q)) (neighbors : nat → list nat) : World :=
  let w := mkWorld wd ht (generatePoissonPoints pointsArray) [] [] [] [] in
  let w := mkWorld wd ht (points w) (precalculateNeighbors neighbors w)
                   [] [] [] in
  let w := mkWorld wd ht (points w) (adjacency w)
                   (replicate (cellCount w) 0%Q)
                   (replicate (cellCount w) 0%Q) [] in
  let w := generateTerrain noise2D seed w in
  let w := mkWorld wd ht (points w) (adjacency w)
                   (smoothMap w (elevations w) 2) (moisture w) (rivers w) in
  let w := mkWorld wd ht (points w) (adjacency w) (elevations w)
                   (smoothMap w (moisture w) 2) (rivers w) in
  let w := fillSinks w in
  mkWorld wd ht (points w) (adjacency w) (elevations w) (moisture w)
          (generateRivers w).

End constructor.

(** [2^-k]. *)
Fixpoint halves (k : nat) : Q :=
  match k with
  | O => 1
  | S k => (halves k * (1 # 2))%Q
  end.

(** The sum of the amplitudes of [k] octaves that start at amplitude
    [a]. *)
Fixpoint reach (k : nat) (a : Q) : Q :=
  match k with
  | O => 0
  | S k => (a + reach k (a * (1 # 2)))%Q
  end.

(** A field whose values all lie between [lo] and [hi]. *)
Definition field_within (lo hi : Q) (data : list Q) : Prop :=
  Forall (λ x, lo <= x ∧ x <= hi)%Q data.

(** ** [MapView] (render/MapView.ts) *)

Module MapView.

(** [COLORS]. *)
Definition OCEAN : Z := 0x364e5e.
Definition COAST : Z := 0x486070.
Definition SAND : Z := 0xd4ccb0.
Definition GRASS : Z := 0x8fa35d.
Definition LAND : Z := 0x6e8c4f.
Definition FOREST : Z := 0x4a6b3c.
Definition DESERT : Z := 0xd1bd8a.
Definition SWAMP : Z := 0x5a634e.
Definition MOUNTAIN_LOW : Z := 0x7a746d.
Definition MOUNTAIN_HIGH : Z := 0x5e5b58.
Definition SNOW : Z := 0xf5f5f5.
Definition RIVER : Z := 0x4f7082.

(** The doubles that the literals [0.05] and [0.8] of the source denote. *)
Definition double_0_05 : Q := 3602879701896397 # 72057594037927936.
Definition double_0_8 : Q := 3602879701896397 # 4503599627370496.

(** [getBiomeColor(height, moisture)], as [draw] calls it: on entries of
    the Float32 arrays [elevations] and [moisture].  The thresholds are
    written as the decimal fractions of the source text, where the source
    compares with the doubles nearest to them; what is stated about the
    function with a threshold in it is stated for a Float32 height and
    with the double. *)

Definition getBiomeColor (height moisture : Q) : Z :=
  if decide (height < 0)%Q then OCEAN
  else if decide (height < 5 # 100)%Q then COAST
  else if decide (8 # 10 < height)%Q then SNOW
  else if decide (6 # 10 < height)%Q then MOUNTAIN_HIGH
  else if decide (45 # 100 < height)%Q then
    if decide (moisture < 1 # 10)%Q then MOUNTAIN_LOW else FOREST
  else if decide (height < 12 # 100)%Q then SAND
  else if decide (moisture < - (15 # 100))%Q then DESERT
  else if decide (moisture < 15 # 100)%Q then GRASS
  else if decide (moisture < 6 # 10)%Q then LAND
  else FOREST.

(** [Math.min(255, Math.max(0, v))]. *)
Definition clampChannel (v : Q) : Q :=
  let m := if decide (0 < v)%Q then v else 0%Q in
  if decide (m < 255)%Q then m else 255%Q.

(** The conversion of a number to an integer by the shift operators: the
    fraction is dropped.  The channels stay far inside the 32-bit range. *)
Definition toInt32 (v : Q) : Z := Z.quot (Qnum v) (Zpos (Qden v)).

(** [adjustColor(color, percent)], for a colour in the 32-bit range.  The
    sum [r + r * percent] is exact here; the source rounds it to a double
    before the fraction is dropped. *)
Definition adjustColor (color : Z) (percent : Q) : Z :=
  let r := Z.land (Z.shiftr color 16) 0xFF in
  let g := Z.land (Z.shiftr color 8) 0xFF in
  let b := Z.land color 0xFF in
  let r := clampChannel (inject_Z r + inject_Z r * percent) in
  let g := clampChannel (inject_Z g + inject_Z g * percent) in
  let b := clampChannel (inject_Z b + inject_Z b * percent) in
  Z.lor (Z.lor (Z.shiftl (toInt32 r) 16) (Z.shiftl (toInt32 g) 8)) (toInt32 b).

(** What the river loop of [draw] reads for one line: the two end points
    handed to [moveTo] and [lineTo], and the flux its width is computed
    from. *)
Record Stroke := mkStroke {
  x1 : Q; y1 : Q; x2 : Q; y2 : Q; strokeFlux : Q
}.

(** The river loop of [draw]: [for (let i = 0; i < rivers.length; i += 5)].
    Every iteration moves on by five entries, so [rivers.length] bounds the
    number of iterations. *)
Fixpoint riverStrokes_loop (fuel : nat) (rivers : list Q) (i : nat)
  : list Stroke :=
  match fuel with
  | O => []
  | S fuel' =>
      if decide (i < length rivers) then
        mkStroke (rivers !!! i) (rivers !!! (i + 1)) (rivers !!! (i + 2))
                 (rivers !!! (i + 3)) (rivers !!! (i + 4))
        :: riverStrokes_loop fuel' rivers (i + 5)
      else []
  end.

Definition riverStrokes (rivers : list Q) : list Stroke :=
  riverStrokes_loop (length rivers) rivers 0.

End MapView.

(** *** Well-formed worlds *)

(** Every cached neighbour index is a cell index, as [voronoi.neighbors]
    yields them. *)
Definition neighbors_in_range (w : World) : Prop :=
  Forall (Forall (λ n, n < cellCount w)) (adjacency w).

(** The constructor allocates [adjacency] and [elevations] with one entry
    per cell. *)
Definition well_formed (w : World) : Prop :=
  length (adjacency w) = cellCount w ∧
  length (elevations w) = cellCount w ∧
  neighbors_in_range w.

(** A field that holds [c] at every cell. *)
Definition constant_field (c : Q) (data : list Q) : Prop :=
  Forall (λ x, x == c)%Q data.

(** *** The adjacency graph and drainage paths *)

(** The cached adjacency as a graph: an edge leads from a cell to each of
    its cached neighbours. *)
Definition edge (adj : list (list nat)) (u v : nat) : Prop := v ∈ adj !!! u.

Definition symmetric_adjacency (adj : list (list nat)) : Prop :=
  ∀ u v, edge adj u v → edge adj v u.

(** Reachable in the adjacency graph from a cell at or below sea level. *)
Definition reachable_from_sea (adj : list (list nat)) (elev : list Q) (c : nat)
  : Prop :=
  ∃ s, s < length elev ∧ (elev !!! s <= 0)%Q ∧ rtc (edge adj) s c.

(** [p] continues a path from [c] to a cell at or below sea level;
    consecutive cells are related by [step] and the elevation does not
    increase from one cell to the next. *)
Fixpoint drain_path (step : nat → nat → Prop) (elev : list Q) (c : nat)
    (p : list nat) : Prop :=
  match p with
  | [] => (elev !!! c <= 0)%Q
  | d :: p' =>
      step c d ∧ (elev !!! d <= elev !!! c)%Q ∧ drain_path step elev d p'
  end.

(** A visited cell drains to the sea through visited cells: it is at or
    below sea level, or it was entered from a visited cell that is not
    higher and drains to the sea. *)
Inductive drained (adj : list (list nat)) (elev : list Q) (vis : list bool)
  : nat → Prop :=
| drained_sea c :
    vis !! c = Some true → (elev !!! c <= 0)%Q → drained adj elev vis c
| drained_up u c :
    vis !! c = Some true → edge adj u c → (elev !!! u <= elev !!! c)%Q →
    drained adj elev vis u → drained adj elev vis c.

(** The invariant of the flood loop.  [elev0] is the array of elevations
    on entry and [popped] the cells extracted from the heap so far. *)
Record fill_inv (adj : list (list nat)) (elev0 : list Q) (popped : list nat)
    (st : FillState) : Prop := mkFillInv {
  fi_len_elev : length (fs_elev st) = length elev0;
  fi_len_vis : length (fs_visited st) = length elev0;
  fi_nodup : NoDup (popped ++ fs_heap st);
  fi_visited : ∀ i, fs_visited st !! i = Some true ↔ i ∈ popped ++ fs_heap st;
  fi_drained : ∀ i, fs_visited st !! i = Some true →
                    drained adj (fs_elev st) (fs_visited st) i;
  fi_reach : ∀ i, fs_visited st !! i = Some true →
                  reachable_from_sea adj elev0 i;
  fi_raise : ∀ i, (elev0 !!! i <= fs_elev st !!! i)%Q;
  fi_frame : ∀ i, fs_visited st !! i ≠ Some true →
                  fs_elev st !!! i = elev0 !!! i;
  fi_sea : ∀ i, i < length elev0 → (elev0 !!! i <= 0)%Q →
                fs_elev st !!! i = elev0 !!! i ∧
                fs_visited st !! i = Some true
}.

(** A cell whose elevation differs from the one on entry was visited from
    a visited cell that it lay below, and stands [epsilon] above it. *)
Definition raised_inv (adj : list (list nat)) (elev0 : list Q)
    (st : FillState) : Prop :=
  ∀ i, fs_elev st !!! i ≠ elev0 !!! i →
       ∃ u, fs_visited st !! u = Some true ∧ fs_visited st !! i = Some true ∧
            edge adj u i ∧
            (elev0 !!! i < fs_elev st !!! u)%Q ∧
            fs_elev st !!! i = (fs_elev st !!! u + epsilon)%Q.

(** Every neighbour of an extracted cell has been visited. *)
Definition closed_under (adj : list (list nat)) (popped : list nat)
    (vis : list bool) : Prop :=
  ∀ u v, u ∈ popped → edge adj u v → vis !! v = Some true.

(** A cell from which the sea is reached through cells that have it among
    their cached neighbours, without ever going up. *)
Inductive sinks_to_sea (adj : list (list nat)) (elev : list Q) : nat → Prop :=
| sinks_sea c :
    c < length elev → (elev !!! c <= 0)%Q → sinks_to_sea adj elev c
| sinks_up u c :
    edge adj u c → (elev !!! u <= elev !!! c)%Q →
    sinks_to_sea adj elev u → sinks_to_sea adj elev c.

(** The invariant of the flood loop on a surface [e] that is already
    filled: the elevations stay [e] and the heap stays ordered by them. *)
Definition filled_inv (adj : list (list nat)) (e : list Q)
    (popped : list nat) (st : FillState) : Prop :=
  fs_elev st = e ∧ fill_inv adj e popped st ∧
  closed_under adj popped (fs_visited st) ∧
  MinHeap.heap_ok (elevCompare e) (fs_heap st).

(** The same while the neighbours of the extracted cell [u] are being
    visited: no queued cell is lower than [u]. *)
Definition filled_step_inv (adj : list (list nat)) (e : list Q)
    (popped : list nat) (u : nat) (st : FillState) : Prop :=
  fs_elev st = e ∧ fill_inv adj e (popped ++ [u]) st ∧
  closed_under adj popped (fs_visited st) ∧
  MinHeap.heap_ok (elevCompare e) (fs_heap st) ∧
  (∀ h, h ∈ fs_heap st → (e !!! u <= e !!! h)%Q).


(** *** Hop counts and the invariant of the breadth-first traversal *)

(** Cell [c] is [k] adjacency hops away from some cell at or below sea
    level. *)
Definition hops (adj : list (list nat)) (elev : list Q) (k c : nat) : Prop :=
  ∃ s, s < length elev ∧ (elev !!! s <= 0)%Q ∧ nsteps (edge adj) k s c.

(** The invariant of the traversal once the first [n] entries of the queue
    have been processed entirely. *)
Record coast_inv (adj : list (list nat)) (elev : list Q) (n : nat)
    (st : CoastState) : Prop := mkCoastInv {
  ci_len : length (cs_distance st) = length elev;
  ci_nodup : NoDup (cs_queue st);
  ci_queued : ∀ i, i ∈ cs_queue st →
      ∃ k, cs_distance st !! i = Some (Z.of_nat k) ∧ hops adj elev k i;
  ci_unknown : ∀ i, i < length elev → i ∉ cs_queue st →
      cs_distance st !! i = Some (-1)%Z;
  ci_sea : ∀ i, i < length elev → (elev !!! i <= 0)%Q →
      i ∈ cs_queue st ∧ cs_distance st !! i = Some 0%Z;
  ci_sorted : ∀ p q a b, p ≤ q →
      cs_queue st !! p = Some a → cs_queue st !! q = Some b →
      (cs_distance st !!! a <= cs_distance st !!! b)%Z;
  ci_bound : n ≤ length (cs_queue st);
  ci_relaxed : ∀ p u v, p < n → cs_queue st !! p = Some u → edge adj u v →
      v ∈ cs_queue st ∧ (cs_distance st !!! v <= cs_distance st !!! u + 1)%Z
}.

(** No queued cell is more than one hop farther than [cd]. *)
Definition window (cd : Z) (st : CoastState) : Prop :=
  ∀ b, b ∈ cs_queue st → (cs_distance st !!! b <= cd + 1)%Z.

(** The window of the cell at the head of the queue, if there is one. *)
Definition head_window (st : CoastState) : Prop :=
  ∀ a, cs_queue st !! cs_queueStart st = Some a →
       window (cs_distance st !!! a) st.

(** [st'] continues [st]: the queue has grown at its end and the queued
    cells have kept their distance. *)
Definition coast_extends (st st' : CoastState) : Prop :=
  (∃ l, cs_queue st' = cs_queue st ++ l) ∧
  (∀ x, x ∈ cs_queue st → cs_distance st' !!! x = cs_distance st !!! x) ∧
  cs_queueStart st' = cs_queueStart st.

(** *** The drainage order *)

(** Cell [a] lies below cell [b]: strictly lower, or level with it and
    strictly closer to the coast.  This is the test of the two branches of
    the scan of pass 1. *)
Definition lower (elev : list Q) (dist : list Z) (a b : nat) : Prop :=
  (elev !!! a < elev !!! b)%Q ∨
  ((elev !!! a == elev !!! b)%Q ∧ (dist !!! a < dist !!! b)%Z).

#[global] Instance lower_dec elev dist a b : Decision (lower elev dist a b).
Proof. unfold lower. apply _. Defined.

(** The number of cells that lie below cell [i]. *)
Definition rank (elev : list Q) (dist : list Z) (n i : nat) : nat :=
  length (filter (λ j, lower elev dist j i) (seq 0 n)).

(** What the scan of the neighbours [ns] of cell [i] has established. *)
Definition best_inv (elev : list Q) (dist : list Z) (i : nat) (ns : list nat)
    (b : Best) : Prop :=
  ((bestNeighbor b = (-1)%Z ∧ (lowestH b == elev !!! i)%Q ∧
    bestDist b = dist !!! i) ∨
   (∃ t, t ∈ ns ∧ bestNeighbor b = Z.of_nat t ∧ (lowestH b == elev !!! t)%Q ∧
         bestDist b = dist !!! t ∧ lower elev dist t i)) ∧
  (∀ n, n ∈ ns →
        ¬ ((elev !!! n < lowestH b)%Q ∨
           ((elev !!! n == lowestH b)%Q ∧ (dist !!! n < bestDist b)%Z))).

(** The drainage link of cell [i]: [downhill[i]] is the index [t]. *)
Definition flows_to (dh : list Z) (i t : nat) : Prop :=
  dh !! i = Some (Z.of_nat t).

(** The same, restricted to cells above sea level. *)
Definition flows_above (elev : list Q) (dh : list Z) (i t : nat) : Prop :=
  flows_to dh i t ∧ (0 < elev !!! i)%Q.

(** What a comparator sort returns: no element of the result comes
    strictly after a later one. *)
Definition sorted_by (cmp : nat → nat → Q) (l : list nat) : Prop :=
  StronglySorted (λ a b, (cmp a b <= 0)%Q) l.

Definition sumZ (l : list Z) : Z := foldr Z.add 0%Z l.

(** Cell [i] pours its flow into cell [c] in the accumulation loop. *)
Definition pours_into (elev : list Q) (dh : list Z) (i c : nat) : Prop :=
  dh !!! i = Z.of_nat c ∧ (0 < elev !!! i)%Q.

(** The flow that reaches cell [c] from the cells of [cells] that drain
    into it, read in the array [fl]. *)
Definition inflow (elev : list Q) (dh fl : list Z) (cells : list nat) (c : nat)
  : Z :=
  sumZ (map (λ i, if decide (pours_into elev dh i c) then fl !!! i else 0%Z)
            cells).

(** Along the list, no cell pours into a cell met earlier, nor into
    itself. *)
Fixpoint pours_forward (elev : list Q) (dh : list Z) (l : list nat) : Prop :=
  match l with
  | [] => True
  | i :: l' =>
      (∀ j, j ∈ i :: l' → ¬ pours_into elev dh j i) ∧ pours_forward elev dh l'
  end.

(** The test of the accumulation loop: cell [i] has a target and lies
    above sea level, so its flow is poured on. *)
Definition drains_out (elev : list Q) (dh : list Z) (i : nat) : Prop :=
  (0 <= dh !!! i)%Z ∧ (0 < elev !!! i)%Q.

(** The flow held by the cells of [cells], read in [fl]. *)
Definition total_flow (fl : list Z) (cells : list nat) : Z :=
  sumZ (map (λ c, fl !!! c) cells).

(** The flow held by the cells of [cells] that pour nothing on. *)
Definition outlet_flow (elev : list Q) (dh fl : list Z) (cells : list nat) : Z :=
  sumZ (map (λ c, if decide (drains_out elev dh c) then 0%Z else fl !!! c)
            cells).

(** Along the list, the target of every cell that pours comes later. *)
Fixpoint targets_later (elev : list Q) (dh : list Z) (l : list nat) : Prop :=
  match l with
  | [] => True
  | i :: l' =>
      (drains_out elev dh i → Z.to_nat (dh !!! i) ∈ l') ∧
      targets_later elev dh l'
  end.

(** The cells that pass 3 emits a segment for. *)
Definition river_cells (w : World) (dh fl : list Z) : list nat :=
  filter (λ i, (RIVER_THRESHOLD < fl !!! i)%Z ∧ (0 < elevations w !!! i)%Q ∧
               (0 <= dh !!! i)%Z)
         (seq 0 (cellCount w)).

(** A land cell and two level cells behind it. *)
Definition level_world : World :=
  mkWorld 3 1 [0; 0; 1; 0; 2; 0]%Q [[1]; [0; 2]; [1]] [-1; 1; 1]%Q
          [0; 0; 0]%Q [].

(** A coast cell, a slope with a pit in it, and an island cell without
    neighbours. *)
Definition pit_world : World :=
  mkWorld 5 1 [0; 0; 1; 0; 2; 0; 3; 0; 4; 0]%Q
          [[1]; [0; 2]; [1; 3]; [2]; []]
          [-1; 1 # 2; 1 # 5; 4 # 5; 3 # 10]%Q
          [0; 0; 0; 0; 0]%Q [].

(** A coast cell and a slope of 51 cells that rises away from it. *)
Definition chain_world : World :=
  mkWorld 52 1
          (flat_map (λ i, [inject_Z (Z.of_nat i); 0%Q]) (seq 0 52))
          (map (λ i, if decide (i = 0) then [1]
                     else if decide (i = 51) then [50]
                     else [i - 1; i + 1]) (seq 0 52))
          (map (λ i, if decide (i = 0) then (-1)%Q
                     else (Z.of_nat i # 10)%Q) (seq 0 52))
          (replicate 52 0%Q) [].

(** The same slope far to the right: cell [i] stands at [x = 2^24 + i]. *)
Definition offset_world : World :=
  mkWorld 16777300 1
          (flat_map (λ i, [inject_Z (16777216 + Z.of_nat i); 0%Q]) (seq 0 52))
          (adjacency chain_world)
          (map (λ i, if decide (i = 0) then (-1)%Q
                     else (Z.of_nat i # 8)%Q) (seq 0 52))
          (replicate 52 0%Q) [].

(** A noise function with values in [[-1, 1]]. *)
Definition checker_noise (a b : Q) : Q :=
  if decide (a < b)%Q then 1%Q else (- (1 # 2))%Q.

(** Offsets and the two draws for the scales. *)
Definition sample_seed : TerrainSeed :=
  mkSeed 10 20 30 40 (1 # 2) (1 # 4).

(** The neighbours of three cells in a row. *)
Definition row_neighbors (i : nat) : list nat :=
  [[1]; [0; 2]; [1]] !!! i.

(** * Properties *)

(** ** The heap *)

Module MinHeapFacts.
Import MinHeap.
Section facts.
Context {T : Type} (compare : T -> T -> Q).

#[local] Abbreviation precedes := (precedes compare).
#[local] Abbreviation cle := (cle compare).
#[local] Abbreviation swap := (@swap T).

Lemma parent_child (i : nat) :
  0 < i → i = 2 * parentIndex i + 1 ∨ i = 2 * parentIndex i + 2.
Proof.
  intros Hi. unfold parentIndex.
  pose proof (Nat.div_mod_eq (i - 1) 2) as E.
  pose proof (Nat.mod_upper_bound (i - 1) 2) as B. lia.
Qed.

Lemma parent_of_left (k : nat) : parentIndex (2 * k + 1) = k.
Proof.
  unfold parentIndex. replace (2 * k + 1 - 1) with (k * 2) by lia.
  apply Nat.div_mul. lia.
Qed.

Lemma parent_of_right (k : nat) : parentIndex (2 * k + 2) = k.
Proof.
  unfold parentIndex. replace (2 * k + 2 - 1) with (1 + k * 2) by lia.
  rewrite Nat.div_add by lia. reflexivity.
Qed.

Lemma swap_length (h : list T) i j : length (swap h i j) = length h.
Proof.
  unfold MinHeap.swap. destruct (h !! i), (h !! j); trivial.
  by rewrite !length_insert.
Qed.

Lemma swap_perm (h : list T) i j : swap h i j ≡ₚ h.
Proof.
  unfold MinHeap.swap. destruct (h !! i) eqn:Hi, (h !! j) eqn:Hj; trivial.
  by apply Permutation_insert_swap.
Qed.

Lemma swap_lookup (h : list T) i j x y k :
  h !! i = Some x → h !! j = Some y →
  swap h i j !! k =
    if decide (k = j) then Some x
    else if decide (k = i) then Some y else h !! k.
Proof.
  intros Hi Hj. unfold MinHeap.swap. rewrite Hi, Hj.
  pose proof (lookup_lt_Some _ _ _ Hi). pose proof (lookup_lt_Some _ _ _ Hj).
  repeat case_decide; subst.
  - rewrite list_lookup_insert_eq; [done | by rewrite length_insert].
  - rewrite list_lookup_insert_ne by done.
    by rewrite list_lookup_insert_eq.
  - by rewrite !list_lookup_insert_ne.
Qed.

(** *** Contents: every operation permutes the array *)

Lemma bubbleUp_loop_perm fuel (h : list T) k :
  bubbleUp_loop compare fuel h k ≡ₚ h.
Proof.
  revert h k. induction fuel as [|fuel IH]; intros h k; simpl; [done|].
  case_decide; [|done].
  destruct (h !! k), (h !! parentIndex k); try done.
  case_decide; [|done]. by rewrite IH, swap_perm.
Qed.

Lemma push_perm (h : list T) x : push compare h x ≡ₚ x :: h.
Proof.
  unfold push, bubbleUp. rewrite bubbleUp_loop_perm.
  by rewrite Permutation_app_comm.
Qed.

Lemma bubbleDown_loop_perm fuel (h : list T) k :
  bubbleDown_loop compare fuel h k ≡ₚ h.
Proof.
  revert h k. induction fuel as [|fuel IH]; intros h k; simpl; [done|].
  destruct (swapIndex compare h k) as [s|]; [|done].
  destruct (h !! s), (h !! k); try done.
  case_decide; [|done]. by rewrite IH, swap_perm.
Qed.

(** [pop] on an array written with its last element apart. *)
Lemma pop_snoc (l : list T) bottom :
  pop compare (l ++ [bottom]) =
    match l with
    | [] => (Some bottom, [])
    | top :: r => (Some top, bubbleDown compare (bottom :: r) 0)
    end.
Proof.
  destruct l as [|top r]; [done|].
  unfold pop. change ((top :: r) ++ [bottom]) with (top :: (r ++ [bottom])).
  cbv zeta. rewrite last_cons, last_snoc.
  replace (length (top :: r ++ [bottom]) - 1) with (length (top :: r))
    by (simpl; rewrite length_app; simpl; lia).
  change (top :: r ++ [bottom]) with ((top :: r) ++ [bottom]).
  by rewrite take_app_length.
Qed.

Lemma pop_cons (top : T) r : (pop compare (top :: r)).1 = Some top.
Proof. unfold pop. cbv zeta. by destruct (last _), (take _ _). Qed.

Lemma pop_perm (h : list T) top h' :
  pop compare h = (Some top, h') → h ≡ₚ top :: h'.
Proof.
  induction h as [|bottom l _] using rev_ind; [done|].
  rewrite pop_snoc. destruct l as [|x r]; intros [= <- <-]; [done|].
  unfold bubbleDown. rewrite bubbleDown_loop_perm.
  rewrite <- Permutation_cons_append. simpl. apply perm_swap.
Qed.

Lemma pop_None (h : list T) h' : pop compare h = (None, h') → h = [] ∧ h' = [].
Proof.
  destruct h as [|a r]; [by intros [= <-]|].
  intros E. pose proof (pop_cons a r) as E'. rewrite E in E'. done.
Qed.

Lemma pop_is_Some (h : list T) :
  h ≠ [] → ∃ top h', pop compare h = (Some top, h') ∧ h !! 0 = Some top.
Proof.
  destruct h as [|a r]; [done|]. intros _.
  pose proof (pop_cons a r) as E. destruct (pop compare (a :: r)) as [o h'].
  simpl in E. subst o. by exists a, h'.
Qed.

(** C9.  [pop] on the empty heap returns [undefined] and leaves the array
    empty, of length 0; the empty array is a heap, and popping it again
    gives the same. *)
Theorem pop_empty :
  pop compare [] = (None, []) ∧
  length (pop compare []).2 = 0 ∧
  heap_ok compare (pop compare []).2 ∧
  pop compare (pop compare []).2 = (None, []).
Proof.
  by split_and!.
Qed.

(** *** Order: the heap property is kept *)

Section order.
Hypothesis cle_trans : ∀ a b c, cle a b → cle b c → cle a c.
Hypothesis cle_total : ∀ a b, cle a b ∨ cle b a.

(** Closes one case of an invariant proof from the invariant [H] of the
    other positions, the clause [G] on grandchildren and transitivity. *)
Ltac heap_side :=
  first
    [ eassumption
    | lia
    | congruence
    | match goal with E : parentIndex _ = _ |- _ => rewrite E; eassumption end ].
Ltac heap_use H := eapply H; [ | | eassumption | ]; heap_side.
Ltac heap_use_g G := eapply G; [ | | | eassumption | ]; heap_side.
Ltac heap_close H G :=
  first
    [ done
    | lia
    | solve [heap_use H]
    | solve [heap_use_g G]
    | solve [eapply cle_trans; [eassumption|]; heap_use H]
    | solve [eapply cle_trans; [|eassumption]; heap_use H]
    | solve [eapply cle_trans; [|heap_use H]; heap_use H]
    | solve [eapply cle_trans; [|heap_use H]; heap_use_g G] ].

Lemma precedes_cle a b : precedes a b → cle a b.
Proof. intros H. destruct (cle_total a b) as [|C]; [done|]. by destruct C. Qed.

Lemma heap_ok_nil : heap_ok compare [].
Proof. intros i _ x p Hx. done. Qed.

Lemma up_ok_heap_ok (h : list T) : up_ok compare h 0 → heap_ok compare h.
Proof. intros [H _] i Hi. apply H; lia. Qed.

Lemma up_ok_done (h : list T) k x y :
  up_ok compare h k → h !! k = Some x → h !! parentIndex k = Some y →
  ¬ precedes x y → heap_ok compare h.
Proof.
  intros [H _] Hx Hy Hn i Hi. destruct (decide (i = k)) as [->|]; [|by apply H].
  intros x' p' Hx' Hp'. by simplify_eq.
Qed.

Lemma up_ok_swap (h : list T) k x y :
  up_ok compare h k → 0 < k → h !! k = Some x → h !! parentIndex k = Some y →
  precedes x y → up_ok compare (swap h k (parentIndex k)) (parentIndex k).
Proof.
  intros [H G] Hk Hx Hy Hxy. apply precedes_cle in Hxy.
  pose proof (parent_child k Hk) as Pk.
  unfold ordered_at in H. unfold grand_ok in G.
  split.
  - intros i Hi Hne a b. rewrite !(swap_lookup h _ _ x y) by done.
    pose proof (parent_child i Hi) as Pi.
    repeat case_decide; intros ??; simplify_eq; heap_close H G.
  - intros i a g Hp Hi Ei. rewrite !(swap_lookup h _ _ x y) by done.
    pose proof (parent_child i Hi) as Pi.
    pose proof (parent_child _ Hp) as Pp.
    repeat case_decide; intros ??; simplify_eq; heap_close H G.
Qed.

Lemma bubbleUp_loop_ok fuel (h : list T) k :
  k ≤ fuel → k < length h → up_ok compare h k →
  heap_ok compare (bubbleUp_loop compare fuel h k).
Proof.
  revert h k. induction fuel as [|fuel IH]; intros h k Hf Hl Hu; simpl.
  { replace k with 0 in Hu by lia. by apply up_ok_heap_ok. }
  case_decide as Hk; [|replace k with 0 in Hu by lia; by apply up_ok_heap_ok].
  pose proof (parent_child k Hk) as Pk.
  destruct (lookup_lt_is_Some_2 h k Hl) as [x Hx].
  destruct (lookup_lt_is_Some_2 h (parentIndex k)) as [y Hy]; [lia|].
  rewrite Hx, Hy. case_decide as Hxy.
  - apply IH; [lia | rewrite swap_length; lia | by eapply up_ok_swap].
  - by eapply up_ok_done.
Qed.

Lemma push_ok (h : list T) x : heap_ok compare h → heap_ok compare (push compare h x).
Proof.
  intros Hh. unfold push, bubbleUp. apply bubbleUp_loop_ok.
  - done.
  - rewrite length_app. simpl. lia.
  - split.
    + intros i Hi Hne a b Ha Hb.
      pose proof (parent_child i Hi) as Pi.
      pose proof (lookup_lt_Some _ _ _ Ha) as La.
      rewrite length_app in La. simpl in La.
      rewrite lookup_app_l in Ha, Hb by lia. by eapply (Hh i).
    + intros i a g Hk Hi Ei Ha.
      pose proof (parent_child i Hi) as Pi.
      pose proof (lookup_lt_Some _ _ _ Ha) as La.
      rewrite length_app in La. simpl in La. lia.
Qed.

Lemma cle_refl a : cle a a.
Proof. by destruct (cle_total a a). Qed.

Lemma swapIndex_None (h : list T) k :
  swapIndex compare h k = None → length h ≤ 2 * k + 1.
Proof.
  unfold swapIndex, leftIndex. destruct (h !! (2 * k + 1)) eqn:E.
  - destruct (h !! (2 * k + 1 + 1)); [case_decide|]; done.
  - intros _. by apply lookup_ge_None.
Qed.

Lemma swapIndex_Some (h : list T) k s :
  swapIndex compare h k = Some s →
  ∃ x, h !! s = Some x ∧ 0 < s ∧ parentIndex s = k ∧
       ∀ c z, 0 < c → parentIndex c = k → h !! c = Some z → cle x z.
Proof.
  unfold swapIndex, leftIndex.
  destruct (h !! (2 * k + 1)) as [xl|] eqn:El; [|done].
  assert (∀ c, 0 < c → parentIndex c = k → c = 2 * k + 1 ∨ c = 2 * k + 1 + 1)
    as Hc by (intros c Hc <-; pose proof (parent_child c Hc); lia).
  destruct (h !! (2 * k + 1 + 1)) as [xr|] eqn:Er.
  - case_decide as Hp; intros [= <-].
    + exists xl. split_and!; [done | lia | |].
      { etrans; [|apply (parent_of_left k)]. f_equal; lia. }
      intros c z H0 Hk Hz. destruct (Hc c H0 Hk); simplify_eq.
      * apply cle_refl.
      * by apply precedes_cle.
    + exists xr. split_and!; [done | lia | |].
      { etrans; [|apply (parent_of_right k)]. f_equal; lia. }
      intros c z H0 Hk Hz. destruct (Hc c H0 Hk); simplify_eq.
      * exact Hp.
      * apply cle_refl.
  - intros [= <-]. exists xl. split_and!; [done | lia | |].
    { etrans; [|apply (parent_of_left k)]. f_equal; lia. }
    intros c z H0 Hk Hz. destruct (Hc c H0 Hk); simplify_eq. apply cle_refl.
Qed.

Lemma down_ok_leaf (h : list T) k :
  length h ≤ 2 * k + 1 → down_ok compare h k → heap_ok compare h.
Proof.
  intros Hl [H _] i Hi. destruct (decide (parentIndex i = k)) as [E|]; [|by apply H].
  intros x p Hx _. apply lookup_lt_Some in Hx.
  pose proof (parent_child i Hi). lia.
Qed.

Lemma down_ok_done (h : list T) k s x y :
  down_ok compare h k → swapIndex compare h k = Some s →
  h !! s = Some x → h !! k = Some y → ¬ precedes x y → heap_ok compare h.
Proof.
  intros [H _] Hs Hx Hy Hn i Hi.
  destruct (decide (parentIndex i = k)) as [E|]; [|by apply H].
  apply swapIndex_Some in Hs as (x' & Hx' & _ & _ & Hmin).
  intros z p Hz Hp. rewrite E in Hp. simplify_eq.
  eapply cle_trans; [exact Hn|]. by eapply Hmin.
Qed.

Lemma down_ok_swap (h : list T) k s x y :
  down_ok compare h k → swapIndex compare h k = Some s →
  h !! s = Some x → h !! k = Some y → precedes x y →
  down_ok compare (swap h k s) s.
Proof.
  intros [H G] Hs Hx Hy Hxy. apply precedes_cle in Hxy.
  apply swapIndex_Some in Hs as (x' & Hx' & Hs0 & Hsk & Hmin).
  assert (x' = x) as -> by congruence. clear Hx'.
  pose proof (parent_child s Hs0) as Ps.
  unfold ordered_at in H. unfold grand_ok in G.
  split.
  - intros i Hi Hne a b. rewrite !(swap_lookup h _ _ y x) by done.
    pose proof (parent_child i Hi) as Pi.
    repeat case_decide; intros ??; simplify_eq;
      first [heap_close H G | by eapply Hmin].
  - intros i a g _ Hi Ei. rewrite !(swap_lookup h _ _ y x) by done.
    pose proof (parent_child i Hi) as Pi.
    repeat case_decide; intros ??; simplify_eq; heap_close H G.
Qed.

Lemma bubbleDown_loop_ok fuel (h : list T) k :
  length h ≤ fuel + k → down_ok compare h k →
  heap_ok compare (bubbleDown_loop compare fuel h k).
Proof.
  revert h k. induction fuel as [|fuel IH]; intros h k Hf Hd; simpl.
  { eapply down_ok_leaf; [|done]. lia. }
  destruct (swapIndex compare h k) as [s|] eqn:Hs.
  - destruct (swapIndex_Some _ _ _ Hs) as (x & Hx & Hs0 & Hsk & _).
    pose proof (parent_child s Hs0) as Ps. rewrite Hx.
    destruct (lookup_lt_is_Some_2 h k) as [y Hy].
    { apply lookup_lt_Some in Hx. lia. }
    rewrite Hy. case_decide as Hxy.
    + apply IH; [rewrite swap_length; lia | by eapply down_ok_swap].
    + by eapply down_ok_done.
  - eapply down_ok_leaf; [|done]. by apply swapIndex_None.
Qed.

Lemma pop_ok (h : list T) : heap_ok compare h → heap_ok compare (pop compare h).2.
Proof.
  induction h as [|bottom l _] using rev_ind; [done|].
  intros Hh. rewrite pop_snoc. destruct l as [|top r]; [apply heap_ok_nil|].
  cbn [snd]. unfold bubbleDown. apply bubbleDown_loop_ok; [lia|].
  split; [|intros i x g Hk; lia].
  intros i Hi Hp x p Hx Hpar. pose proof (parent_child i Hi) as Pi.
  pose proof (lookup_lt_Some _ _ _ Hx) as Lx. simpl in Lx.
  apply (Hh i Hi x p).
  - destruct i as [|i]; [lia|]. simpl in *. by apply lookup_app_l_Some.
  - destruct (parentIndex i) as [|j] eqn:Ej; [done|].
    simpl in *. by apply lookup_app_l_Some.
Qed.

Lemma run_snoc ops o :
  run compare (ops ++ [o]) = apply_op compare (run compare ops) o.
Proof. unfold run. by rewrite foldl_app. Qed.

Lemma run_ok ops : heap_ok compare (run compare ops).
Proof.
  induction ops as [|o ops IH] using rev_ind; [apply heap_ok_nil|].
  rewrite run_snoc. destruct o; simpl; [by apply push_ok | by apply pop_ok].
Qed.

Lemma heap_root_min (h : list T) top :
  heap_ok compare h → h !! 0 = Some top → ∀ y, y ∈ h → cle top y.
Proof.
  intros Hh Ht y [i Hy]%list_elem_of_lookup. revert y Hy.
  induction i as [i IH] using lt_wf_ind. intros y Hy.
  destruct (decide (i = 0)) as [->|Hi]; [simplify_eq; apply cle_refl|].
  pose proof (parent_child i ltac:(lia)) as Pi.
  destruct (lookup_lt_is_Some_2 h (parentIndex i)) as [p Hp].
  { apply lookup_lt_Some in Hy. lia. }
  eapply cle_trans; [apply (IH (parentIndex i)); [lia | exact Hp]|].
  apply (Hh i); [lia | done | done].
Qed.

Lemma run_stores ops : ∃ l, stores compare ops l ∧ run compare ops ≡ₚ l.
Proof.
  induction ops as [|o ops (l & Hst & Hperm)] using rev_ind.
  { exists []. split; [constructor | done]. }
  rewrite run_snoc. destruct o as [x|]; simpl.
  - exists (x :: l). split; [by constructor|].
    by rewrite push_perm, Hperm.
  - destruct (pop compare (run compare ops)) as [[top|] h'] eqn:Hpop; simpl.
    + exists h'. split; [|done].
      pose proof (pop_perm _ _ _ Hpop) as Hp.
      apply (stores_pop compare ops l top h' Hst); [by rewrite <- Hperm|].
      intros y Hy. rewrite <- Hperm in Hy.
      apply (heap_root_min (run compare ops)); [apply run_ok | | done].
      destruct (run compare ops) as [|a r] eqn:E.
      { by apply Permutation_nil_cons in Hp. }
      pose proof (pop_cons a r) as E'. rewrite Hpop in E'. simpl in E'.
      by rewrite E'.
    + apply pop_None in Hpop as [E ->]. rewrite E in Hperm.
      apply Permutation_nil in Hperm. subst l.
      exists []. split; [by constructor | done].
Qed.

(** C8.  Whatever pushes and pops came before, the array holds exactly
    what the history leaves stored ([stores]: every push adds its element,
    also one that is stored already, every pop takes one occurrence of a
    minimal element).  A pop of a non-empty heap returns an element that no
    stored element precedes under the comparator, and the array afterwards
    holds the stored elements less one occurrence of the returned one; a
    push adds exactly the pushed element, whatever is stored.  The
    comparator is a total preorder: [cle] is transitive and total. *)
Theorem pop_returns_minimum ops :
  run compare ops ≠ [] →
  ∃ top h',
    pop compare (run compare ops) = (Some top, h') ∧
    (∀ y, y ∈ run compare ops → cle top y) ∧
    run compare ops ≡ₚ top :: h' ∧
    run compare (ops ++ [Pop]) = h' ∧
    (∃ l, stores compare ops l ∧ run compare ops ≡ₚ l) ∧
    (∀ x, run compare (ops ++ [Push x]) ≡ₚ x :: run compare ops) ∧
    (∀ h x, push compare h x ≡ₚ x :: h).
Proof.
  intros Hne. destruct (pop_is_Some _ Hne) as (top & h' & Hpop & Htop).
  exists top, h'. split_and!; [done | | by apply pop_perm | | | |].
  - apply heap_root_min; [apply run_ok | done].
  - rewrite run_snoc. simpl. by rewrite Hpop.
  - apply run_stores.
  - intros x. rewrite run_snoc. apply push_perm.
  - intros h x. apply push_perm.
Qed.

End order.

End facts.
End MinHeapFacts.

(** The comparator of the example histories: the difference of two
    naturals. *)
Lemma nat_difference_trans (a b c : nat) :
  MinHeap.cle (λ x y : nat, inject_Z (Z.of_nat x - Z.of_nat y)) a b →
  MinHeap.cle (λ x y : nat, inject_Z (Z.of_nat x - Z.of_nat y)) b c →
  MinHeap.cle (λ x y : nat, inject_Z (Z.of_nat x - Z.of_nat y)) a c.
Proof.
  unfold MinHeap.cle, MinHeap.precedes. change 0%Q with (inject_Z 0).
  rewrite <- !Zlt_Qlt. lia.
Qed.

Lemma nat_difference_total (a b : nat) :
  MinHeap.cle (λ x y : nat, inject_Z (Z.of_nat x - Z.of_nat y)) a b ∨
  MinHeap.cle (λ x y : nat, inject_Z (Z.of_nat x - Z.of_nat y)) b a.
Proof.
  unfold MinHeap.cle, MinHeap.precedes. change 0%Q with (inject_Z 0).
  rewrite <- !Zlt_Qlt. lia.
Qed.

Lemma pop_returns_minimum_witness :
  ∃ top h',
    MinHeap.pop (λ x y : nat, inject_Z (Z.of_nat x - Z.of_nat y))
      (MinHeap.run (λ x y : nat, inject_Z (Z.of_nat x - Z.of_nat y))
         [MinHeap.Push 3; MinHeap.Push 1; MinHeap.Push 3; MinHeap.Push 2;
          MinHeap.Pop; MinHeap.Push 1]) = (Some top, h') ∧
    (∀ y, y ∈ MinHeap.run (λ x y : nat, inject_Z (Z.of_nat x - Z.of_nat y))
         [MinHeap.Push 3; MinHeap.Push 1; MinHeap.Push 3; MinHeap.Push 2;
          MinHeap.Pop; MinHeap.Push 1] →
          MinHeap.cle (λ x y : nat, inject_Z (Z.of_nat x - Z.of_nat y)) top y) ∧
    MinHeap.run (λ x y : nat, inject_Z (Z.of_nat x - Z.of_nat y))
         [MinHeap.Push 3; MinHeap.Push 1; MinHeap.Push 3; MinHeap.Push 2;
          MinHeap.Pop; MinHeap.Push 1] ≡ₚ top :: h' ∧
    MinHeap.run (λ x y : nat, inject_Z (Z.of_nat x - Z.of_nat y))
         ([MinHeap.Push 3; MinHeap.Push 1; MinHeap.Push 3; MinHeap.Push 2;
          MinHeap.Pop; MinHeap.Push 1] ++ [MinHeap.Pop]) = h' ∧
    (∃ l, MinHeap.stores (λ x y : nat, inject_Z (Z.of_nat x - Z.of_nat y))
            [MinHeap.Push 3; MinHeap.Push 1; MinHeap.Push 3; MinHeap.Push 2;
          MinHeap.Pop; MinHeap.Push 1] l ∧
          MinHeap.run (λ x y : nat, inject_Z (Z.of_nat x - Z.of_nat y))
            [MinHeap.Push 3; MinHeap.Push 1; MinHeap.Push 3; MinHeap.Push 2;
          MinHeap.Pop; MinHeap.Push 1] ≡ₚ l) ∧
    (∀ x, MinHeap.run (λ x y : nat, inject_Z (Z.of_nat x - Z.of_nat y))
            ([MinHeap.Push 3; MinHeap.Push 1; MinHeap.Push 3; MinHeap.Push 2;
          MinHeap.Pop; MinHeap.Push 1] ++ [MinHeap.Push x])
          ≡ₚ x :: MinHeap.run (λ x y : nat, inject_Z (Z.of_nat x - Z.of_nat y))
                    [MinHeap.Push 3; MinHeap.Push 1; MinHeap.Push 3; MinHeap.Push 2;
          MinHeap.Pop; MinHeap.Push 1]) ∧
    (∀ h x, MinHeap.push (λ x y : nat, inject_Z (Z.of_nat x - Z.of_nat y)) h x
            ≡ₚ x :: h).
Proof.
  apply (MinHeapFacts.pop_returns_minimum _ nat_difference_trans
           nat_difference_total).
  vm_compute. discriminate.
Defined.

(** ** Arrays filled by a loop over the cell indices *)

Lemma foldl_seq_S {A} (f : A → nat → A) (a : A) (n : nat) :
  foldl f a (seq 0 (S n)) = f (foldl f a (seq 0 n)) n.
Proof. by rewrite seq_S, foldl_app. Qed.

Lemma lookup_total_default {A} `{!Inhabited A} (l : list A) (i : nat) :
  l !!! i = default inhabitant (l !! i).
Proof. apply list_lookup_total_alt. Qed.

Lemma neighbors_lt (w : World) (i n : nat) :
  neighbors_in_range w → n ∈ adjacency w !!! i → n < cellCount w.
Proof.
  intros H. rewrite lookup_total_default.
  destruct (adjacency w !! i) as [ns|] eqn:E; simpl.
  - intros Hn. eapply Forall_lookup_1 in H; [|exact E].
    by eapply Forall_forall in H.
  - by intros ?%elem_of_nil.
Qed.

(** ** Smoothing *)

Lemma smooth_sum (current : list Q) (c s : Q) (ns : list nat) :
  constant_field c current →
  Forall (λ n, n < length current) ns →
  (foldl (λ sum n, sum + current !!! n) s ns
   == s + inject_Z (Z.of_nat (length ns)) * c)%Q.
Proof.
  intros Hc Hns. revert s.
  induction Hns as [|n ns Hn _ IH]; intros s; simpl foldl.
  { simpl. ring. }
  rewrite IH. destruct (lookup_lt_is_Some_2 _ _ Hn) as [x Hx].
  rewrite (list_lookup_total_correct _ _ _ Hx).
  eapply Forall_lookup_1 in Hc; [|exact Hx]. simpl in Hc. rewrite Hc.
  change (length (n :: ns)) with (S (length ns)).
  rewrite Nat2Z.inj_succ, <- Z.add_1_r, inject_Z_plus. ring.
Qed.

Lemma smoothCell_constant (adj : list (list nat)) (current : list Q) c i :
  constant_field c current → i < length current →
  Forall (λ n, n < length current) (adj !!! i) →
  (smoothCell adj current i == c)%Q.
Proof.
  intros Hc Hi Hns. unfold smoothCell. cbv zeta.
  rewrite (smooth_sum current c) by done.
  destruct (lookup_lt_is_Some_2 _ _ Hi) as [x Hx].
  rewrite (list_lookup_total_correct _ _ _ Hx).
  eapply Forall_lookup_1 in Hc; [|exact Hx]. simpl in Hc. rewrite Hc.
  rewrite Nat2Z.inj_add, inject_Z_plus. change (inject_Z (Z.of_nat 1)) with 1%Q.
  assert (0 <= inject_Z (Z.of_nat (length (adj !!! i))))%Q as Hpos.
  { change 0%Q with (inject_Z 0). rewrite <- Zle_Qle. lia. }
  field. lra.
Qed.

Lemma smoothPass_S n adj (current next : list Q) :
  smoothPass (S n) adj current next =
    <[n := smoothCell adj current n]> (smoothPass n adj current next).
Proof. unfold smoothPass. by rewrite foldl_seq_S. Qed.

Lemma smoothPass_length n adj (current next : list Q) :
  length (smoothPass n adj current next) = length next.
Proof.
  induction n as [|n IH]; [done|]. by rewrite smoothPass_S, length_insert.
Qed.

Lemma smoothPass_lookup n adj (current next : list Q) i :
  i < n → i < length next →
  smoothPass n adj current next !! i = Some (smoothCell adj current i).
Proof.
  induction n as [|n IH]; intros Hi Hl; [lia|].
  rewrite smoothPass_S. destruct (decide (i = n)) as [->|].
  - apply list_lookup_insert_eq. by rewrite smoothPass_length.
  - rewrite list_lookup_insert_ne by done. apply IH; lia.
Qed.

Lemma smoothPass_constant n adj (current next : list Q) c :
  length current = n → length next = n →
  Forall (Forall (λ m, m < n)) adj →
  constant_field c current →
  constant_field c (smoothPass n adj current next).
Proof.
  intros Hc Hn Hadj Hconst. apply Forall_lookup_2. intros i x Hx.
  pose proof (lookup_lt_Some _ _ _ Hx) as Hi.
  rewrite smoothPass_length in Hi.
  rewrite smoothPass_lookup in Hx by lia. injection Hx as <-.
  apply smoothCell_constant; [done | lia |].
  rewrite lookup_total_default. destruct (adj !! i) as [ns|] eqn:E; simpl.
  - rewrite Hc. by eapply Forall_lookup_1 in Hadj.
  - constructor.
Qed.

Lemma smoothLoop_constant k n adj (current next : list Q) c :
  length current = n → length next = n →
  Forall (Forall (λ m, m < n)) adj →
  constant_field c current →
  constant_field c (smoothLoop k n adj current next) ∧
  length (smoothLoop k n adj current next) = n.
Proof.
  revert current next. induction k as [|k IH]; intros current next ????; simpl.
  { done. }
  apply IH; try done.
  - by rewrite smoothPass_length.
  - by apply smoothPass_constant.
Qed.

(** C7.  A field that holds the same value [c] at every cell holds [c] at
    every cell after [smoothMap], for every number of iterations. *)
Theorem smoothMap_constant (w : World) (data : list Q) (iterations : nat) (c : Q) :
  neighbors_in_range w →
  length data = cellCount w →
  constant_field c data →
  constant_field c (smoothMap w data iterations) ∧
  length (smoothMap w data iterations) = length data.
Proof.
  intros Hadj Hlen Hc. unfold smoothMap. rewrite Hlen.
  apply smoothLoop_constant; try done. by rewrite length_replicate.
Qed.

(** ** Pass 1 of the river generation: the downhill targets *)

Ltac lex_solve :=
  unfold lower in *; simpl in *;
  repeat match goal with
         | H : _ ∧ _ |- _ => destruct H
         | H : _ ∨ _ |- _ => destruct H
         end;
  first [ lra | lia | (left; lra) | (right; split; [lra | lia]) | tauto ].

Lemma lower_irrefl elev dist a : ¬ lower elev dist a a.
Proof. intros H. lex_solve. Qed.

Lemma lower_trans elev dist a b c :
  lower elev dist a b → lower elev dist b c → lower elev dist a c.
Proof. intros H1 H2. lex_solve. Qed.

Lemma scan_best_inv elev dist i ns :
  best_inv elev dist i ns
    (foldl (scanNeighbor elev dist) (mkBest (-1) (elev !!! i) (dist !!! i)) ns).
Proof.
  induction ns as [|n ns IH] using rev_ind.
  { split; [left; simpl; split_and!; [done | lra | done]|].
    by intros n ?%elem_of_nil. }
  rewrite foldl_app. simpl foldl.
  set (b := foldl _ _ ns) in *. destruct IH as [Hb Hmin].
  unfold scanNeighbor. cbv zeta.
  destruct (decide (elev !!! n < lowestH b)%Q) as [Hlt|Hge]; simpl.
  - split.
    + right. exists n. split_and!; [apply elem_of_app; right; by left | done | simpl; lra | done |].
      destruct Hb as [(_ & Hh & _)|(t & _ & _ & Hh & _ & Hl)].
      * left. lra.
      * eapply lower_trans; [|exact Hl]. left. lra.
    + simpl. intros m [Hm| ->%list_elem_of_singleton]%elem_of_app.
      * specialize (Hmin m Hm). intros [?|[??]]; apply Hmin; left; lra.
      * intros [?|[??]]; [lra | lia].
  - destruct (decide ((elev !!! n == lowestH b)%Q ∧ (dist !!! n < bestDist b)%Z))
      as [[Heq Hd]|Hno]; simpl.
    + split.
      * right. exists n. split_and!; [apply elem_of_app; right; by left | done | simpl; lra | done |].
        destruct Hb as [(_ & Hh & Hdist)|(t & _ & _ & Hh & Hdist & Hl)].
        -- right. split; [lra | lia].
        -- eapply lower_trans; [|exact Hl]. right. split; [lra | lia].
      * simpl. intros m [Hm| ->%list_elem_of_singleton]%elem_of_app.
        -- specialize (Hmin m Hm). intros [?|[??]]; apply Hmin;
             [left; lra | right; split; [lra | lia]].
        -- intros [?|[??]]; [lra | lia].
    + split.
      * destruct Hb as [Hb|(t & Ht & Hrest)]; [by left|].
        right. exists t. split; [apply elem_of_app; by left | done].
      * intros m [Hm| ->%list_elem_of_singleton]%elem_of_app; [by apply Hmin|].
        intros [?|[??]]; [lra | apply Hno; done].
Qed.

(** The value pass 1 computes for one cell. *)
Lemma downhillCell_spec adj elev dist i :
  (downhillCell adj elev dist i = (-1)%Z ∧
   ∀ n, n ∈ adj !!! i → ¬ lower elev dist n i) ∨
  (∃ t, downhillCell adj elev dist i = Z.of_nat t ∧ t ∈ adj !!! i ∧
        lower elev dist t i ∧ ∀ n, n ∈ adj !!! i → ¬ lower elev dist n t).
Proof.
  unfold downhillCell. destruct (scan_best_inv elev dist i (adj !!! i)) as [Hb Hmin].
  set (b := foldl _ _ _) in *.
  destruct Hb as [(Hn & Hh & Hd)|(t & Ht & Hn & Hh & Hd & Hl)].
  - left. split; [done|]. intros n Hin Hlow. apply (Hmin n Hin).
    rewrite Hd. unfold lower in Hlow.
    destruct Hlow as [?|[??]]; [left; lra | right; split; [lra | lia]].
  - right. exists t. split_and!; try done.
    intros n Hin Hlow. apply (Hmin n Hin).
    rewrite Hd. unfold lower in Hlow.
    destruct Hlow as [?|[??]]; [left; lra | right; split; [lra | lia]].
Qed.

Lemma downhill_loop_length adj elev dist m (init : list Z) :
  length (foldl (assignDownhill adj elev dist) init (seq 0 m)) = length init.
Proof.
  induction m as [|m IH]; [done|]. rewrite foldl_seq_S.
  unfold assignDownhill at 1. case_decide; [done|]. by rewrite length_insert.
Qed.

Lemma downhill_loop_lookup adj elev dist m (init : list Z) i :
  i < length init →
  foldl (assignDownhill adj elev dist) init (seq 0 m) !! i =
    if decide (i < m ∧ ¬ (elev !!! i <= 1 # 20)%Q)
    then Some (downhillCell adj elev dist i) else init !! i.
Proof.
  intros Hi. induction m as [|m IH].
  { destruct (decide _) as [[? _]|]; [lia | done]. }
  rewrite foldl_seq_S. unfold assignDownhill at 1.
  destruct (decide (i = m)) as [->|Hne].
  - destruct (decide (elev !!! m <= 1 # 20)%Q) as [H1|H1].
    + rewrite IH. destruct (decide (m < m ∧ _)) as [[? _]|]; [lia|].
      destruct (decide (m < S m ∧ _)) as [[_ ?]|]; done.
    + rewrite list_lookup_insert_eq by (by rewrite downhill_loop_length).
      destruct (decide (m < S m ∧ _)) as [|H2]; [done|].
      destruct H2. split; [lia | done].
  - assert (∀ l : list Z, (if decide (elev !!! m <= 1 # 20)%Q then l
              else <[m := downhillCell adj elev dist m]> l) !! i = l !! i) as ->.
    { intros l. destruct (decide (elev !!! m <= 1 # 20)%Q); [done|].
      by rewrite list_lookup_insert_ne. }
    rewrite IH. destruct (decide (i < m ∧ _)) as [[? ?]|H2].
    + destruct (decide (i < S m ∧ _)) as [|H3]; [done|].
      destruct H3. split; [lia | done].
    + destruct (decide (i < S m ∧ _)) as [[? ?]|H3]; [|done].
      destruct H2. split; [lia | done].
Qed.

Lemma downhillPass_length n adj elev dist :
  length (downhillPass n adj elev dist) = n.
Proof. unfold downhillPass. by rewrite downhill_loop_length, length_replicate. Qed.

Lemma downhillPass_lookup n adj elev dist i :
  i < n →
  downhillPass n adj elev dist !! i =
    Some (if decide (elev !!! i <= 1 # 20)%Q then (-1)%Z
          else downhillCell adj elev dist i).
Proof.
  intros Hi. unfold downhillPass.
  rewrite downhill_loop_lookup by (by rewrite length_replicate).
  destruct (decide (elev !!! i <= 1 # 20)%Q) as [H1|H1].
  - destruct (decide (i < n ∧ _)) as [[_ ?]|]; [done|].
    by rewrite lookup_replicate_2.
  - destruct (decide (i < n ∧ _)) as [|H2]; [done|]. by destruct H2.
Qed.

(** A drainage link leads to a neighbour that lies below the cell, which is
    above the threshold. *)
Lemma flows_to_lower n adj elev dist i t :
  flows_to (downhillPass n adj elev dist) i t →
  i < n ∧ t ∈ adj !!! i ∧ lower elev dist t i ∧ (1 # 20 < elev !!! i)%Q ∧
  ∀ m, m ∈ adj !!! i → ¬ lower elev dist m t.
Proof.
  unfold flows_to. intros H. pose proof (lookup_lt_Some _ _ _ H) as Hi.
  rewrite downhillPass_length in Hi. rewrite downhillPass_lookup in H by done.
  case_decide as Hthr; [injection H; lia|].
  destruct (downhillCell_spec adj elev dist i) as [[E _]|(t' & E & Hin & Hl & Hmin)].
  - rewrite E in H. injection H. lia.
  - rewrite E in H. injection H as H. apply Nat2Z.inj in H. subst t'.
    split_and!; try done. lra.
Qed.

(** C2, as the code has it.  For a cell above the 0.05 threshold, the
    downhill target, when one is assigned, is a neighbour that lies below
    the cell: strictly lower, or level with it and strictly closer to the
    coast; no neighbour lies below the target, so among the lowest
    neighbours it is one of smallest coast distance.  A cell none of whose
    neighbours lies below it keeps [-1]. *)
Theorem downhill_target_lies_below (w : World) (i : nat) :
  well_formed w → i < cellCount w → (1 # 20 < elevations w !!! i)%Q →
  (downhill w !! i = Some (-1)%Z ∧
   ∀ n, n ∈ adjacency w !!! i →
        ¬ lower (elevations w) (distToCoast w) n i) ∨
  (∃ t, downhill w !! i = Some (Z.of_nat t) ∧ t < cellCount w ∧
        t ∈ adjacency w !!! i ∧
        lower (elevations w) (distToCoast w) t i ∧
        ∀ n, n ∈ adjacency w !!! i →
             ¬ lower (elevations w) (distToCoast w) n t).
Proof.
  intros (_ & _ & Hadj) Hi Hthr. unfold downhill.
  rewrite downhillPass_lookup by done.
  destruct (decide (elevations w !!! i <= 1 # 20)%Q) as [?|_]; [lra|].
  destruct (downhillCell_spec (adjacency w) (elevations w) (distToCoast w) i)
    as [[-> Hno]|(t & -> & Hin & Hl & Hmin)].
  - by left.
  - right. exists t. split_and!; try done. by eapply neighbors_lt.
Qed.

(** C2 fails as stated: on level ground behind the coast the target of
    cell 2 is cell 1, which is not strictly lower, and cell 2 has a target
    although none of its neighbours is strictly lower. *)
Lemma downhill_target_level_counterexample :
  (1 # 20 < elevations (fillSinks level_world) !!! 2%nat)%Q ∧
  downhill (fillSinks level_world) !! 2 = Some 1%Z ∧
  ¬ (elevations (fillSinks level_world) !!! 1%nat
     < elevations (fillSinks level_world) !!! 2%nat)%Q ∧
  (∀ n, n ∈ adjacency (fillSinks level_world) !!! 2 →
        ¬ (elevations (fillSinks level_world) !!! n
           < elevations (fillSinks level_world) !!! 2%nat)%Q) ∧
  downhill (fillSinks level_world) !! 2 ≠ Some (-1)%Z.
Proof.
  split_and!.
  - by vm_compute.
  - by vm_compute.
  - vm_compute. intros H. discriminate H.
  - intros n Hn. change (adjacency (fillSinks level_world) !!! 2) with [1] in Hn.
    apply list_elem_of_singleton in Hn as ->. vm_compute. intros H. discriminate H.
  - by vm_compute.
Qed.

(** ** The drainage links form a forest *)

Lemma filter_length_le {A} (P R : A → Prop)
    `{!∀ x, Decision (P x)} `{!∀ x, Decision (R x)} (l : list A) :
  (∀ y, P y → R y) → length (filter P l) ≤ length (filter R l).
Proof.
  intros HPR. induction l as [|a l IH]; [done|].
  rewrite !filter_cons. destruct (decide (P a)) as [Ha|Ha].
  - destruct (decide (R a)) as [|Hr]; [simpl; lia | destruct Hr; auto].
  - destruct (decide (R a)); simpl; lia.
Qed.

Lemma filter_length_lt {A} (P R : A → Prop)
    `{!∀ x, Decision (P x)} `{!∀ x, Decision (R x)} (l : list A) (x : A) :
  (∀ y, P y → R y) → x ∈ l → R x → ¬ P x →
  length (filter P l) < length (filter R l).
Proof.
  intros HPR Hx Hr Hp. induction l as [|a l IH]; [by apply elem_of_nil in Hx|].
  pose proof (filter_length_le P R l HPR) as Hle.
  rewrite !filter_cons. apply elem_of_cons in Hx as [<-|Hx].
  - destruct (decide (P x)); [done|]. destruct (decide (R x)); [simpl; lia | done].
  - specialize (IH Hx). destruct (decide (P a)) as [Ha|Ha].
    + destruct (decide (R a)) as [|Hr']; [simpl; lia | destruct Hr'; auto].
    + destruct (decide (R a)); simpl; lia.
Qed.

Lemma rank_lower elev dist n t i :
  t < n → lower elev dist t i → rank elev dist n t < rank elev dist n i.
Proof.
  intros Ht Hl. unfold rank.
  apply (filter_length_lt _ _ _ t).
  - intros y Hy. by eapply lower_trans.
  - apply elem_of_seq. lia.
  - done.
  - apply lower_irrefl.
Qed.

Lemma rank_le elev dist n i : rank elev dist n i ≤ n.
Proof.
  unfold rank. etrans; [apply length_filter|]. by rewrite length_seq.
Qed.

Lemma flows_above_lower n adj elev dist i t :
  tc (flows_above elev (downhillPass n adj elev dist)) i t → lower elev dist t i.
Proof.
  induction 1 as [i t [H _]|i j t [H _] _ IH].
  - by apply flows_to_lower in H as (_ & _ & ? & _).
  - apply flows_to_lower in H as (_ & _ & ? & _). by eapply lower_trans.
Qed.

(** A cell either has no target or a link to a cell of smaller rank. *)
Lemma downhill_link_cases n adj elev dist i :
  Forall (Forall (λ k, k < n)) adj → i < n →
  downhillPass n adj elev dist !! i = Some (-1)%Z ∨
  ∃ t, flows_to (downhillPass n adj elev dist) i t ∧ t < n ∧
       rank elev dist n t < rank elev dist n i.
Proof.
  intros Hadj Hi. rewrite downhillPass_lookup by done.
  destruct (decide (elev !!! i <= 1 # 20)%Q) as [Hlow|Hhigh]; [by left|].
  destruct (downhillCell_spec adj elev dist i) as [[-> _]|(t & E & Hin & Hl & _)];
    [by left|].
  right. exists t. assert (t < n) as Ht.
  { rewrite lookup_total_default in Hin.
    destruct (adj !! i) as [ns|] eqn:Ens; simpl in Hin;
      [|by apply elem_of_nil in Hin].
    eapply Forall_lookup_1 in Hadj; [|exact Ens].
    by eapply Forall_forall in Hadj. }
  split_and!; [|done | by apply rank_lower].
  unfold flows_to. rewrite downhillPass_lookup by done.
  destruct (decide (elev !!! i <= 1 # 20)%Q); [done | by rewrite E].
Qed.

Lemma chain_bounded n adj elev dist m i :
  Forall (Forall (λ k, k < n)) adj →
  i < n → rank elev dist n i ≤ m →
  ∃ k j, k ≤ m ∧ nsteps (flows_to (downhillPass n adj elev dist)) k i j ∧
         downhillPass n adj elev dist !! j = Some (-1)%Z.
Proof.
  intros Hadj. revert i. induction m as [|m IH]; intros i Hi Hr.
  - destruct (downhill_link_cases n adj elev dist i Hadj Hi)
      as [Hend|(t & _ & _ & Hrk)]; [|lia].
    exists 0, i. split_and!; [lia | constructor | done].
  - destruct (downhill_link_cases n adj elev dist i Hadj Hi)
      as [Hend|(t & Hf & Ht & Hrk)].
    + exists 0, i. split_and!; [lia | constructor | done].
    + destruct (IH t Ht ltac:(lia)) as (k & j & Hk & Hsteps & Hend).
      exists (S k), j. split_and!; [lia | by econstructor | done].
Qed.

(** C4.  The drainage links of pass 1 between cells above sea level have no
    cycle, and from every cell the chain of targets reaches a cell without
    a target after at most [cellCount] links. *)
Theorem downhill_forest (w : World) :
  well_formed w →
  (∀ i, ¬ tc (flows_above (elevations w) (downhill w)) i i) ∧
  (∀ i, i < cellCount w →
        ∃ k j, k ≤ cellCount w ∧
               nsteps (flows_to (downhill w)) k i j ∧
               downhill w !! j = Some (-1)%Z).
Proof.
  intros (_ & _ & Hadj). split.
  - intros i Hc. apply flows_above_lower in Hc. by apply lower_irrefl in Hc.
  - intros i Hi. apply chain_bounded; [done | done | apply rank_le].
Qed.

(** ** Pass 2 of the river generation: the processing order and the flux *)

Lemma riverCompare_antisym elev dist a b :
  (0 <= riverCompare elev dist b a → riverCompare elev dist a b <= 0)%Q.
Proof.
  unfold riverCompare.
  destruct (decide (elev !!! a == elev !!! b)%Q) as [E1|E1],
           (decide (elev !!! b == elev !!! a)%Q) as [E2|E2];
    try lra.
  change 0%Q with (inject_Z 0). rewrite <- !Zle_Qle. lia.
Qed.

Lemma riverCompare_trans elev dist a b c :
  (riverCompare elev dist a b <= 0 → riverCompare elev dist b c <= 0 →
   riverCompare elev dist a c <= 0)%Q.
Proof.
  unfold riverCompare.
  destruct (decide (elev !!! b == elev !!! a)%Q) as [E1|E1],
           (decide (elev !!! c == elev !!! b)%Q) as [E2|E2],
           (decide (elev !!! c == elev !!! a)%Q) as [E3|E3];
    change 0%Q with (inject_Z 0); rewrite <- ?Zle_Qle;
    change (inject_Z 0) with 0%Q; intros H1 H2; try lra; try lia.
Qed.

(** A cell that lies below another one sorts strictly after it. *)
Lemma riverCompare_lower elev dist a b :
  lower elev dist a b → (0 < riverCompare elev dist a b)%Q.
Proof.
  unfold lower, riverCompare. intros [H|[H1 H2]].
  - destruct (decide (elev !!! b == elev !!! a)%Q); [lra|lra].
  - destruct (decide (elev !!! b == elev !!! a)%Q); [|lra].
    change 0%Q with (inject_Z 0). rewrite <- Zlt_Qlt. lia.
Qed.

Section sorting.
Variable cmp : nat → nat → Q.
Hypothesis cmp_antisym : ∀ a b, (0 <= cmp b a → cmp a b <= 0)%Q.
Hypothesis cmp_trans : ∀ a b c, (cmp a b <= 0 → cmp b c <= 0 → cmp a c <= 0)%Q.

Lemma sortInsert_perm x l : sortInsert cmp x l ≡ₚ x :: l.
Proof.
  induction l as [|y l IH]; [done|]. simpl.
  destruct (decide (cmp y x < 0)%Q); [|done]. rewrite IH. apply perm_swap.
Qed.

Lemma sortInsert_sorted x l :
  sorted_by cmp l → sorted_by cmp (sortInsert cmp x l).
Proof.
  unfold sorted_by. induction 1 as [|y l Hs IH Hy]; simpl.
  { repeat constructor. }
  destruct (decide (cmp y x < 0)%Q) as [Hlt|Hge].
  - constructor; [done|]. rewrite sortInsert_perm. constructor; [lra | done].
  - assert (cmp x y <= 0)%Q as Hxy by (apply cmp_antisym; lra).
    constructor; [by constructor|]. constructor; [done|].
    eapply Forall_impl; [exact Hy|]. intros z Hz. simpl in Hz.
    by eapply cmp_trans.
Qed.

Lemma sortBy_perm l : sortBy cmp l ≡ₚ l.
Proof.
  induction l as [|x l IH]; [done|]. simpl.
  change (foldr (sortInsert cmp) [] l) with (sortBy cmp l).
  by rewrite sortInsert_perm, IH.
Qed.

Lemma sortBy_sorted l : sorted_by cmp (sortBy cmp l).
Proof.
  induction l as [|x l IH]; [constructor|]. simpl. by apply sortInsert_sorted.
Qed.

End sorting.

(** The model of the engine's sort returns a sorted permutation of the
    cell indices. *)
Lemma sortedIndices_sorted_perm (w : World) :
  sortedIndices w ≡ₚ seq 0 (cellCount w) ∧
  sorted_by (riverCompare (elevations w) (distToCoast w)) (sortedIndices w).
Proof.
  split; [apply sortBy_perm|].
  apply sortBy_sorted;
    [apply riverCompare_antisym | apply riverCompare_trans].
Qed.

(** In a sorted order the source of a drainage link comes before its
    target. *)
Lemma sorted_source_first elev dist order i t :
  sorted_by (riverCompare elev dist) order →
  i ∈ order → t ∈ order → lower elev dist t i →
  ∃ l1 l2 l3, order = l1 ++ i :: l2 ++ t :: l3.
Proof.
  intros Hs Hi Ht Hl.
  apply list_elem_of_split in Hi as (l1 & l2 & ->).
  apply elem_of_app in Ht as [Ht|Ht].
  - exfalso. apply riverCompare_lower in Hl.
    pose proof (StronglySorted_app_1_elem_of _ _ _ t i Hs Ht ltac:(left)) as H.
    simpl in H. lra.
  - apply elem_of_cons in Ht as [->|Ht]; [by apply lower_irrefl in Hl|].
    apply list_elem_of_split in Ht as (l2a & l2b & ->). by exists l1, l2a, l2b.
Qed.

Lemma accumulate_length elev dh (fl : list Z) i :
  length (accumulate elev dh fl i) = length fl.
Proof.
  unfold accumulate. cbv zeta. destruct (decide _); [|done].
  by rewrite length_insert.
Qed.

Lemma accumulate_lookup elev dh (fl : list Z) i c :
  c < length fl →
  accumulate elev dh fl i !!! c =
    (fl !!! c + if decide (pours_into elev dh i c) then fl !!! i else 0)%Z.
Proof.
  intros Hc. unfold accumulate, pours_into. cbv zeta.
  destruct (decide ((0 <= dh !!! i)%Z ∧ (0 < elev !!! i)%Q)) as [[Ht He]|Hno].
  - destruct (decide (Z.to_nat (dh !!! i) = c)) as [<-|Hne].
    + rewrite list_lookup_total_insert_eq by done.
      destruct (decide _) as [|Hn]; [done|]. destruct Hn. split; [lia | done].
    + rewrite list_lookup_total_insert_ne by done.
      destruct (decide _) as [[E _]|]; [lia | lia].
  - destruct (decide _) as [[E He]|]; [|lia].
    destruct Hno. split; [lia | done].
Qed.

Lemma flux_loop_length elev dh (fl : list Z) l :
  length (foldl (accumulate elev dh) fl l) = length fl.
Proof.
  revert fl. induction l as [|i l IH]; intros fl; [done|].
  simpl. by rewrite IH, accumulate_length.
Qed.

(** A cell that nothing of [l] pours into keeps its flow over [l]. *)
Lemma flux_loop_untouched elev dh (fl : list Z) l c :
  c < length fl →
  (∀ j, j ∈ l → ¬ pours_into elev dh j c) →
  foldl (accumulate elev dh) fl l !!! c = fl !!! c.
Proof.
  revert fl. induction l as [|i l IH]; intros fl Hc Hno; [done|].
  simpl. rewrite IH.
  - rewrite accumulate_lookup by done.
    destruct (decide _) as [Hp|]; [|lia]. destruct (Hno i); [by left | done].
  - by rewrite accumulate_length.
  - intros j Hj. apply Hno. by right.
Qed.

(** Over a list along which the flow is only poured forward, every cell
    ends with what it held plus the final flow of the cells that pour into
    it. *)
Lemma flux_loop_inflow elev dh (fl : list Z) l c :
  c < length fl → Forall (λ i, i < length fl) l →
  pours_forward elev dh l →
  foldl (accumulate elev dh) fl l !!! c =
    (fl !!! c + inflow elev dh (foldl (accumulate elev dh) fl l) l c)%Z.
Proof.
  revert fl. induction l as [|i l IH]; intros fl Hc Hl Hfw.
  { unfold inflow. simpl. lia. }
  apply Forall_cons in Hl as [Hi Hl]. destruct Hfw as [Hnone Hfw].
  simpl foldl. rewrite IH; [| by rewrite accumulate_length
                             | by rewrite accumulate_length | done].
  rewrite accumulate_lookup by done.
  unfold inflow. simpl map. unfold sumZ at 2. simpl foldr.
  fold (sumZ (map (λ i0, if decide (pours_into elev dh i0 c)
                         then foldl (accumulate elev dh)
                                (accumulate elev dh fl i) l !!! i0
                         else 0%Z) l)).
  assert (foldl (accumulate elev dh) (accumulate elev dh fl i) l !!! i
          = fl !!! i) as ->.
  { rewrite flux_loop_untouched.
    - rewrite accumulate_lookup by done.
      destruct (decide _) as [Hp|]; [|lia]. destruct (Hnone i); [by left | done].
    - by rewrite accumulate_length.
    - intros j Hj. apply Hnone. by right. }
  lia.
Qed.

Lemma sumZ_perm (f : nat → Z) (l k : list nat) :
  l ≡ₚ k → sumZ (map f l) = sumZ (map f k).
Proof.
  induction 1 as [|x l k _ IH|x y l|l k m _ IH1 _ IH2]; simpl; lia.
Qed.

(** Within the cells, what pours into a cell lies above it. *)
Lemma pours_into_lower n adj elev dist j i :
  j < n → pours_into elev (downhillPass n adj elev dist) j i →
  lower elev dist i j.
Proof.
  intros Hj [Hd _].
  destruct (lookup_lt_is_Some_2 (downhillPass n adj elev dist) j) as [d Hd'].
  { by rewrite downhillPass_length. }
  rewrite (list_lookup_total_correct _ _ _ Hd') in Hd. subst d.
  by apply flows_to_lower in Hd' as (_ & _ & ? & _).
Qed.

Lemma sorted_pours_forward n adj elev dist order :
  Forall (λ i, i < n) order →
  sorted_by (riverCompare elev dist) order →
  pours_forward elev (downhillPass n adj elev dist) order.
Proof.
  intros Hn Hs. induction Hs as [|i l Hs IH Hi]; [done|].
  apply Forall_cons in Hn as [Hin Hn]. split; [|by apply IH].
  intros j [->|Hj]%elem_of_cons Hp.
  - apply pours_into_lower in Hp; [|done]. by apply lower_irrefl in Hp.
  - eapply Forall_forall in Hi; [|exact Hj]. simpl in Hi.
    eapply Forall_forall in Hn; [|exact Hj].
    apply pours_into_lower in Hp; [|done].
    apply riverCompare_lower in Hp. lra.
Qed.

(** The two halves of C3, for every sorted permutation of the indices. *)
Lemma drainage_order n adj elev dist order i t :
  order ≡ₚ seq 0 n → sorted_by (riverCompare elev dist) order →
  Forall (Forall (λ k, k < n)) adj →
  flows_to (downhillPass n adj elev dist) i t →
  ∃ l1 l2 l3, order = l1 ++ i :: l2 ++ t :: l3.
Proof.
  intros Hp Hs Hadj Hf.
  destruct (flows_to_lower _ _ _ _ _ _ Hf) as (Hi & Hin & Hl & _).
  assert (t < n) as Ht.
  { rewrite lookup_total_default in Hin.
    destruct (adj !! i) as [ns|] eqn:Ens; simpl in Hin;
      [|by apply elem_of_nil in Hin].
    eapply Forall_lookup_1 in Hadj; [|exact Ens].
    by eapply Forall_forall in Hadj. }
  eapply sorted_source_first; [done | | | done].
  - rewrite Hp. apply elem_of_seq. lia.
  - rewrite Hp. apply elem_of_seq. lia.
Qed.

Lemma flux_recurrence n adj elev dist order c :
  order ≡ₚ seq 0 n → sorted_by (riverCompare elev dist) order →
  c < n →
  fluxPass n elev (downhillPass n adj elev dist) order !!! c =
    (1 + inflow elev (downhillPass n adj elev dist)
           (fluxPass n elev (downhillPass n adj elev dist) order)
           (seq 0 n) c)%Z.
Proof.
  intros Hp Hs Hc. unfold fluxPass.
  assert (Forall (λ i, i < n) order) as Hn.
  { apply Forall_forall. intros i Hi. rewrite Hp in Hi.
    apply elem_of_seq in Hi. lia. }
  rewrite flux_loop_inflow.
  - rewrite (list_lookup_total_correct _ _ 1%Z)
      by (by apply lookup_replicate_2).
    f_equal. unfold inflow. by apply sumZ_perm.
  - by rewrite length_replicate.
  - by rewrite length_replicate.
  - by apply sorted_pours_forward.
Qed.

(** The order of [sortedIndices] and the flow volumes of [flux], the
    arrays of [generateRivers] itself. *)
Lemma flux_of_world (w : World) :
  well_formed w →
  (∀ i t, flows_to (downhill w) i t → (0 < elevations w !!! i)%Q →
          ∃ l1 l2 l3, sortedIndices w = l1 ++ i :: l2 ++ t :: l3) ∧
  (∀ c, c < cellCount w →
        flux w !!! c =
          (1 + inflow (elevations w) (downhill w) (flux w)
                 (seq 0 (cellCount w)) c)%Z).
Proof.
  intros (_ & _ & Hadj). destruct (sortedIndices_sorted_perm w) as [Hp Hs].
  split.
  - intros i t Hf _. by eapply drainage_order.
  - intros c Hc. by apply flux_recurrence.
Qed.

(** ** Pass 3 of the river generation: the segments *)

Lemma emit_loop (w : World) (dh fl : list Z) (cells : list nat) (segs : list Q) :
  foldl (emitSegment (points w) (elevations w) dh fl) segs cells =
    segs ++ concat
      (map (segment (points w) dh fl)
           (filter (λ i, (RIVER_THRESHOLD < fl !!! i)%Z ∧
                         (0 < elevations w !!! i)%Q ∧ (0 <= dh !!! i)%Z)
                   cells)).
Proof.
  revert segs. induction cells as [|i cells IH]; intros segs.
  { simpl. by rewrite app_nil_r. }
  simpl foldl. rewrite IH, filter_cons. unfold emitSegment.
  destruct (decide ((RIVER_THRESHOLD < fl !!! i)%Z ∧ (0 < elevations w !!! i)%Q))
    as [[H1 H2]|Hno].
  - destruct (decide (0 <= dh !!! i)%Z) as [H3|H3].
    + destruct (decide (_ ∧ _ ∧ _)) as [_|Hn]; [|by destruct Hn].
      simpl. by rewrite <- (assoc_L (++)).
    + destruct (decide (_ ∧ _ ∧ _)) as [(_ & _ & ?)|_]; done.
  - destruct (decide (_ ∧ _ ∧ _)) as [(? & ? & _)|_]; [|done].
    by destruct Hno.
Qed.

Lemma generateRivers_records (w : World) :
  generateRivers w =
    concat (map (λ i, map fround (segment (points w) (downhill w) (flux w) i))
                (river_cells w (downhill w) (flux w))).
Proof.
  unfold generateRivers, riverSegments. rewrite emit_loop. cbn [app].
  unfold river_cells. generalize (filter
    (λ i, (RIVER_THRESHOLD < flux w !!! i)%Z ∧ (0 < elevations w !!! i)%Q ∧
          (0 <= downhill w !!! i)%Z) (seq 0 (cellCount w))).
  intros cells. induction cells as [|i cells IH]; [done|].
  cbn [map concat]. by rewrite map_app, IH.
Qed.

(** ** Sink filling *)

Lemma lookup_insert_true (vis : list bool) v i :
  v < length vis →
  <[v := true]> vis !! i = Some true ↔ i = v ∨ vis !! i = Some true.
Proof.
  intros Hv. destruct (decide (i = v)) as [->|Hne].
  - rewrite list_lookup_insert_eq by done. split; [by left | done].
  - rewrite list_lookup_insert_ne by done. split; [by right | by intros [?|?]].
Qed.

(** The seeding loop marks and queues the cells at or below sea level and
    leaves the elevations alone. *)
Lemma seed_loop (elev0 : list Q) (m : nat) :
  m ≤ length elev0 →
  let st := foldl seedCell (mkFill elev0 (replicate (length elev0) false) [])
                  (seq 0 m) in
  fs_elev st = elev0 ∧ length (fs_visited st) = length elev0 ∧
  NoDup (fs_heap st) ∧
  (∀ i, fs_visited st !! i = Some true ↔ i < m ∧ (elev0 !!! i <= 0)%Q) ∧
  (∀ i, i ∈ fs_heap st ↔ i < m ∧ (elev0 !!! i <= 0)%Q).
Proof.
  induction m as [|m IH]; intros Hm; cbv zeta.
  { simpl. split_and!; [done | by rewrite length_replicate | constructor | |].
    - intros i. split; [|lia]. intros H.
      apply lookup_replicate in H as [? _]. done.
    - intros i. split; [by intros ?%elem_of_nil | lia]. }
  rewrite foldl_seq_S. destruct (IH ltac:(lia)) as (He & Hl & Hnd & Hv & Hh).
  clear IH. set (st := foldl seedCell _ (seq 0 m)) in *.
  unfold seedCell. rewrite He.
  destruct (decide (elev0 !!! m <= 0)%Q) as [Hsea|Hland]; simpl.
  - split_and!; [done | by rewrite length_insert | | |].
    + rewrite MinHeapFacts.push_perm. apply NoDup_cons. split; [|done].
      rewrite Hh. lia.
    + intros i. rewrite lookup_insert_true by lia. rewrite Hv.
      split; [intros [->|[? ?]]; split; done || lia|].
      intros [Hi ?]. destruct (decide (i = m)); [by left | right; split; done || lia].
    + intros i. rewrite MinHeapFacts.push_perm, elem_of_cons, Hh.
      split; [intros [->|[? ?]]; split; done || lia|].
      intros [Hi ?]. destruct (decide (i = m)); [by left | right; split; done || lia].
  - split_and!; [done | done | done | |].
    + intros i. rewrite Hv. split; [intros [? ?]; split; done || lia|].
      intros [Hi ?]. split; [|done].
      destruct (decide (i = m)) as [->|]; [done | lia].
    + intros i. rewrite Hh. split; [intros [? ?]; split; done || lia|].
      intros [Hi ?]. split; [|done].
      destruct (decide (i = m)) as [->|]; [done | lia].
Qed.

Lemma seed_inv (adj : list (list nat)) (elev0 : list Q) :
  fill_inv adj elev0 []
    (foldl seedCell (mkFill elev0 (replicate (length elev0) false) [])
           (seq 0 (length elev0))).
Proof.
  destruct (seed_loop elev0 (length elev0) ltac:(done)) as (He & Hl & Hnd & Hv & Hh).
  set (st := foldl seedCell _ _) in *.
  split; simpl.
  - by rewrite He.
  - done.
  - done.
  - intros i. by rewrite Hv, Hh.
  - intros i Hi. apply drained_sea; [done|]. rewrite He. by apply Hv.
  - intros i Hi. apply Hv in Hi as [? ?]. by exists i.
  - intros i. rewrite He. lra.
  - intros i _. by rewrite He.
  - intros i Hi Hsea. rewrite He. split; [done|]. by apply Hv.
Qed.

(** Marking a cell that was not visited, whatever is stored at it, keeps
    the visited cells drained. *)
Lemma drained_mono adj (elev elev' : list Q) (vis vis' : list bool) i :
  (∀ c, vis !! c = Some true →
        vis' !! c = Some true ∧ elev' !!! c = elev !!! c) →
  drained adj elev vis i → drained adj elev' vis' i.
Proof.
  intros Hsame. induction 1 as [c Hc Hs|u c Hc He Hle Hu IH].
  - destruct (Hsame c Hc) as [Hc' E]. apply drained_sea; [done|]. by rewrite E.
  - destruct (Hsame c Hc) as [Hc' E]. apply (drained_up _ _ _ u); try done.
    rewrite E. assert (elev' !!! u = elev !!! u) as ->; [|done].
    apply Hsame. by inversion Hu.
Qed.

(** One neighbour [v] of an extracted cell [u]. *)
Lemma raise_inv adj elev0 popped st u v :
  fill_inv adj elev0 popped st → u ∈ popped → edge adj u v →
  v < length elev0 →
  fill_inv adj elev0 popped (raiseNeighbor u st v) ∧
  fs_visited (raiseNeighbor u st v) !! v = Some true ∧
  (∀ i, fs_visited st !! i = Some true →
        fs_visited (raiseNeighbor u st v) !! i = Some true).
Proof.
  intros Hinv Hu Huv Hv. unfold raiseNeighbor.
  destruct (decide (fs_visited st !! v = Some true)) as [Hvis|Hnv]; [done|].
  destruct Hinv as [Hle Hlv Hnd Hvis Hdr Hre Hra Hfr Hsea]. cbv zeta.
  set (elev := fs_elev st) in *. set (vis := fs_visited st) in *.
  set (elev' := if decide (elev !!! v < elev !!! u)%Q
                then <[v := (elev !!! u + epsilon)%Q]> elev else elev).
  assert (vis !! u = Some true) as Huvis.
  { apply Hvis, elem_of_app. by left. }
  assert (u ≠ v) as Hne by congruence.
  assert (length elev' = length elev) as Hlen'.
  { unfold elev'. destruct (decide _); [by rewrite length_insert | done]. }
  assert (∀ i, i ≠ v → elev' !!! i = elev !!! i) as Hother.
  { intros i Hi. unfold elev'. destruct (decide _); [|done].
    by rewrite list_lookup_total_insert_ne. }
  assert (elev !!! u <= elev' !!! v ∧ elev !!! v <= elev' !!! v)%Q as [Hup Hkeep].
  { unfold elev'. destruct (decide _) as [Hlt|Hge].
    - rewrite list_lookup_total_insert_eq by lia. unfold epsilon. lra.
    - lra. }
  assert (∀ c, vis !! c = Some true →
               <[v := true]> vis !! c = Some true ∧ elev' !!! c = elev !!! c)
    as Hsame.
  { intros c Hc. assert (c ≠ v) by congruence.
    split; [by rewrite list_lookup_insert_ne | by apply Hother]. }
  split_and!; [split; simpl | simpl | simpl; intros i Hi; by apply Hsame].
  - lia.
  - by rewrite length_insert.
  - rewrite MinHeapFacts.push_perm, <- Permutation_middle.
    apply NoDup_cons. split; [|done]. by rewrite <- Hvis.
  - intros i. rewrite lookup_insert_true by lia.
    rewrite MinHeapFacts.push_perm, <- Permutation_middle, elem_of_cons.
    by rewrite Hvis.
  - intros i [->|Hi]%lookup_insert_true; [|by eapply drained_mono; eauto|lia].
    apply (drained_up _ _ _ u).
    + by apply list_lookup_insert_eq; lia.
    + done.
    + by rewrite (Hother u).
    + eapply drained_mono; eauto.
  - intros i [->|Hi]%lookup_insert_true; [|by apply Hre|lia].
    destruct (Hre u Huvis) as (s & Hs & Hsea' & Hpath).
    exists s. split_and!; [done | done |]. eapply rtc_r; eauto.
  - intros i. destruct (decide (i = v)) as [->|Hi].
    + specialize (Hra v). lra.
    + rewrite Hother by done. apply Hra.
  - intros i Hi. assert (i ≠ v) as Hiv.
    { intros ->. apply Hi. by apply list_lookup_insert_eq; lia. }
    rewrite list_lookup_insert_ne in Hi by done.
    rewrite Hother by done. by apply Hfr.
  - intros i Hi Hs. destruct (Hsea i Hi Hs) as [E Hiv].
    destruct (Hsame i Hiv) as [? E']. split; [congruence | done].
  - apply list_lookup_insert_eq. lia.
Qed.

(** All the neighbours of an extracted cell. *)
Lemma raise_loop_inv adj elev0 popped u ns st :
  fill_inv adj elev0 popped st → u ∈ popped →
  Forall (λ v, edge adj u v ∧ v < length elev0) ns →
  fill_inv adj elev0 popped (foldl (raiseNeighbor u) st ns) ∧
  (∀ v, v ∈ ns → fs_visited (foldl (raiseNeighbor u) st ns) !! v = Some true) ∧
  (∀ i, fs_visited st !! i = Some true →
        fs_visited (foldl (raiseNeighbor u) st ns) !! i = Some true).
Proof.
  intros Hinv Hu Hns. revert st Hinv.
  induction Hns as [|v ns [Huv Hv] _ IH]; intros st Hinv; simpl.
  { split_and!; [done | by intros v ?%elem_of_nil | done]. }
  destruct (raise_inv _ _ _ _ _ _ Hinv Hu Huv Hv) as (Hinv' & Hvv & Hmono).
  destruct (IH _ Hinv') as (Hinv'' & Hall & Hmono').
  split_and!; [done | | by auto].
  intros x [->|Hx]%elem_of_cons; [by apply Hmono' | by apply Hall].
Qed.

Lemma nodup_bounded_length (l : list nat) (n : nat) :
  NoDup l → (∀ x, x ∈ l → x < n) → length l ≤ n.
Proof.
  intros Hnd Hb. rewrite <- (length_seq n 0).
  apply submseteq_length, NoDup_submseteq; [done|].
  intros x Hx. apply elem_of_seq. specialize (Hb x Hx). lia.
Qed.

(** The invariant only depends on the extracted and queued cells as a
    collection. *)
Lemma fill_inv_perm adj elev0 popped popped' st h' :
  fill_inv adj elev0 popped st →
  popped ++ fs_heap st ≡ₚ popped' ++ h' →
  fill_inv adj elev0 popped' (mkFill (fs_elev st) (fs_visited st) h').
Proof.
  intros [Hle Hlv Hnd Hvis Hdr Hre Hra Hfr Hsea] Hp. split; simpl; try done.
  - by rewrite <- Hp.
  - intros i. by rewrite <- Hp.
Qed.

(** The flood loop keeps the invariant and ends with an empty heap. *)
Lemma floodLoop_drains_heap adj elev0 fuel popped st :
  Forall (Forall (λ k, k < length elev0)) adj →
  fill_inv adj elev0 popped st →
  closed_under adj popped (fs_visited st) →
  length elev0 ≤ length popped + fuel →
  ∃ popped',
    fill_inv adj elev0 popped' (floodLoop fuel adj st) ∧
    closed_under adj popped' (fs_visited (floodLoop fuel adj st)) ∧
    fs_heap (floodLoop fuel adj st) = [].
Proof.
  intros Hadj. revert popped st.
  induction fuel as [|fuel IH]; intros popped st Hinv Hcl Hfuel.
  { exists popped. split_and!; [done | done |]. simpl.
    pose proof (nodup_bounded_length (popped ++ fs_heap st) (length elev0)
                  (fi_nodup _ _ _ _ Hinv)) as Hlen.
    rewrite length_app in Hlen. apply length_zero_iff_nil.
    cut (length popped + length (fs_heap st) ≤ length elev0); [lia|].
    apply Hlen. intros x Hx. apply (fi_visited _ _ _ _ Hinv) in Hx.
    apply lookup_lt_Some in Hx. by rewrite (fi_len_vis _ _ _ _ Hinv) in Hx. }
  simpl.
  destruct (MinHeap.pop (elevCompare (fs_elev st)) (fs_heap st)) as [[u|] h']
    eqn:Hpop.
  - apply MinHeapFacts.pop_perm in Hpop.
    assert (fill_inv adj elev0 (popped ++ [u])
              (mkFill (fs_elev st) (fs_visited st) h')) as Hinv1.
    { eapply fill_inv_perm; [exact Hinv|].
      by rewrite Hpop, <- (assoc_L (++)). }
    assert (u ∈ popped ++ [u]) as Hu by (apply elem_of_app; right; by left).
    assert (Forall (λ v, edge adj u v ∧ v < length elev0) (adj !!! u)) as Hns.
    { apply Forall_forall. intros v Hv. split; [done|].
      rewrite lookup_total_default in Hv.
      destruct (adj !! u) as [ns|] eqn:E; simpl in Hv;
        [|by apply elem_of_nil in Hv].
      eapply Forall_lookup_1 in Hadj; [|exact E].
      by eapply Forall_forall in Hadj. }
    destruct (raise_loop_inv _ _ _ _ _ _ Hinv1 Hu Hns) as (Hinv2 & Hall & Hmono).
    apply (IH (popped ++ [u])); [done | |].
    + intros a b [Ha| ->%list_elem_of_singleton]%elem_of_app Hab.
      * apply Hmono. simpl. by eapply Hcl.
      * by apply Hall.
    + rewrite length_app. simpl. lia.
  - apply MinHeapFacts.pop_None in Hpop as [Hh _]. by exists popped.
Qed.

Lemma fillSinks_inv (w : World) :
  well_formed w →
  ∃ popped,
    fill_inv (adjacency w) (elevations w) popped (fillSinksState w) ∧
    closed_under (adjacency w) popped (fs_visited (fillSinksState w)) ∧
    fs_heap (fillSinksState w) = [].
Proof.
  intros (_ & Hlen & Hadj). unfold fillSinksState. cbv zeta. rewrite <- Hlen.
  apply (floodLoop_drains_heap _ _ _ []).
  - unfold neighbors_in_range in Hadj. by rewrite Hlen.
  - apply seed_inv.
  - by intros u v ?%elem_of_nil.
  - simpl. lia.
Qed.

Lemma reachable_visited adj elev0 popped st c :
  fill_inv adj elev0 popped st → closed_under adj popped (fs_visited st) →
  fs_heap st = [] → reachable_from_sea adj elev0 c →
  fs_visited st !! c = Some true.
Proof.
  intros Hinv Hcl Hh (s & Hs & Hsea & Hpath).
  assert (fs_visited st !! s = Some true) as Hvis
    by (by apply (fi_sea _ _ _ _ Hinv)).
  clear Hs Hsea. induction Hpath as [s|s t c Hst _ IH]; [done|].
  apply IH. apply (Hcl s t); [|done].
  apply (fi_visited _ _ _ _ Hinv) in Hvis.
  by rewrite Hh, app_nil_r in Hvis.
Qed.

Lemma drained_path adj (elev : list Q) (vis : list bool) c :
  drained adj elev vis c →
  ∃ p, drain_path (λ a b, edge adj b a) elev c p.
Proof.
  induction 1 as [c _ Hsea|u c _ Huc Hle _ [p Hp]].
  - by exists [].
  - by exists (u :: p).
Qed.

Lemma drain_path_impl (step step' : nat → nat → Prop) (elev : list Q) c p :
  (∀ a b, step a b → step' a b) →
  drain_path step elev c p → drain_path step' elev c p.
Proof.
  intros Himpl. revert c. induction p as [|d p IH]; intros c; simpl; [done|].
  intros (Hs & Hle & Hp). split_and!; [by apply Himpl | done | by apply IH].
Qed.

(** C1.  After [fillSinks], from every cell that is reachable in the
    adjacency graph from a cell at or below sea level there is a path to a
    cell at or below sea level along which the elevation never increases.
    Every step of the path goes from a cell to a cell that has it among its
    cached neighbours; when the cache is symmetric, as the dual of the
    triangulation is, the next cell is also a cached neighbour of the
    cell. *)
Theorem fillSinks_drainage (w : World) (c : nat) :
  well_formed w →
  reachable_from_sea (adjacency (fillSinks w)) (elevations (fillSinks w)) c →
  ∃ p,
    drain_path (λ a b, edge (adjacency w) b a) (elevations (fillSinks w)) c p ∧
    (symmetric_adjacency (adjacency w) →
     drain_path (edge (adjacency w)) (elevations (fillSinks w)) c p).
Proof.
  intros Hwf Hreach. destruct (fillSinks_inv w Hwf) as (popped & Hinv & Hcl & Hh).
  simpl in *.
  assert (reachable_from_sea (adjacency w) (elevations w) c) as Hreach0.
  { destruct Hreach as (s & Hs & Hsea & Hpath). exists s.
    rewrite (fi_len_elev _ _ _ _ Hinv) in Hs. split_and!; [done | | done].
    pose proof (fi_raise _ _ _ _ Hinv s). lra. }
  pose proof (reachable_visited _ _ _ _ _ Hinv Hcl Hh Hreach0) as Hvis.
  destruct (drained_path _ _ _ _ (fi_drained _ _ _ _ Hinv c Hvis)) as [p Hp].
  exists p. split; [done|]. intros Hsym.
  eapply drain_path_impl; [|exact Hp]. intros a b Hab. by apply Hsym.
Qed.

(** C10.  [fillSinks] lowers no elevation; an elevation that changes
    belongs to a cell that was above sea level and is reachable from a cell
    at or below sea level, so the cells at or below sea level and the
    unreachable cells keep theirs; only [elevations] is written. *)
Theorem fillSinks_frame (w : World) :
  well_formed w →
  (∀ i, (elevations w !!! i <= elevations (fillSinks w) !!! i)%Q) ∧
  (∀ i, elevations (fillSinks w) !!! i ≠ elevations w !!! i →
        (0 < elevations w !!! i)%Q ∧
        reachable_from_sea (adjacency w) (elevations w) i) ∧
  (∀ i, (elevations w !!! i <= 0)%Q →
        elevations (fillSinks w) !!! i = elevations w !!! i) ∧
  (∀ i, ¬ reachable_from_sea (adjacency w) (elevations w) i →
        elevations (fillSinks w) !!! i = elevations w !!! i) ∧
  length (elevations (fillSinks w)) = length (elevations w) ∧
  adjacency (fillSinks w) = adjacency w ∧
  moisture (fillSinks w) = moisture w ∧
  points (fillSinks w) = points w ∧
  rivers (fillSinks w) = rivers w ∧
  width (fillSinks w) = width w ∧ height (fillSinks w) = height w.
Proof.
  intros Hwf. destruct (fillSinks_inv w Hwf) as (popped & Hinv & Hcl & Hh).
  simpl.
  assert (∀ i, fs_visited (fillSinksState w) !! i = Some true →
               i < length (elevations w)) as Hrange.
  { intros i Hi. apply lookup_lt_Some in Hi.
    by rewrite (fi_len_vis _ _ _ _ Hinv) in Hi. }
  assert (∀ i, (elevations w !!! i <= 0)%Q →
               fs_elev (fillSinksState w) !!! i = elevations w !!! i) as Hsea.
  { intros i Hs.
    destruct (decide (fs_visited (fillSinksState w) !! i = Some true)) as [Hv|Hv].
    - by apply (fi_sea _ _ _ _ Hinv); [apply Hrange|].
    - by apply (fi_frame _ _ _ _ Hinv). }
  split_and!; try done.
  - apply (fi_raise _ _ _ _ Hinv).
  - intros i Hne.
    destruct (decide (fs_visited (fillSinksState w) !! i = Some true)) as [Hv|Hv].
    + split; [|by apply (fi_reach _ _ _ _ Hinv)].
      destruct (Qlt_le_dec 0 (elevations w !!! i)) as [|Hs]; [done|].
      destruct Hne. by apply Hsea.
    + destruct Hne. by apply (fi_frame _ _ _ _ Hinv).
  - intros i Hnr. apply (fi_frame _ _ _ _ Hinv). intros Hv.
    apply Hnr. by apply (fi_reach _ _ _ _ Hinv).
  - apply (fi_len_elev _ _ _ _ Hinv).
Qed.

(** ** Coast distance *)

Lemma seedCoast_loop (elev : list Q) (m : nat) :
  let st := foldl (seedCoast elev)
                  (mkCoast (replicate (length elev) (-1)%Z) [] 0) (seq 0 m) in
  cs_queueStart st = 0 ∧ length (cs_distance st) = length elev ∧
  cs_queue st = filter (λ i, elev !!! i <= 0)%Q (seq 0 m) ∧
  (∀ i, i < length elev →
        cs_distance st !! i =
          Some (if decide (i < m ∧ (elev !!! i <= 0)%Q) then 0%Z else (-1)%Z)).
Proof.
  induction m as [|m IH]; cbv zeta.
  { split_and!; [done | by simpl; rewrite length_replicate | done |].
    intros i Hi. cbn [seq foldl cs_distance]. rewrite lookup_replicate_2 by done.
    destruct (decide (i < 0 ∧ _)) as [[? _]|]; [lia | done]. }
  rewrite foldl_seq_S. destruct IH as (Hst & Hl & Hq & Hd).
  set (st := foldl (seedCoast elev) _ (seq 0 m)) in *.
  rewrite seq_S, filter_app, filter_cons, filter_nil. simpl.
  unfold seedCoast.
  destruct (decide (elev !!! m <= 0)%Q) as [Hsea|Hland]; simpl.
  - split_and!; [done | by rewrite length_insert | by rewrite Hq |].
    intros i Hi. destruct (decide (i = m)) as [->|Hne].
    + rewrite list_lookup_insert_eq by lia.
      destruct (decide _) as [|Hn]; [done|]. destruct Hn. split; [lia | done].
    + rewrite list_lookup_insert_ne by done. rewrite Hd by done.
      destruct (decide (i < m ∧ _)) as [[? ?]|Hn1],
               (decide (i < S m ∧ _)) as [[? ?]|Hn2]; try done.
      * destruct Hn2. split; [lia | done].
      * destruct Hn1. split; [lia | done].
  - split_and!; [done | done | by rewrite Hq, app_nil_r |].
    intros i Hi. rewrite Hd by done.
    destruct (decide (i < m ∧ _)) as [[? ?]|Hn1],
             (decide (i < S m ∧ _)) as [[? ?]|Hn2]; try done.
    * destruct Hn2. split; [lia | done].
    * destruct Hn1. split; [|done].
      destruct (decide (i = m)) as [->|]; [done | lia].
Qed.

Lemma coast_seed_inv (adj : list (list nat)) (elev : list Q) :
  let st := foldl (seedCoast elev)
                  (mkCoast (replicate (length elev) (-1)%Z) [] 0)
                  (seq 0 (length elev)) in
  coast_inv adj elev 0 st ∧ head_window st ∧ cs_queueStart st = 0.
Proof.
  cbv zeta. destruct (seedCoast_loop elev (length elev)) as (Hst & Hl & Hq & Hd).
  set (st := foldl _ _ _) in *.
  assert (∀ i, i ∈ cs_queue st ↔ i < length elev ∧ (elev !!! i <= 0)%Q) as Hin.
  { intros i. rewrite Hq, list_elem_of_filter, elem_of_seq. split.
    - intros [? ?]. split; [lia | done].
    - intros [? ?]. split; [done | lia]. }
  assert (∀ i, i ∈ cs_queue st → cs_distance st !! i = Some 0%Z) as Hzero.
  { intros i [Hi Hs]%Hin. rewrite Hd by done.
    destruct (decide _) as [|Hn]; [done|]. by destruct Hn. }
  split_and!; [split | | done].
  - done.
  - rewrite Hq. apply NoDup_filter, NoDup_seq.
  - intros i Hi. exists 0. split; [by apply Hzero|].
    apply Hin in Hi as [Hi Hs]. exists i. split_and!; [done | done | constructor].
  - intros i Hi Hni. rewrite Hd by done.
    destruct (decide _) as [[_ Hs]|]; [|done]. destruct Hni. by apply Hin.
  - intros i Hi Hs. assert (i ∈ cs_queue st) by (by apply Hin).
    split; [done | by apply Hzero].
  - intros p q a b _ Ha%list_elem_of_lookup_2 Hb%list_elem_of_lookup_2.
    by rewrite (list_lookup_total_correct _ _ _ (Hzero a Ha)),
               (list_lookup_total_correct _ _ _ (Hzero b Hb)).
  - lia.
  - intros p u v Hp. lia.
  - intros a Ha%list_elem_of_lookup_2 b Hb.
    rewrite (list_lookup_total_correct _ _ _ (Hzero a Ha)),
            (list_lookup_total_correct _ _ _ (Hzero b Hb)). lia.
Qed.

Lemma coast_extends_refl st : coast_extends st st.
Proof. split_and!; [exists []; by rewrite app_nil_r | done | done]. Qed.

Lemma coast_extends_trans st1 st2 st3 :
  coast_extends st1 st2 → coast_extends st2 st3 → coast_extends st1 st3.
Proof.
  intros ([l1 E1] & D1 & S1) ([l2 E2] & D2 & S2). split_and!.
  - exists (l1 ++ l2). by rewrite E2, E1, (assoc_L (++)).
  - intros x Hx. rewrite D2, D1; [done | done |].
    rewrite E1. apply elem_of_app. by left.
  - congruence.
Qed.

(** One neighbour [v] of the cell [cur] taken from the queue. *)
Lemma relax_step adj elev n cur cd st v :
  coast_inv adj elev n st → window cd st →
  cs_queue st !! n = Some cur → cs_distance st !!! cur = cd →
  edge adj cur v → v < length elev →
  coast_inv adj elev n (relaxNeighbor cd st v) ∧
  window cd (relaxNeighbor cd st v) ∧
  coast_extends st (relaxNeighbor cd st v) ∧
  v ∈ cs_queue (relaxNeighbor cd st v) ∧
  (cs_distance (relaxNeighbor cd st v) !!! v <= cd + 1)%Z.
Proof.
  intros Hinv Hwin Hcur Hcd Hedge Hv. unfold relaxNeighbor.
  destruct (decide (cs_distance st !! v = Some (-1)%Z)) as [Hunk|Hknown].
  2:{ assert (v ∈ cs_queue st) as Hin.
      { destruct (decide (v ∈ cs_queue st)) as [|Hni]; [done|].
        destruct Hknown. by apply (ci_unknown _ _ _ _ Hinv). }
      split_and!; [done | done | apply coast_extends_refl | done | by apply Hwin]. }
  destruct Hinv as [Hlen Hnd Hq Hu Hsea Hsort Hbound Hrel].
  set (dist := cs_distance st) in *. set (queue := cs_queue st) in *.
  assert (v ∉ queue) as Hvq.
  { intros Hin. destruct (Hq v Hin) as (k & Hk & _). rewrite Hk in Hunk.
    injection Hunk. lia. }
  assert (cur ∈ queue) as Hcq by (by eapply list_elem_of_lookup_2).
  destruct (Hq cur Hcq) as (kc & Hkc & Hhops).
  assert (cd = Z.of_nat kc) as Hcd'.
  { by rewrite <- Hcd, (list_lookup_total_correct _ _ _ Hkc). }
  assert (∀ x, x ∈ queue → <[v := (cd + 1)%Z]> dist !! x = dist !! x) as Hsame.
  { intros x Hx. apply list_lookup_insert_ne. congruence. }
  assert (∀ x, x ∈ queue → <[v := (cd + 1)%Z]> dist !!! x = dist !!! x) as Hsame'.
  { intros x Hx. apply list_lookup_total_insert_ne. congruence. }
  assert (<[v := (cd + 1)%Z]> dist !!! v = (cd + 1)%Z) as Hnew.
  { apply list_lookup_total_insert_eq. lia. }
  split_and!; [split; simpl | | | |]; simpl.
  - by rewrite length_insert.
  - apply NoDup_app. split_and!; [done | | apply NoDup_singleton].
    intros x Hx ->%list_elem_of_singleton. done.
  - intros i [Hi| ->%list_elem_of_singleton]%elem_of_app.
    + rewrite Hsame by done. by apply Hq.
    + exists (S kc). split.
      * rewrite list_lookup_insert_eq by lia. f_equal. lia.
      * destruct Hhops as (s & Hs & Hss & Hpath). exists s.
        split_and!; [done | done |]. by eapply nsteps_r.
  - intros i Hi Hni. rewrite elem_of_app, list_elem_of_singleton in Hni.
    rewrite list_lookup_insert_ne by (intros ->; tauto).
    apply Hu; [done|]. tauto.
  - intros i Hi Hs. destruct (Hsea i Hi Hs) as [Hin Hd].
    split; [apply elem_of_app; by left | by rewrite Hsame].
  - intros p q a b Hpq Ha Hb.
    apply lookup_app_Some in Ha as [Ha|[Hpl Ha]];
      apply lookup_app_Some in Hb as [Hb|[Hql Hb]].
    + rewrite !Hsame' by (by eapply list_elem_of_lookup_2). by eapply Hsort.
    + apply list_lookup_singleton_Some in Hb as [_ <-].
      rewrite Hnew, Hsame' by (by eapply list_elem_of_lookup_2).
      apply Hwin. by eapply list_elem_of_lookup_2.
    + apply lookup_lt_Some in Hb. lia.
    + apply list_lookup_singleton_Some in Ha as [_ <-].
      apply list_lookup_singleton_Some in Hb as [_ <-]. lia.
  - rewrite length_app. simpl. lia.
  - intros p u x Hp Hpu Hux.
    rewrite lookup_app_l in Hpu by lia.
    destruct (Hrel p u x Hp Hpu Hux) as [Hx Hle].
    split; [apply elem_of_app; by left|].
    rewrite !Hsame'; [done | by eapply list_elem_of_lookup_2 | done].
  - intros b [Hb| ->%list_elem_of_singleton]%elem_of_app; simpl.
    + rewrite Hsame' by done. by apply Hwin.
    + rewrite Hnew. lia.
  - split_and!; simpl; [by exists [v] | done | done].
  - apply elem_of_app. right. by left.
  - rewrite Hnew. lia.
Qed.

(** All the neighbours of the cell [cur] taken from the queue. *)
Lemma relax_loop adj elev n cur cd ns st :
  coast_inv adj elev n st → window cd st →
  cs_queue st !! n = Some cur → cs_distance st !!! cur = cd →
  Forall (λ v, edge adj cur v ∧ v < length elev) ns →
  coast_inv adj elev n (foldl (relaxNeighbor cd) st ns) ∧
  window cd (foldl (relaxNeighbor cd) st ns) ∧
  coast_extends st (foldl (relaxNeighbor cd) st ns) ∧
  (∀ v, v ∈ ns →
        v ∈ cs_queue (foldl (relaxNeighbor cd) st ns) ∧
        (cs_distance (foldl (relaxNeighbor cd) st ns) !!! v <= cd + 1)%Z).
Proof.
  intros Hinv Hwin Hcur Hcd Hns. revert st Hinv Hwin Hcur Hcd.
  induction Hns as [|v ns [Hedge Hv] _ IH]; intros st Hinv Hwin Hcur Hcd.
  { simpl. split_and!; [done | done | apply coast_extends_refl |].
    by intros v ?%elem_of_nil. }
  simpl foldl.
  destruct (relax_step _ _ _ _ _ _ _ Hinv Hwin Hcur Hcd Hedge Hv)
    as (Hinv1 & Hwin1 & Hext1 & Hvq & Hvd).
  set (st1 := relaxNeighbor cd st v) in *.
  assert (cs_queue st1 !! n = Some cur) as Hcur1.
  { destruct Hext1 as ([l ->] & _ & _). by apply lookup_app_l_Some. }
  assert (cs_distance st1 !!! cur = cd) as Hcd1.
  { destruct Hext1 as (_ & Hd & _). rewrite Hd; [done|].
    by eapply list_elem_of_lookup_2. }
  destruct (IH st1 Hinv1 Hwin1 Hcur1 Hcd1) as (Hinv2 & Hwin2 & Hext2 & Hall).
  split_and!; [done | done | by eapply coast_extends_trans |].
  intros x [->|Hx]%elem_of_cons; [|by apply Hall].
  destruct Hext2 as ([l El] & Hd & _). split.
  - rewrite El. apply elem_of_app. by left.
  - by rewrite Hd.
Qed.

(** One iteration of the [while] loop. *)
Lemma coast_step adj elev st cur :
  Forall (Forall (λ k, k < length elev)) adj →
  coast_inv adj elev (cs_queueStart st) st → head_window st →
  cs_queue st !! cs_queueStart st = Some cur →
  let st' := foldl (relaxNeighbor (cs_distance st !!! cur))
                   (mkCoast (cs_distance st) (cs_queue st)
                            (S (cs_queueStart st)))
                   (adj !!! cur) in
  coast_inv adj elev (cs_queueStart st') st' ∧ head_window st' ∧
  cs_queueStart st' = S (cs_queueStart st).
Proof.
  intros Hadj Hinv Hhead Hcur. cbv zeta.
  set (n := cs_queueStart st) in *. set (cd := cs_distance st !!! cur).
  set (st1 := mkCoast (cs_distance st) (cs_queue st) (S n)).
  assert (coast_inv adj elev n st1) as Hinv1 by (by destruct Hinv).
  assert (window cd st1) as Hwin1 by (by apply Hhead).
  assert (Forall (λ v, edge adj cur v ∧ v < length elev) (adj !!! cur)) as Hns.
  { apply Forall_forall. intros v Hv. split; [done|].
    rewrite lookup_total_default in Hv.
    destruct (adj !! cur) as [ns|] eqn:E; simpl in Hv;
      [|by apply elem_of_nil in Hv].
    eapply Forall_lookup_1 in Hadj; [|exact E].
    by eapply Forall_forall in Hadj. }
  destruct (relax_loop adj elev n cur cd (adj !!! cur) st1 Hinv1 Hwin1 Hcur
              eq_refl Hns) as (Hinv2 & Hwin2 & Hext & Hall).
  set (st2 := foldl _ st1 _) in *.
  destruct Hext as ([l El] & Hd & Hstart). simpl in El, Hd, Hstart.
  assert (cs_distance st2 !!! cur = cd) as Hcd2.
  { apply Hd. by eapply list_elem_of_lookup_2. }
  rewrite Hstart. split_and!; [|  | done].
  - destruct Hinv2 as [Hlen Hnd Hq Hu Hsea Hsort Hbound Hrel].
    split; try done.
    + rewrite El, length_app. apply lookup_lt_Some in Hcur. lia.
    + intros p u v Hp Hpu Huv. destruct (decide (p = n)) as [->|Hne].
      * rewrite El, lookup_app_l in Hpu by (by eapply lookup_lt_Some).
        assert (u = cur) as -> by congruence.
        rewrite Hcd2. by apply Hall.
      * apply (Hrel p); [lia | done | done].
  - intros a Ha b Hb. rewrite Hstart in Ha.
    pose proof (Hwin2 b Hb) as Hle.
    assert (cs_queue st2 !! n = Some cur) as Hcur2.
    { rewrite El. by apply lookup_app_l_Some. }
    pose proof (ci_sorted _ _ _ _ Hinv2 n (S n) cur a ltac:(lia) Hcur2 Ha) as Hs.
    lia.
Qed.

(** The traversal keeps the invariant and ends with every queued cell
    processed. *)
Lemma coastLoop_exhausts_queue adj elev fuel st :
  Forall (Forall (λ k, k < length elev)) adj →
  coast_inv adj elev (cs_queueStart st) st → head_window st →
  length elev ≤ cs_queueStart st + fuel →
  coast_inv adj elev (length (cs_queue (coastLoop fuel adj st)))
            (coastLoop fuel adj st).
Proof.
  intros Hadj. revert st.
  induction fuel as [|fuel IH]; intros st Hinv Hhead Hfuel; simpl.
  - assert (length (cs_queue st) ≤ length elev) as Hq.
    { apply nodup_bounded_length; [apply (ci_nodup _ _ _ _ Hinv)|].
      intros x Hx. destruct (ci_queued _ _ _ _ Hinv x Hx) as (k & Hk & _).
      apply lookup_lt_Some in Hk. by rewrite (ci_len _ _ _ _ Hinv) in Hk. }
    pose proof (ci_bound _ _ _ _ Hinv).
    replace (length (cs_queue st)) with (cs_queueStart st) by lia. done.
  - destruct (cs_queue st !! cs_queueStart st) as [cur|] eqn:Hcur.
    + destruct (coast_step adj elev st cur Hadj Hinv Hhead Hcur)
        as (Hinv' & Hhead' & Hstart).
      apply IH; [done | done | lia].
    + apply lookup_ge_None in Hcur. pose proof (ci_bound _ _ _ _ Hinv).
      replace (length (cs_queue st)) with (cs_queueStart st) by lia. done.
Qed.

Lemma coastState_inv (w : World) :
  well_formed w →
  coast_inv (adjacency w) (elevations w) (length (cs_queue (coastState w)))
            (coastState w).
Proof.
  intros (_ & Hlen & Hadj). unfold coastState. cbv zeta. rewrite <- Hlen.
  destruct (coast_seed_inv (adjacency w) (elevations w)) as (Hinv & Hhead & Hst).
  apply coastLoop_exhausts_queue.
  - unfold neighbors_in_range in Hadj. by rewrite Hlen.
  - by rewrite Hst.
  - done.
  - lia.
Qed.

(** Once every queued cell is processed, a cell [k] hops away from a
    queued cell is queued and at most [k] farther. *)
Lemma relaxed_hops adj elev st k u c :
  coast_inv adj elev (length (cs_queue st)) st →
  nsteps (edge adj) k u c → u ∈ cs_queue st →
  c ∈ cs_queue st ∧
  (cs_distance st !!! c <= cs_distance st !!! u + Z.of_nat k)%Z.
Proof.
  intros Hinv Hpath. induction Hpath as [u|k u t c Hut _ IH]; intros Hu.
  { split; [done | lia]. }
  apply list_elem_of_lookup in Hu as [p Hp].
  destruct (ci_relaxed _ _ _ _ Hinv p u t) as [Ht Hle];
    [by eapply lookup_lt_Some | done | done |].
  destruct (IH Ht) as [Hc Hle']. split; [done | lia].
Qed.

(** C5.  [calculateDistanceToCoast] gives 0 to every cell at or below sea
    level, to every cell reachable from one of them the least number of
    adjacency hops from any of them, and leaves [-1] at every other cell. *)
Theorem coast_distance (w : World) :
  well_formed w →
  length (calculateDistanceToCoast w) = cellCount w ∧
  (∀ i, i < cellCount w → (elevations w !!! i <= 0)%Q →
        calculateDistanceToCoast w !! i = Some 0%Z) ∧
  (∀ i, reachable_from_sea (adjacency w) (elevations w) i →
        ∃ k, calculateDistanceToCoast w !! i = Some (Z.of_nat k) ∧
             hops (adjacency w) (elevations w) k i ∧
             ∀ k', hops (adjacency w) (elevations w) k' i → k ≤ k') ∧
  (∀ i, i < cellCount w →
        ¬ reachable_from_sea (adjacency w) (elevations w) i →
        calculateDistanceToCoast w !! i = Some (-1)%Z).
Proof.
  intros Hwf. pose proof (coastState_inv w Hwf) as Hinv.
  destruct Hwf as (_ & Hlen & _). unfold calculateDistanceToCoast.
  assert (∀ k i, hops (adjacency w) (elevations w) k i →
                 i ∈ cs_queue (coastState w) ∧
                 (cs_distance (coastState w) !!! i <= Z.of_nat k)%Z) as Hmin.
  { intros k i (s & Hs & Hsea & Hpath).
    destruct (ci_sea _ _ _ _ Hinv s Hs Hsea) as [Hsq Hsd].
    destruct (relaxed_hops _ _ _ _ _ _ Hinv Hpath Hsq) as [Hi Hle].
    rewrite (list_lookup_total_correct _ _ _ Hsd) in Hle. split; [done | lia]. }
  split_and!.
  - by rewrite (ci_len _ _ _ _ Hinv).
  - intros i Hi Hsea. rewrite <- Hlen in Hi.
    by apply (ci_sea _ _ _ _ Hinv).
  - intros i (s & Hs & Hsea & [k0 Hpath]%rtc_nsteps).
    destruct (Hmin k0 i) as [Hq _]; [by exists s|].
    destruct (ci_queued _ _ _ _ Hinv i Hq) as (k & Hk & Hhops).
    exists k. split_and!; [done | done |].
    intros k' Hk'. destruct (Hmin k' i Hk') as [_ Hle].
    rewrite (list_lookup_total_correct _ _ _ Hk) in Hle. lia.
  - intros i Hi Hnr. rewrite <- Hlen in Hi.
    apply (ci_unknown _ _ _ _ Hinv); [done|]. intros Hq.
    destruct (ci_queued _ _ _ _ Hinv i Hq) as (k & _ & s & Hs & Hsea & Hpath).
    apply Hnr. exists s. split_and!; [done | done | by eapply rtc_nsteps_2].
Qed.

(** ** The theorems on a concrete world *)

Lemma pit_world_well_formed : well_formed pit_world.
Proof.
  split_and!; [done | done |].
  unfold neighbors_in_range. change (cellCount pit_world) with 5.
  repeat (constructor; try lia).
Qed.

Lemma pit_world_filled_well_formed : well_formed (fillSinks pit_world).
Proof.
  split_and!; [done | by vm_compute |].
  unfold neighbors_in_range. change (cellCount (fillSinks pit_world)) with 5.
  repeat (constructor; try lia).
Qed.

Lemma fillSinks_drainage_witness :
  ∃ p,
    drain_path (λ a b, edge (adjacency pit_world) b a)
               (elevations (fillSinks pit_world)) 3 p ∧
    (symmetric_adjacency (adjacency pit_world) →
     drain_path (edge (adjacency pit_world))
                (elevations (fillSinks pit_world)) 3 p).
Proof.
  apply (fillSinks_drainage pit_world 3 pit_world_well_formed).
  exists 0. split_and!; [vm_compute; lia | by vm_compute |].
  apply (rtc_l _ _ 1); [by left|].
  apply (rtc_l _ _ 2); [right; by left|].
  apply (rtc_l _ _ 3); [right; by left|].
  apply rtc_refl.
Defined.

Lemma downhill_target_lies_below_witness :
  (downhill (fillSinks pit_world) !! 2 = Some (-1)%Z ∧
   ∀ n, n ∈ adjacency (fillSinks pit_world) !!! 2 →
        ¬ lower (elevations (fillSinks pit_world))
                (distToCoast (fillSinks pit_world)) n 2) ∨
  (∃ t, downhill (fillSinks pit_world) !! 2 = Some (Z.of_nat t) ∧
        t < cellCount (fillSinks pit_world) ∧
        t ∈ adjacency (fillSinks pit_world) !!! 2 ∧
        lower (elevations (fillSinks pit_world))
              (distToCoast (fillSinks pit_world)) t 2 ∧
        ∀ n, n ∈ adjacency (fillSinks pit_world) !!! 2 →
             ¬ lower (elevations (fillSinks pit_world))
                     (distToCoast (fillSinks pit_world)) n t).
Proof.
  apply (downhill_target_lies_below (fillSinks pit_world) 2
           pit_world_filled_well_formed).
  - vm_compute. lia.
  - by vm_compute.
Defined.

Lemma downhill_forest_witness :
  (∀ i, ¬ tc (flows_above (elevations (fillSinks pit_world))
                          (downhill (fillSinks pit_world))) i i) ∧
  (∀ i, i < cellCount (fillSinks pit_world) →
        ∃ k j, k ≤ cellCount (fillSinks pit_world) ∧
               nsteps (flows_to (downhill (fillSinks pit_world))) k i j ∧
               downhill (fillSinks pit_world) !! j = Some (-1)%Z).
Proof.
  apply (downhill_forest (fillSinks pit_world) pit_world_filled_well_formed).
Defined.

Lemma coast_distance_witness :
  length (calculateDistanceToCoast pit_world) = cellCount pit_world ∧
  (∀ i, i < cellCount pit_world → (elevations pit_world !!! i <= 0)%Q →
        calculateDistanceToCoast pit_world !! i = Some 0%Z) ∧
  (∀ i, reachable_from_sea (adjacency pit_world) (elevations pit_world) i →
        ∃ k, calculateDistanceToCoast pit_world !! i = Some (Z.of_nat k) ∧
             hops (adjacency pit_world) (elevations pit_world) k i ∧
             ∀ k', hops (adjacency pit_world) (elevations pit_world) k' i →
                   k ≤ k') ∧
  (∀ i, i < cellCount pit_world →
        ¬ reachable_from_sea (adjacency pit_world) (elevations pit_world) i →
        calculateDistanceToCoast pit_world !! i = Some (-1)%Z).
Proof.
  apply (coast_distance pit_world pit_world_well_formed).
Defined.

Lemma smoothMap_constant_witness :
  constant_field 1 (smoothMap pit_world [1; 1; 1; 1; 1]%Q 2) ∧
  length (smoothMap pit_world [1; 1; 1; 1; 1]%Q 2)
  = length [1; 1; 1; 1; 1]%Q.
Proof.
  apply (smoothMap_constant pit_world [1; 1; 1; 1; 1]%Q 2 1).
  - apply pit_world_well_formed.
  - reflexivity.
  - repeat constructor.
Defined.

Lemma fillSinks_frame_witness :
  (∀ i, (elevations pit_world !!! i
         <= elevations (fillSinks pit_world) !!! i)%Q) ∧
  (∀ i, elevations (fillSinks pit_world) !!! i ≠ elevations pit_world !!! i →
        (0 < elevations pit_world !!! i)%Q ∧
        reachable_from_sea (adjacency pit_world) (elevations pit_world) i) ∧
  (∀ i, (elevations pit_world !!! i <= 0)%Q →
        elevations (fillSinks pit_world) !!! i = elevations pit_world !!! i) ∧
  (∀ i, ¬ reachable_from_sea (adjacency pit_world) (elevations pit_world) i →
        elevations (fillSinks pit_world) !!! i = elevations pit_world !!! i) ∧
  length (elevations (fillSinks pit_world)) = length (elevations pit_world) ∧
  adjacency (fillSinks pit_world) = adjacency pit_world ∧
  moisture (fillSinks pit_world) = moisture pit_world ∧
  points (fillSinks pit_world) = points pit_world ∧
  rivers (fillSinks pit_world) = rivers pit_world ∧
  width (fillSinks pit_world) = width pit_world ∧
  height (fillSinks pit_world) = height pit_world.
Proof.
  apply (fillSinks_frame pit_world pit_world_well_formed).
Defined.

(** The model on [pit_world]: the pit at cell 2 is raised above cell 1, the
    island keeps its elevation and its unknown distance, and every cell
    pours into the next one down to the coast. *)
Example pit_world_run :
  elevations (fillSinks pit_world) = [-1; 1 # 2; 100002 # 200000; 4 # 5; 3 # 10]%Q ∧
  calculateDistanceToCoast (fillSinks pit_world) = [0; 1; 2; 3; -1]%Z ∧
  downhill (fillSinks pit_world) = [-1; 0; 1; 2; -1]%Z ∧
  sortedIndices (fillSinks pit_world) = [3; 2; 1; 4; 0] ∧
  flux (fillSinks pit_world) = [4; 3; 2; 1; 1]%Z ∧
  generateRivers (fillSinks pit_world) = [].
Proof. by vm_compute. Qed.

(** * Further properties *)

(** ** The heap: contents, size and order over a history *)

(** X1.  Whatever the comparator, also one that is no order at all, [push]
    adds exactly the pushed element to the stored ones and [pop] removes
    exactly the element it returns; [pop] returns [undefined] only on the
    empty array. *)
Theorem heap_contents {T : Type} (compare : T → T → Q) (h : list T) (x : T) :
  MinHeap.push compare h x ≡ₚ x :: h ∧
  match MinHeap.pop compare h with
  | (Some top, h') => h ≡ₚ top :: h'
  | (None, h') => h = [] ∧ h' = []
  end.
Proof.
  split; [apply MinHeapFacts.push_perm|].
  destruct (MinHeap.pop compare h) as [[top|] h'] eqn:E.
  - by apply MinHeapFacts.pop_perm in E.
  - by apply MinHeapFacts.pop_None in E.
Qed.

(** X2.  The [length] getter counts the calls: a push makes it one more, a
    pop one less, and a pop of the empty heap leaves it at 0. *)
Theorem heap_length {T : Type} (compare : T → T → Q) (h : list T) (x : T) :
  length (MinHeap.push compare h x) = S (length h) ∧
  length (MinHeap.pop compare h).2 = length h - 1.
Proof.
  split.
  - by rewrite MinHeapFacts.push_perm.
  - destruct (MinHeap.pop compare h) as [[top|] h'] eqn:E; simpl.
    + apply MinHeapFacts.pop_perm in E. rewrite E. simpl. lia.
    + by apply MinHeapFacts.pop_None in E as [-> ->].
Qed.

(** X3.  After any history of pushes and pops the array is heap ordered:
    no element comes strictly before the element at its parent position
    [(i - 1) >>> 1]. *)
Theorem heap_history_ordered {T : Type} (compare : T → T → Q)
    (ops : list (@MinHeap.op T)) (i : nat) (x p : T) :
  (∀ a b c, MinHeap.cle compare a b → MinHeap.cle compare b c →
            MinHeap.cle compare a c) →
  (∀ a b, MinHeap.cle compare a b ∨ MinHeap.cle compare b a) →
  0 < i →
  MinHeap.run compare ops !! i = Some x →
  MinHeap.run compare ops !! ((i - 1) / 2) = Some p →
  ¬ (compare x p < 0)%Q.
Proof.
  intros Htrans Htotal Hi Hx Hp.
  by apply (MinHeapFacts.run_ok compare Htrans Htotal ops i Hi x p).
Qed.

(** X4.  Two pops in a row come out in order: the second element is not
    strictly before the first. *)
Theorem heap_pops_in_order {T : Type} (compare : T → T → Q)
    (ops : list (@MinHeap.op T)) (a b : T) (h1 h2 : list T) :
  (∀ a b c, MinHeap.cle compare a b → MinHeap.cle compare b c →
            MinHeap.cle compare a c) →
  (∀ a b, MinHeap.cle compare a b ∨ MinHeap.cle compare b a) →
  MinHeap.pop compare (MinHeap.run compare ops) = (Some a, h1) →
  MinHeap.pop compare h1 = (Some b, h2) →
  ¬ (compare b a < 0)%Q.
Proof.
  intros Htrans Htotal Hpop1 Hpop2.
  apply (MinHeapFacts.heap_root_min compare Htrans Htotal
           (MinHeap.run compare ops) a).
  - by apply MinHeapFacts.run_ok.
  - destruct (MinHeap.run compare ops) as [|top r]; [done|].
    pose proof (MinHeapFacts.pop_cons compare top r) as E.
    rewrite Hpop1 in E. simpl in E. by rewrite E.
  - apply MinHeapFacts.pop_perm in Hpop1, Hpop2.
    rewrite Hpop1, Hpop2. right. by left.
Qed.

Lemma heap_history_ordered_witness :
  ¬ (inject_Z (Z.of_nat 3 - Z.of_nat 1) < 0)%Q.
Proof.
  apply (heap_history_ordered
           (λ x y : nat, inject_Z (Z.of_nat x - Z.of_nat y))
           [MinHeap.Push 3; MinHeap.Push 1; MinHeap.Push 2] 1 3 1
           nat_difference_trans nat_difference_total).
  - lia.
  - reflexivity.
  - reflexivity.
Defined.

Lemma heap_pops_in_order_witness :
  ¬ (inject_Z (Z.of_nat 2 - Z.of_nat 1) < 0)%Q.
Proof.
  apply (heap_pops_in_order
           (λ x y : nat, inject_Z (Z.of_nat x - Z.of_nat y))
           [MinHeap.Push 3; MinHeap.Push 1; MinHeap.Push 2] 1 2 [2; 3] [3]
           nat_difference_trans nat_difference_total).
  - reflexivity.
  - reflexivity.
Defined.

(** ** Sink filling: the loop, the raised cells, the frame *)

Lemma neighbors_forall adj n u :
  Forall (Forall (λ k, k < n)) adj →
  Forall (λ v, edge adj u v ∧ v < n) (adj !!! u).
Proof.
  intros Hadj. apply Forall_forall. intros v Hv. split; [done|].
  rewrite lookup_total_default in Hv.
  destruct (adj !! u) as [ns|] eqn:E; simpl in Hv; [|by apply elem_of_nil in Hv].
  eapply Forall_lookup_1 in Hadj; [|exact E]. by eapply Forall_forall in Hadj.
Qed.

(** A property of the extracted cells and the state that one iteration of
    the flood loop keeps holds when the loop returns. *)
Lemma floodLoop_invariant (I : list nat → FillState → Prop) adj fuel popped st :
  (∀ popped st u h',
     I popped st →
     MinHeap.pop (elevCompare (fs_elev st)) (fs_heap st) = (Some u, h') →
     I (popped ++ [u])
       (foldl (raiseNeighbor u) (mkFill (fs_elev st) (fs_visited st) h')
              (adj !!! u))) →
  I popped st → ∃ popped', I popped' (floodLoop fuel adj st).
Proof.
  intros Hstep. revert popped st.
  induction fuel as [|fuel IH]; intros popped st HI; simpl; [by exists popped|].
  destruct (MinHeap.pop (elevCompare (fs_elev st)) (fs_heap st)) as [[u|] h']
    eqn:Hpop; [|by exists popped].
  eapply IH, Hstep; eauto.
Qed.

(** Once the heap is empty further iterations do nothing. *)
Lemma floodLoop_stable adj fuel k st :
  fs_heap (floodLoop fuel adj st) = [] →
  floodLoop (fuel + k) adj st = floodLoop fuel adj st.
Proof.
  revert st. induction fuel as [|fuel IH]; intros st Hh; simpl in *.
  - destruct k as [|k]; [done|]. simpl. by rewrite Hh.
  - destruct (MinHeap.pop (elevCompare (fs_elev st)) (fs_heap st)) as [[u|] h'];
      [by apply IH | done].
Qed.

Lemma fillSinks_keeps_well_formed (w : World) :
  well_formed w → well_formed (fillSinks w).
Proof.
  intros Hwf. destruct (fillSinks_inv w Hwf) as (popped & Hinv & _ & _).
  destruct Hwf as (Hadj & Hlen & Hrange).
  split_and!; [done | | done]. simpl.
  by rewrite (fi_len_elev _ _ _ _ Hinv).
Qed.

(** X5.  [fillSinks] keeps the world well formed, with the same cells, so
    the later stages run on a well-formed world. *)
Theorem fillSinks_well_formed (w : World) :
  well_formed w →
  well_formed (fillSinks w) ∧ cellCount (fillSinks w) = cellCount w.
Proof.
  intros Hwf. split; [by apply fillSinks_keeps_well_formed | done].
Qed.

(** X6.  The [while] loop of [fillSinks] has ended within [cellCount]
    extractions: the heap is empty, further iterations would change
    nothing, and the cells marked visited are exactly the cells reachable
    from a cell at or below sea level. *)
Theorem fillSinks_loop_ends (w : World) (k : nat) (i : nat) :
  well_formed w →
  fs_heap (fillSinksState w) = [] ∧
  floodLoop (cellCount w + k) (adjacency w)
    (foldl seedCell
           (mkFill (elevations w) (replicate (cellCount w) false) [])
           (seq 0 (cellCount w)))
  = fillSinksState w ∧
  (fs_visited (fillSinksState w) !! i = Some true ↔
   reachable_from_sea (adjacency w) (elevations w) i).
Proof.
  intros Hwf. destruct (fillSinks_inv w Hwf) as (popped & Hinv & Hcl & Hh).
  split_and!; [done | by apply floodLoop_stable |]. split.
  - apply (fi_reach _ _ _ _ Hinv).
  - by eapply reachable_visited.
Qed.

Lemma raise_raised adj elev0 popped st u v :
  fill_inv adj elev0 popped st → raised_inv adj elev0 st →
  u ∈ popped → edge adj u v → v < length elev0 →
  raised_inv adj elev0 (raiseNeighbor u st v).
Proof.
  intros Hinv Hr Hu Huv Hv. unfold raiseNeighbor.
  destruct (decide (fs_visited st !! v = Some true)) as [Hvis|Hnv]; [done|].
  cbv zeta. intros i. simpl.
  assert (fs_visited st !! u = Some true) as Huvis.
  { apply (fi_visited _ _ _ _ Hinv), elem_of_app. by left. }
  assert (u ≠ v) as Hne by congruence.
  assert (v < length (fs_visited st)) as Hvl
    by (by rewrite (fi_len_vis _ _ _ _ Hinv)).
  assert (v < length (fs_elev st)) as Hel
    by (by rewrite (fi_len_elev _ _ _ _ Hinv)).
  destruct (decide (fs_elev st !!! v < fs_elev st !!! u)%Q) as [Hlt|Hge].
  - destruct (decide (i = v)) as [->|Hiv].
    + intros _. exists u. split_and!.
      * by rewrite list_lookup_insert_ne.
      * by apply list_lookup_insert_eq.
      * done.
      * rewrite list_lookup_total_insert_ne by done.
        by rewrite <- (fi_frame _ _ _ _ Hinv v Hnv).
      * rewrite list_lookup_total_insert_eq by done.
        by rewrite list_lookup_total_insert_ne.
    + rewrite list_lookup_total_insert_ne by done. intros Hi.
      destruct (Hr i Hi) as (x & Hx & Hiv' & Hxi & Hlow & He). exists x.
      assert (x ≠ v) by congruence.
      rewrite !list_lookup_insert_ne by done.
      rewrite list_lookup_total_insert_ne by done. done.
  - intros Hi. destruct (decide (i = v)) as [->|Hiv].
    + destruct Hi. by apply (fi_frame _ _ _ _ Hinv).
    + destruct (Hr i Hi) as (x & Hx & Hiv' & Hxi & Hlow & He). exists x.
      assert (x ≠ v) by congruence.
      by rewrite !list_lookup_insert_ne.
Qed.

Lemma raise_loop_raised adj elev0 popped u ns st :
  fill_inv adj elev0 popped st → raised_inv adj elev0 st → u ∈ popped →
  Forall (λ v, edge adj u v ∧ v < length elev0) ns →
  raised_inv adj elev0 (foldl (raiseNeighbor u) st ns).
Proof.
  intros Hinv Hr Hu Hns. revert st Hinv Hr.
  induction Hns as [|v ns [Huv Hv] _ IH]; intros st Hinv Hr; [done|].
  simpl. apply IH.
  - by apply raise_inv.
  - by eapply raise_raised.
Qed.

(** X7.  A cell whose elevation [fillSinks] changed was raised over a
    cell that has it among its cached neighbours and is itself reachable
    from the sea: it lay below the final level of that cell, and ends at
    or above it. *)
Theorem fillSinks_raised_over_neighbor (w : World) (i : nat) :
  well_formed w →
  elevations (fillSinks w) !!! i ≠ elevations w !!! i →
  ∃ u, edge (adjacency w) u i ∧
       reachable_from_sea (adjacency w) (elevations w) u ∧
       (elevations w !!! i < elevations (fillSinks w) !!! u)%Q ∧
       (elevations (fillSinks w) !!! u <= elevations (fillSinks w) !!! i)%Q.
Proof.
  intros (_ & Hlen & Hadj) Hne. unfold neighbors_in_range in Hadj.
  rewrite <- Hlen in Hadj.
  destruct (floodLoop_invariant
              (λ popped st, fill_inv (adjacency w) (elevations w) popped st ∧
                            raised_inv (adjacency w) (elevations w) st)
              (adjacency w) (cellCount w) []
              (foldl seedCell
                 (mkFill (elevations w)
                         (replicate (length (elevations w)) false) [])
                 (seq 0 (length (elevations w)))))
    as (popped & Hinv & Hr).
  - intros popped st u h' [Hinv Hr] Hpop.
    apply MinHeapFacts.pop_perm in Hpop.
    assert (fill_inv (adjacency w) (elevations w) (popped ++ [u])
              (mkFill (fs_elev st) (fs_visited st) h')) as Hinv1.
    { eapply fill_inv_perm; [exact Hinv|]. by rewrite Hpop, <- (assoc_L (++)). }
    assert (u ∈ popped ++ [u]) as Hu by (apply elem_of_app; right; by left).
    pose proof (neighbors_forall _ _ u Hadj) as Hns. split.
    + by apply raise_loop_inv.
    + by eapply raise_loop_raised.
  - split; [apply seed_inv|]. intros j Hj. destruct Hj.
    by destruct (seed_loop (elevations w) (length (elevations w)) ltac:(done))
      as (-> & _).
  - simpl in Hne. unfold fillSinksState in Hne. cbv zeta in Hne.
    rewrite <- Hlen in Hne at 2 3.
    destruct (Hr i Hne) as (u & Hu & _ & Hui & Hlow & He).
    exists u. split_and!; [done | by apply (fi_reach _ _ _ _ Hinv) | |].
    + simpl. unfold fillSinksState. cbv zeta. by rewrite <- Hlen at 2 3.
    + simpl. unfold fillSinksState. cbv zeta. rewrite <- Hlen at 2 3 5 6.
      rewrite He. unfold epsilon. lra.
Qed.

(** ** Coast distance: shape of the result and the loop *)

Lemma coast_min_hops (w : World) (k i : nat) :
  well_formed w → hops (adjacency w) (elevations w) k i →
  i ∈ cs_queue (coastState w) ∧
  (cs_distance (coastState w) !!! i <= Z.of_nat k)%Z.
Proof.
  intros Hwf (s & Hs & Hsea & Hpath). pose proof (coastState_inv w Hwf) as Hinv.
  destruct (ci_sea _ _ _ _ Hinv s Hs Hsea) as [Hsq Hsd].
  destruct (relaxed_hops _ _ _ _ _ _ Hinv Hpath Hsq) as [Hi Hle].
  rewrite (list_lookup_total_correct _ _ _ Hsd) in Hle. split; [done | lia].
Qed.

(** A cell with a known distance is queued, and its distance is the length
    of a path from the sea. *)
Lemma coast_known (w : World) (i : nat) (d : Z) :
  well_formed w → calculateDistanceToCoast w !! i = Some d → d ≠ (-1)%Z →
  ∃ k, d = Z.of_nat k ∧ hops (adjacency w) (elevations w) k i.
Proof.
  intros Hwf Hd Hne. pose proof (coastState_inv w Hwf) as Hinv.
  unfold calculateDistanceToCoast in Hd.
  assert (i < length (elevations w)) as Hi.
  { apply lookup_lt_Some in Hd. by rewrite (ci_len _ _ _ _ Hinv) in Hd. }
  destruct (decide (i ∈ cs_queue (coastState w))) as [Hq|Hq].
  - destruct (ci_queued _ _ _ _ Hinv i Hq) as (k & Hk & Hhops).
    exists k. split; [congruence | done].
  - rewrite (ci_unknown _ _ _ _ Hinv i Hi Hq) in Hd. congruence.
Qed.

(** X8.  In the result of [calculateDistanceToCoast] no entry is below
    [-1], and the entries that are 0 are exactly those of the cells at or
    below sea level. *)
Theorem coast_distance_zero (w : World) (i : nat) (d : Z) :
  well_formed w → calculateDistanceToCoast w !! i = Some d →
  (-1 <= d)%Z ∧ (d = 0%Z ↔ (elevations w !!! i <= 0)%Q).
Proof.
  intros Hwf Hd. pose proof (coastState_inv w Hwf) as Hinv.
  assert (i < length (elevations w)) as Hi.
  { apply lookup_lt_Some in Hd. unfold calculateDistanceToCoast in Hd.
    by rewrite (ci_len _ _ _ _ Hinv) in Hd. }
  destruct (decide (d = (-1)%Z)) as [->|Hne].
  - split; [lia|]. split; [lia|]. intros Hsea.
    destruct (ci_sea _ _ _ _ Hinv i Hi Hsea) as [_ E].
    unfold calculateDistanceToCoast in Hd. congruence.
  - destruct (coast_known w i d Hwf Hd Hne) as (k & -> & s & Hs & Hsea & Hpath).
    split; [lia|]. split.
    + intros Hk. assert (k = 0) as -> by lia. by inversion Hpath; subst.
    + intros Hsea'. destruct (ci_sea _ _ _ _ Hinv i Hi Hsea') as [_ E].
      unfold calculateDistanceToCoast in Hd. congruence.
Qed.

(** X9.  Along an edge of the adjacency graph the coast distance grows by
    at most one: a cached neighbour of a cell with a known distance has a
    known distance, at most one more. *)
Theorem coast_distance_edge (w : World) (u v k : nat) :
  well_formed w → edge (adjacency w) u v →
  calculateDistanceToCoast w !! u = Some (Z.of_nat k) →
  ∃ k', calculateDistanceToCoast w !! v = Some (Z.of_nat k') ∧ k' ≤ S k.
Proof.
  intros Hwf Huv Hu.
  destruct (coast_known w u _ Hwf Hu ltac:(lia)) as (k0 & Hk0 & s & Hs & Hsea & Hp).
  assert (k0 = k) as -> by lia.
  destruct (coast_min_hops w (S k) v Hwf) as [Hq Hle].
  { exists s. split_and!; [done | done | by eapply nsteps_r]. }
  pose proof (coastState_inv w Hwf) as Hinv.
  destruct (ci_queued _ _ _ _ Hinv v Hq) as (k' & Hk' & _).
  exists k'. split; [done|].
  rewrite (list_lookup_total_correct _ _ _ Hk') in Hle. lia.
Qed.

(** X10.  A cell at distance [k + 1] is a cached neighbour of a cell at
    distance [k]: the distances trace a shortest path back to the sea. *)
Theorem coast_distance_parent (w : World) (v k : nat) :
  well_formed w →
  calculateDistanceToCoast w !! v = Some (Z.of_nat (S k)) →
  ∃ u, edge (adjacency w) u v ∧
       calculateDistanceToCoast w !! u = Some (Z.of_nat k).
Proof.
  intros Hwf Hv.
  destruct (coast_known w v _ Hwf Hv ltac:(lia)) as (k0 & Hk0 & s & Hs & Hsea & Hp).
  assert (k0 = S k) as -> by lia.
  apply nsteps_inv_r in Hp as (u & Hsu & Huv).
  exists u. split; [done|].
  destruct (coast_min_hops w k u Hwf) as [Hq Hle]; [by exists s|].
  pose proof (coastState_inv w Hwf) as Hinv.
  destruct (ci_queued _ _ _ _ Hinv u Hq) as (ku & Hku & _).
  rewrite (list_lookup_total_correct _ _ _ Hku) in Hle.
  destruct (coast_min_hops w (S ku) v Hwf) as [_ Hle'].
  { destruct (ci_queued _ _ _ _ Hinv u Hq) as (ku' & Hku' & s' & ? & ? & ?).
    assert (ku' = ku) as -> by (rewrite Hku in Hku'; injection Hku'; lia).
    exists s'. split_and!; [done | done | by eapply nsteps_r]. }
  unfold calculateDistanceToCoast in Hv.
  rewrite (list_lookup_total_correct _ _ _ Hv) in Hle'.
  unfold calculateDistanceToCoast. rewrite Hku. f_equal. lia.
Qed.

(** [fillSinks] moves no cell across sea level. *)
Lemma fillSinks_sea_level (w : World) (i : nat) :
  well_formed w →
  (elevations (fillSinks w) !!! i <= 0)%Q ↔ (elevations w !!! i <= 0)%Q.
Proof.
  intros Hwf. destruct (fillSinks_inv w Hwf) as (popped & Hinv & _ & _).
  simpl. split.
  - intros H. pose proof (fi_raise _ _ _ _ Hinv i). lra.
  - intros H.
    destruct (decide (fs_visited (fillSinksState w) !! i = Some true)) as [Hv|Hv].
    + assert (i < length (elevations w)) as Hi.
      { apply lookup_lt_Some in Hv. by rewrite (fi_len_vis _ _ _ _ Hinv) in Hv. }
      by destruct (fi_sea _ _ _ _ Hinv i Hi H) as [-> _].
    + by rewrite (fi_frame _ _ _ _ Hinv i Hv).
Qed.

Lemma seedCoast_sea_level (elev elev' : list Q) (cells : list nat) st :
  (∀ i, (elev' !!! i <= 0)%Q ↔ (elev !!! i <= 0)%Q) →
  foldl (seedCoast elev') st cells = foldl (seedCoast elev) st cells.
Proof.
  intros Hsea. revert st. induction cells as [|i cells IH]; intros st; [done|].
  simpl. rewrite IH. f_equal. unfold seedCoast.
  destruct (decide (elev' !!! i <= 0)%Q) as [H|H],
           (decide (elev !!! i <= 0)%Q) as [H'|H']; try done.
  - destruct H'. by apply Hsea.
  - destruct H. by apply Hsea.
Qed.

(** X11.  The coast distances do not depend on the sink filling: computed
    on the filled world they are the distances of the world before. *)
Theorem coast_distance_after_fillSinks (w : World) :
  well_formed w →
  calculateDistanceToCoast (fillSinks w) = calculateDistanceToCoast w.
Proof.
  intros Hwf. unfold calculateDistanceToCoast, coastState. cbv zeta.
  change (cellCount (fillSinks w)) with (cellCount w).
  change (adjacency (fillSinks w)) with (adjacency w).
  do 2 f_equal. apply seedCoast_sea_level. intros i.
  by apply fillSinks_sea_level.
Qed.

Lemma coastLoop_stops adj elev fuel st :
  Forall (Forall (λ k, k < length elev)) adj →
  coast_inv adj elev (cs_queueStart st) st → head_window st →
  length elev ≤ cs_queueStart st + fuel →
  cs_queue (coastLoop fuel adj st) !! cs_queueStart (coastLoop fuel adj st)
  = None.
Proof.
  intros Hadj. revert st.
  induction fuel as [|fuel IH]; intros st Hinv Hhead Hfuel; simpl.
  - apply lookup_ge_None.
    assert (length (cs_queue st) ≤ length elev) as Hq; [|lia].
    apply nodup_bounded_length; [apply (ci_nodup _ _ _ _ Hinv)|].
    intros x Hx. destruct (ci_queued _ _ _ _ Hinv x Hx) as (k & Hk & _).
    apply lookup_lt_Some in Hk. by rewrite (ci_len _ _ _ _ Hinv) in Hk.
  - destruct (cs_queue st !! cs_queueStart st) as [cur|] eqn:Hcur; [|done].
    destruct (coast_step adj elev st cur Hadj Hinv Hhead Hcur)
      as (Hinv' & Hhead' & Hstart).
    apply IH; [done | done | lia].
Qed.

Lemma coastLoop_stable adj fuel k st :
  cs_queue (coastLoop fuel adj st) !! cs_queueStart (coastLoop fuel adj st)
  = None →
  coastLoop (fuel + k) adj st = coastLoop fuel adj st.
Proof.
  revert st. induction fuel as [|fuel IH]; intros st Hh; simpl in *.
  - destruct k as [|k]; [done|]. simpl. by rewrite Hh.
  - destruct (cs_queue st !! cs_queueStart st) as [cur|]; [by apply IH | done].
Qed.

(** X12.  The [while] loop of [calculateDistanceToCoast] has ended within
    [cellCount] iterations: the queue is used up and further iterations
    would change nothing; the queue holds every cell reachable from the
    sea, each of them once, and no other cell. *)
Theorem coast_loop_ends (w : World) (k : nat) (i : nat) :
  well_formed w →
  cs_queue (coastState w) !! cs_queueStart (coastState w) = None ∧
  coastLoop (cellCount w + k) (adjacency w)
    (foldl (seedCoast (elevations w))
           (mkCoast (replicate (cellCount w) (-1)%Z) [] 0)
           (seq 0 (cellCount w)))
  = coastState w ∧
  NoDup (cs_queue (coastState w)) ∧
  (i ∈ cs_queue (coastState w) ↔
   reachable_from_sea (adjacency w) (elevations w) i).
Proof.
  intros Hwf. pose proof (coastState_inv w Hwf) as Hinv.
  assert (cs_queue (coastState w) !! cs_queueStart (coastState w) = None)
    as Hend.
  { destruct Hwf as (_ & Hlen & Hadj). unfold coastState. cbv zeta.
    rewrite <- Hlen.
    destruct (coast_seed_inv (adjacency w) (elevations w)) as (Hi & Hh & Hst).
    apply (coastLoop_stops _ (elevations w)).
    - unfold neighbors_in_range in Hadj. by rewrite Hlen.
    - by rewrite Hst.
    - done.
    - lia. }
  split_and!; [done | by apply coastLoop_stable | apply (ci_nodup _ _ _ _ Hinv) |].
  split.
  - intros Hq. destruct (ci_queued _ _ _ _ Hinv i Hq) as (n & _ & s & ? & ? & ?).
    exists s. split_and!; [done | done | by eapply rtc_nsteps_2].
  - intros (s & Hs & Hsea & [n Hp]%rtc_nsteps).
    apply (coast_min_hops w n i Hwf). by exists s.
Qed.

(** ** River generation: targets, flux and output *)

(** X13.  The array of downhill targets has one entry per cell; a cell at
    or below the 0.05 threshold never has a target; a target is a cell
    index, is a cached neighbour of the cell and is never the cell
    itself. *)
Theorem downhill_shape (w : World) :
  well_formed w →
  length (downhill w) = cellCount w ∧
  (∀ i, i < cellCount w → (elevations w !!! i <= 1 # 20)%Q →
        downhill w !! i = Some (-1)%Z) ∧
  (∀ i d, downhill w !! i = Some d → (-1 <= d < Z.of_nat (cellCount w))%Z) ∧
  (∀ i t, flows_to (downhill w) i t →
          t < cellCount w ∧ t ≠ i ∧ edge (adjacency w) i t).
Proof.
  intros (_ & _ & Hadj). unfold downhill.
  assert (∀ i t, flows_to (downhillPass (cellCount w) (adjacency w)
                             (elevations w) (distToCoast w)) i t →
                 t < cellCount w ∧ t ≠ i ∧ edge (adjacency w) i t) as Hflow.
  { intros i t Hf. apply flows_to_lower in Hf as (Hi & Hin & Hl & _).
    split_and!; [by eapply neighbors_lt | | done].
    intros ->. by apply lower_irrefl in Hl. }
  split_and!; [apply downhillPass_length | | | done].
  - intros i Hi Hlow. rewrite downhillPass_lookup by done.
    by destruct (decide _).
  - intros i d Hd. pose proof (lookup_lt_Some _ _ _ Hd) as Hi.
    rewrite downhillPass_length in Hi.
    destruct (decide (d = (-1)%Z)) as [->|Hne].
    { revert Hi. generalize (cellCount w). intros n Hi. lia. }
    assert (0 <= d)%Z as Hpos.
    { rewrite downhillPass_lookup in Hd by done.
      destruct (decide _); [congruence|].
      destruct (downhillCell_spec (adjacency w) (elevations w) (distToCoast w) i)
        as [[E _]|(t & E & _)]; [congruence|]. rewrite E in Hd.
      injection Hd as <-. lia. }
    destruct (Hflow i (Z.to_nat d)) as (Ht & _).
    { unfold flows_to. rewrite Hd. f_equal. lia. }
    revert Ht. generalize (cellCount w). intros n Ht. lia.
Qed.

Lemma flow_nonneg (fl : list Z) j :
  Forall (λ x, 1 <= x)%Z fl → (0 <= fl !!! j)%Z.
Proof.
  intros Hfl. rewrite lookup_total_default.
  destruct (fl !! j) as [x|] eqn:E; simpl; [|done].
  eapply Forall_lookup_1 in Hfl; [|exact E]. simpl in Hfl. lia.
Qed.

Lemma accumulate_pos elev dh (fl : list Z) i :
  Forall (λ x, 1 <= x)%Z fl → Forall (λ x, 1 <= x)%Z (accumulate elev dh fl i).
Proof.
  intros Hfl. unfold accumulate. cbv zeta. destruct (decide _); [|done].
  destruct (decide (Z.to_nat (dh !!! i) < length fl)) as [Hin|Hout].
  - apply Forall_insert; [done|].
    destruct (lookup_lt_is_Some_2 _ _ Hin) as [x Hx].
    rewrite (list_lookup_total_correct _ _ _ Hx).
    eapply Forall_lookup_1 in Hfl as Hx1; [|exact Hx]. simpl in Hx1.
    pose proof (flow_nonneg fl i Hfl). lia.
  - rewrite list_insert_ge by lia. done.
Qed.

Lemma flux_loop_pos elev dh (fl : list Z) l :
  Forall (λ x, 1 <= x)%Z fl →
  Forall (λ x, 1 <= x)%Z (foldl (accumulate elev dh) fl l).
Proof.
  revert fl. induction l as [|i l IH]; intros fl Hfl; [done|].
  simpl. by apply IH, accumulate_pos.
Qed.

Lemma fluxPass_pos n elev dh order :
  Forall (λ x, 1 <= x)%Z (fluxPass n elev dh order).
Proof.
  apply flux_loop_pos, Forall_replicate. lia.
Qed.

Lemma sumZ_member (f : nat → Z) (l : list nat) (i : nat) :
  (∀ j, 0 <= f j)%Z → i ∈ l → (f i <= sumZ (map f l))%Z.
Proof.
  intros Hf. induction l as [|a l IH]; [by intros ?%elem_of_nil|].
  assert (0 <= sumZ (map f l))%Z as Hnn.
  { clear IH. induction l as [|b l IH]; simpl; [done|]. specialize (Hf b). lia. }
  intros [->|Hi]%elem_of_cons; simpl.
  - lia.
  - specialize (IH Hi). specialize (Hf a). lia.
Qed.

Lemma flux_link_grows n adj elev dist order i t :
  Forall (Forall (λ k, k < n)) adj →
  order ≡ₚ seq 0 n → sorted_by (riverCompare elev dist) order →
  flows_to (downhillPass n adj elev dist) i t →
  (fluxPass n elev (downhillPass n adj elev dist) order !!! i + 1
   <= fluxPass n elev (downhillPass n adj elev dist) order !!! t)%Z.
Proof.
  intros Hadj Hp Hs Hf.
  pose proof (fluxPass_pos n elev (downhillPass n adj elev dist) order) as Hpos.
  destruct (flows_to_lower _ _ _ _ _ _ Hf) as (Hi & Hin & Hl & Hthr & _).
  assert (t < n) as Ht.
  { pose proof (neighbors_forall adj n i Hadj) as Hall.
    eapply Forall_forall in Hall; [|exact Hin]. tauto. }
  rewrite (flux_recurrence _ _ _ _ order t Hp Hs Ht).
  set (fl := fluxPass _ _ _ order) in *.
  set (dh := downhillPass _ _ _ _) in *.
  pose proof (sumZ_member
    (λ j, if decide (pours_into elev dh j t) then fl !!! j else 0%Z)
    (seq 0 n) i) as Hsum.
  simpl in Hsum. unfold inflow.
  destruct (decide (pours_into elev dh i t)) as [_|Hn].
  - cut (fl !!! i <= sumZ (map (λ j, if decide (pours_into elev dh j t)
                                     then fl !!! j else 0%Z)
                               (seq 0 n)))%Z; [lia|].
    apply Hsum.
    + intros j. destruct (decide _); [by apply flow_nonneg | done].
    + apply elem_of_seq. lia.
  - destruct Hn. split; [|lra].
    unfold flows_to in Hf. by rewrite (list_lookup_total_correct _ _ _ Hf).
Qed.

(** X14.  Whatever the order of processing, no flow volume is below its
    initial 1; in a sorted order, and with at most [2^24] cells, where the
    Float32 array holds every flow volume exactly, the flow grows along
    every drainage link: the target of a cell holds at least the flow of
    the cell plus its own unit. *)
Theorem flux_grows_downstream (w : World) (order : list nat) :
  well_formed w →
  order ≡ₚ seq 0 (cellCount w) →
  sorted_by (riverCompare (elevations w) (distToCoast w)) order →
  length (fluxPass (cellCount w) (elevations w) (downhill w) order)
  = cellCount w ∧
  (∀ c, c < cellCount w →
        (1 <= fluxPass (cellCount w) (elevations w) (downhill w) order !!! c)%Z) ∧
  ((Z.of_nat (cellCount w) <= 2 ^ 24)%Z →
   ∀ i t, flows_to (downhill w) i t →
          (fluxPass (cellCount w) (elevations w) (downhill w) order !!! i + 1
           <= fluxPass (cellCount w) (elevations w) (downhill w) order !!! t)%Z).
Proof.
  intros (_ & _ & Hadj) Hp Hs.
  pose proof (fluxPass_pos (cellCount w) (elevations w) (downhill w) order) as Hpos.
  split_and!.
  - unfold fluxPass. by rewrite flux_loop_length, length_replicate.
  - intros c Hc. rewrite lookup_total_default.
    destruct (_ !! c) as [x|] eqn:E; simpl.
    + eapply Forall_lookup_1 in Hpos; [|exact E]. done.
    + apply lookup_ge_None in E. unfold fluxPass in E.
      rewrite flux_loop_length, length_replicate in E. lia.
  - intros _ i t Hf. by apply flux_link_grows.
Qed.

Lemma total_flow_insert (fl : list Z) (l : list nat) (t : nat) (v : Z) :
  NoDup l → t ∈ l → t < length fl →
  total_flow (<[t := v]> fl) l = (total_flow fl l - fl !!! t + v)%Z.
Proof.
  intros Hnd Ht Hlt. unfold total_flow.
  induction Hnd as [|a l Ha Hnd IH]; [by apply elem_of_nil in Ht|].
  simpl. apply elem_of_cons in Ht as [<-|Ht].
  - rewrite list_lookup_total_insert_eq by done.
    assert (map (λ c, <[t := v]> fl !!! c) l = map (λ c, fl !!! c) l) as ->; [|lia].
    apply map_ext_in. intros c Hc%list_elem_of_In.
    apply list_lookup_total_insert_ne. congruence.
  - rewrite list_lookup_total_insert_ne by congruence.
    rewrite IH by done. lia.
Qed.

Lemma drains_out_pours elev dh i :
  drains_out elev dh i → pours_into elev dh i (Z.to_nat (dh !!! i)).
Proof. intros [H1 H2]. split; [lia | done]. Qed.

Lemma pours_drains_out elev dh i c :
  pours_into elev dh i c → drains_out elev dh i.
Proof. intros [H1 H2]. split; [lia | done]. Qed.

(** Over a list along which every flow is poured on a later cell, the
    cells that pour nothing on end up holding all the flow the list held. *)
Lemma flux_loop_conserved elev dh (fl : list Z) (l : list nat) :
  NoDup l → Forall (λ i, i < length fl) l →
  pours_forward elev dh l → targets_later elev dh l →
  outlet_flow elev dh (foldl (accumulate elev dh) fl l) l = total_flow fl l.
Proof.
  intros Hnd. revert fl.
  induction Hnd as [|i l Hi Hnd IH]; intros fl Hl Hfw Htl; [done|].
  apply Forall_cons in Hl as [Hil Hl]. destruct Hfw as [Hnone Hfw].
  destruct Htl as [Hlater Htl].
  unfold outlet_flow, total_flow. simpl foldl. simpl map. simpl sumZ.
  fold (outlet_flow elev dh (foldl (accumulate elev dh)
                               (accumulate elev dh fl i) l) l).
  fold (total_flow fl l).
  rewrite IH; [| by rewrite accumulate_length | done | done].
  destruct (decide (drains_out elev dh i)) as [Hout|Hout].
  - specialize (Hlater Hout). unfold accumulate. cbv zeta.
    destruct (decide _) as [_|Hn]; [|by destruct Hn].
    rewrite total_flow_insert; [lia | done | done |].
    eapply Forall_forall in Hl; [|exact Hlater]. done.
  - rewrite flux_loop_untouched.
    + unfold accumulate. cbv zeta. destruct (decide _) as [Hy|_]; [by destruct Hout|].
      done.
    + by rewrite accumulate_length.
    + intros j Hj. apply Hnone. by right.
Qed.

Lemma sorted_targets_later n adj elev dist pre l :
  Forall (Forall (λ k, k < n)) adj →
  pre ++ l ≡ₚ seq 0 n → sorted_by (riverCompare elev dist) (pre ++ l) →
  targets_later elev (downhillPass n adj elev dist) l.
Proof.
  intros Hadj. revert pre. induction l as [|i l IH]; intros pre Hp Hs; [done|].
  split.
  - intros Hout. set (dh := downhillPass n adj elev dist) in *.
    assert (i < n) as Hi.
    { assert (i ∈ seq 0 n) as H; [|apply elem_of_seq in H; lia].
      rewrite <- Hp. apply elem_of_app. right. by left. }
    assert (flows_to dh i (Z.to_nat (dh !!! i))) as Hf.
    { unfold flows_to.
      destruct (lookup_lt_is_Some_2 dh i) as [d Hd].
      { unfold dh. by rewrite downhillPass_length. }
      destruct Hout as [Hpos _].
      rewrite (list_lookup_total_correct _ _ _ Hd) in *.
      rewrite Hd. f_equal. lia. }
    destruct (flows_to_lower _ _ _ _ _ _ Hf) as (_ & Hin & Hl & _).
    assert (Z.to_nat (dh !!! i) ∈ pre ++ i :: l) as Ht.
    { rewrite Hp. apply elem_of_seq. split; [lia|]. simpl.
      pose proof (neighbors_forall adj n i Hadj) as Hall.
      eapply Forall_forall in Hall; [|exact Hin]. tauto. }
    apply elem_of_app in Ht as [Ht|Ht].
    + exfalso. apply riverCompare_lower in Hl.
      pose proof (StronglySorted_app_1_elem_of _ _ _ _ i Hs Ht ltac:(left)) as H.
      simpl in H. lra.
    + apply elem_of_cons in Ht as [E|Ht]; [|done].
      rewrite E in Hl. by apply lower_irrefl in Hl.
  - apply (IH (pre ++ [i])); by rewrite <- (assoc_L (++)).
Qed.

Lemma total_flow_ones (n : nat) (l : list nat) :
  Forall (λ i, i < n) l → total_flow (replicate n 1%Z) l = Z.of_nat (length l).
Proof.
  unfold total_flow. induction 1 as [|i l Hi _ IH]; [done|].
  simpl. rewrite IH.
  rewrite (list_lookup_total_correct _ _ 1%Z) by (by apply lookup_replicate_2).
  lia.
Qed.

Lemma flux_conserved_any n adj elev dist order :
  Forall (Forall (λ k, k < n)) adj →
  order ≡ₚ seq 0 n → sorted_by (riverCompare elev dist) order →
  outlet_flow elev (downhillPass n adj elev dist)
    (fluxPass n elev (downhillPass n adj elev dist) order) (seq 0 n)
  = Z.of_nat n.
Proof.
  intros Hadj Hp Hs.
  assert (Forall (λ i, i < n) order) as Hn.
  { apply Forall_forall. intros i Hi. rewrite Hp in Hi.
    apply elem_of_seq in Hi. lia. }
  unfold outlet_flow. rewrite <- (sumZ_perm _ _ _ Hp).
  fold (outlet_flow elev (downhillPass n adj elev dist)
          (fluxPass n elev (downhillPass n adj elev dist) order) order).
  unfold fluxPass. rewrite flux_loop_conserved.
  - rewrite total_flow_ones by done. by rewrite Hp, length_seq.
  - rewrite Hp. apply NoDup_seq.
  - by rewrite length_replicate.
  - by apply sorted_pours_forward.
  - by apply (sorted_targets_later n adj elev dist []).
Qed.

(** X15.  With at most [2^24] cells, where the Float32 array holds every
    flow volume exactly, the accumulation loses and invents no flow: in a
    sorted order, the flow volumes of the cells that pour nothing on (no
    target, or not above sea level) add up to the number of cells. *)
Theorem flux_conserved (w : World) (order : list nat) :
  well_formed w →
  (Z.of_nat (cellCount w) <= 2 ^ 24)%Z →
  order ≡ₚ seq 0 (cellCount w) →
  sorted_by (riverCompare (elevations w) (distToCoast w)) order →
  outlet_flow (elevations w) (downhill w)
    (fluxPass (cellCount w) (elevations w) (downhill w) order)
    (seq 0 (cellCount w))
  = Z.of_nat (cellCount w).
Proof.
  intros (_ & _ & Hadj) _ Hp Hs. by apply flux_conserved_any.
Qed.

Lemma flux_bound n adj elev dist order m c :
  Forall (Forall (λ k, k < n)) adj →
  order ≡ₚ seq 0 n → sorted_by (riverCompare elev dist) order →
  c < n → rank elev dist n c ≤ m →
  (fluxPass n elev (downhillPass n adj elev dist) order !!! c <= Z.of_nat n)%Z.
Proof.
  intros Hadj Hp Hs. revert c.
  assert (∀ c, c < n →
            ¬ drains_out elev (downhillPass n adj elev dist) c →
            (fluxPass n elev (downhillPass n adj elev dist) order !!! c
             <= Z.of_nat n)%Z) as Houtlet.
  { intros c Hc Hno. rewrite <- (flux_conserved_any n adj elev dist order) by done.
    set (fl := fluxPass _ _ _ order). set (dh := downhillPass _ _ _ _) in *.
    pose proof (sumZ_member
      (λ j, if decide (drains_out elev dh j) then 0%Z else fl !!! j)
      (seq 0 n) c) as Hsum.
    simpl in Hsum. destruct (decide (drains_out elev dh c)) as [|_]; [done|].
    apply Hsum.
    - intros j. destruct (decide _); [done|].
      apply flow_nonneg, fluxPass_pos.
    - apply elem_of_seq. lia. }
  assert (∀ c, c < n → drains_out elev (downhillPass n adj elev dist) c →
               ∃ t, flows_to (downhillPass n adj elev dist) c t ∧ t < n ∧
                    rank elev dist n t < rank elev dist n c) as Hlink.
  { intros c Hc [Hpos _].
    destruct (downhill_link_cases n adj elev dist c Hadj Hc) as [E|H]; [|done].
    rewrite (list_lookup_total_correct _ _ _ E) in Hpos. lia. }
  induction m as [|m IH]; intros c Hc Hr.
  - destruct (decide (drains_out elev (downhillPass n adj elev dist) c)) as [Ho|Ho];
      [|by apply Houtlet].
    destruct (Hlink c Hc Ho) as (t & _ & _ & Hrk). lia.
  - destruct (decide (drains_out elev (downhillPass n adj elev dist) c)) as [Ho|Ho];
      [|by apply Houtlet].
    destruct (Hlink c Hc Ho) as (t & Hf & Ht & Hrk).
    pose proof (flux_link_grows n adj elev dist order c t Hadj Hp Hs Hf).
    specialize (IH t Ht ltac:(lia)). lia.
Qed.

Lemma filter_none {A} (P : A → Prop) `{!∀ x, Decision (P x)} (l : list A) :
  Forall (λ x, ¬ P x) l → filter P l = [].
Proof.
  induction 1 as [|x l Hx _ IH]; [done|].
  rewrite filter_cons. by destruct (decide (P x)).
Qed.

(** X16.  With at most [2^24] cells, where the Float32 array holds every
    flow volume exactly, no cell holds more flow than there are cells; and
    a world of at most 50 cells, the river threshold, has no river
    segment. *)
Theorem flux_at_most_cells (w : World) :
  well_formed w →
  ((Z.of_nat (cellCount w) <= 2 ^ 24)%Z →
   ∀ c, c < cellCount w → (flux w !!! c <= Z.of_nat (cellCount w))%Z) ∧
  (cellCount w ≤ 50 → generateRivers w = []).
Proof.
  intros (_ & _ & Hadj). destruct (sortedIndices_sorted_perm w) as [Hp Hs].
  assert (∀ c, c < cellCount w → (flux w !!! c <= Z.of_nat (cellCount w))%Z)
    as Hb.
  { intros c Hc. eapply flux_bound; eauto. }
  split; [by intros _|]. intros Hsmall.
  unfold generateRivers, riverSegments. rewrite emit_loop. simpl.
  rewrite filter_none; [done|].
  apply Forall_forall. intros c Hc%elem_of_seq (Hflux & _).
  specialize (Hb c ltac:(lia)). unfold RIVER_THRESHOLD in Hflux.
  revert Hb Hsmall Hflux. generalize (cellCount w). intros n. lia.
Qed.

(** X17.  The returned array holds five numbers for each river cell and
    nothing else. *)
Theorem river_output_length (w : World) :
  length (generateRivers w)
  = 5 * length (river_cells w (downhill w) (flux w)).
Proof.
  unfold generateRivers, riverSegments, river_cells. rewrite emit_loop. simpl.
  induction (filter _ _) as [|i l IH]; [done|].
  simpl. rewrite IH. lia.
Qed.

(** X18.  Every river segment starts at a cell above the 0.05 threshold
    and ends at a different cell, one of its cached neighbours, which lies
    below it and, with at most [2^24] cells, where the Float32 array holds
    every flow volume exactly, holds more flow. *)
Theorem river_segment_ends (w : World) (i : nat) :
  well_formed w →
  i ∈ river_cells w (downhill w) (flux w) →
  (1 # 20 < elevations w !!! i)%Q ∧
  ∃ t, downhill w !!! i = Z.of_nat t ∧ t < cellCount w ∧ t ≠ i ∧
       edge (adjacency w) i t ∧
       lower (elevations w) (distToCoast w) t i ∧
       ((Z.of_nat (cellCount w) <= 2 ^ 24)%Z →
        (flux w !!! i < flux w !!! t)%Z).
Proof.
  intros (_ & _ & Hadj). destruct (sortedIndices_sorted_perm w) as [Hp Hs].
  unfold river_cells. rewrite list_elem_of_filter, elem_of_seq.
  intros ((_ & _ & Hpos) & _ & Hi). simpl in Hi.
  assert (flows_to (downhill w) i (Z.to_nat (downhill w !!! i))) as Hf.
  { unfold flows_to.
    destruct (lookup_lt_is_Some_2 (downhill w) i) as [d Hd].
    { unfold downhill. by rewrite downhillPass_length. }
    rewrite (list_lookup_total_correct _ _ _ Hd) in *.
    rewrite Hd. f_equal. lia. }
  destruct (flows_to_lower (cellCount w) (adjacency w) (elevations w)
              (distToCoast w) _ _ Hf) as (_ & Hin & Hl & Hthr & _).
  split; [done|]. exists (Z.to_nat (downhill w !!! i)).
  split_and!; [lia | by eapply neighbors_lt | | done | done |].
  - intros E. rewrite E in Hl. by apply lower_irrefl in Hl.
  - intros _.
    pose proof (flux_link_grows (cellCount w) (adjacency w) (elevations w)
                  (distToCoast w) (sortedIndices w) _ _ Hadj Hp Hs Hf) as Hg.
    change (flux w !!! i + 1 <= flux w !!! Z.to_nat (downhill w !!! i))%Z in Hg.
    lia.
Qed.

(** ** Smoothing keeps the range of the field *)

Lemma smooth_sum_within (current : list Q) (lo hi s : Q) (ns : list nat) :
  field_within lo hi current →
  Forall (λ n, n < length current) ns →
  (s + inject_Z (Z.of_nat (length ns)) * lo
   <= foldl (λ sum n, sum + current !!! n) s ns)%Q ∧
  (foldl (λ sum n, sum + current !!! n) s ns
   <= s + inject_Z (Z.of_nat (length ns)) * hi)%Q.
Proof.
  intros Hc Hns. revert s.
  induction Hns as [|n ns Hn _ IH]; intros s; simpl foldl.
  { simpl. split; ring_simplify; lra. }
  destruct (IH (s + current !!! n)%Q) as [IH1 IH2].
  destruct (lookup_lt_is_Some_2 _ _ Hn) as [x Hx].
  rewrite (list_lookup_total_correct _ _ _ Hx) in *.
  eapply Forall_lookup_1 in Hc; [|exact Hx]. simpl in Hc.
  change (length (n :: ns)) with (S (length ns)).
  rewrite Nat2Z.inj_succ, <- Z.add_1_r, inject_Z_plus.
  change (inject_Z 1) with 1%Q.
  set (m := inject_Z (Z.of_nat (length ns))) in *.
  split; ring_simplify; ring_simplify in IH1; ring_simplify in IH2; lra.
Qed.

Lemma smoothCell_within (adj : list (list nat)) (current : list Q) lo hi i :
  field_within lo hi current → i < length current →
  Forall (λ n, n < length current) (adj !!! i) →
  (lo <= smoothCell adj current i ∧ smoothCell adj current i <= hi)%Q.
Proof.
  intros Hc Hi Hns. unfold smoothCell. cbv zeta.
  destruct (lookup_lt_is_Some_2 _ _ Hi) as [x Hx].
  rewrite (list_lookup_total_correct _ _ _ Hx).
  destruct (smooth_sum_within current lo hi x (adj !!! i) Hc Hns) as [H1 H2].
  eapply Forall_lookup_1 in Hc; [|exact Hx]. simpl in Hc.
  rewrite Nat2Z.inj_add, inject_Z_plus. change (inject_Z (Z.of_nat 1)) with 1%Q.
  set (m := inject_Z (Z.of_nat (length (adj !!! i)))) in *.
  assert (0 <= m)%Q as Hpos.
  { unfold m. change 0%Q with (inject_Z 0). rewrite <- Zle_Qle. lia. }
  split.
  - apply Qle_shift_div_l; [lra|]. ring_simplify. ring_simplify in H1. lra.
  - apply Qle_shift_div_r; [lra|]. ring_simplify. ring_simplify in H2. lra.
Qed.

Lemma smoothPass_within n adj (current next : list Q) lo hi :
  length current = n → length next = n →
  Forall (Forall (λ m, m < n)) adj →
  field_within lo hi current →
  field_within lo hi (smoothPass n adj current next).
Proof.
  intros Hc Hn Hadj Hw. apply Forall_lookup_2. intros i x Hx.
  pose proof (lookup_lt_Some _ _ _ Hx) as Hi.
  rewrite smoothPass_length in Hi.
  rewrite smoothPass_lookup in Hx by lia. injection Hx as <-.
  apply smoothCell_within; [done | lia |].
  rewrite lookup_total_default. destruct (adj !! i) as [ns|] eqn:E; simpl.
  - rewrite Hc. by eapply Forall_lookup_1 in Hadj.
  - constructor.
Qed.

Lemma smoothLoop_within k n adj (current next : list Q) lo hi :
  length current = n → length next = n →
  Forall (Forall (λ m, m < n)) adj →
  field_within lo hi current →
  field_within lo hi (smoothLoop k n adj current next).
Proof.
  revert current next. induction k as [|k IH]; intros current next ????; simpl.
  { done. }
  apply IH; try done.
  - by rewrite smoothPass_length.
  - by apply smoothPass_within.
Qed.

(** X19.  Smoothing creates no new extreme: a field whose values all lie
    between [lo] and [hi] has all its values between [lo] and [hi] after
    [smoothMap], for every number of iterations. *)
Theorem smoothMap_within (w : World) (data : list Q) (iterations : nat)
    (lo hi : Q) :
  neighbors_in_range w →
  length data = cellCount w →
  field_within lo hi data →
  field_within lo hi (smoothMap w data iterations).
Proof.
  intros Hadj Hlen Hw. unfold smoothMap. rewrite Hlen.
  apply smoothLoop_within; try done. by rewrite length_replicate.
Qed.

Lemma smoothMap_within_witness :
  field_within 0 1 (smoothMap pit_world [0; 1; 0; 1; 1 # 2]%Q 2).
Proof.
  apply (smoothMap_within pit_world [0; 1; 0; 1; 1 # 2]%Q 2 0 1).
  - apply pit_world_well_formed.
  - reflexivity.
  - repeat constructor; by vm_compute.
Defined.

(** ** Terrain synthesis: the range of the noise sums *)

Lemma halves_range (k : nat) : (0 < halves k ∧ halves k <= 1)%Q.
Proof. induction k as [|k [IH1 IH2]]; simpl; split; lra. Qed.

Lemma reach_closed (k : nat) (a : Q) : (reach k a == 2 * a * (1 - halves k))%Q.
Proof.
  revert a. induction k as [|k IH]; intros a; simpl; [ring|].
  rewrite IH. ring.
Qed.

Section terrain_facts.
Variable noise2D : Q → Q → Q.
Hypothesis noise_range : ∀ a b, (-1 <= noise2D a b ∧ noise2D a b <= 1)%Q.

Lemma fbm_loop_reach (k : nat) (x y scale ox oy v a f : Q) :
  (0 <= a)%Q →
  (v - reach k a <= fbm_loop noise2D k x y scale ox oy v a f ∧
   fbm_loop noise2D k x y scale ox oy v a f <= v + reach k a)%Q.
Proof.
  revert v a f. induction k as [|k IH]; intros v a f Ha; simpl; [split; lra|].
  set (n := noise2D _ _). destruct (noise_range ((x + ox) / scale * f)
                                      ((y + oy) / scale * f)) as [Hn1 Hn2].
  fold n in Hn1, Hn2.
  destruct (IH (v + n * a)%Q (a * (1 # 2))%Q (f * 2)%Q ltac:(lra)) as [H1 H2].
  assert (- a <= n * a ∧ n * a <= a)%Q as [Hna1 Hna2] by (split; nra).
  split; lra.
Qed.

Lemma fbm_range (x y : Q) (octaves : nat) (scale ox oy : Q) :
  (- (1 - halves octaves) <= fbm noise2D x y octaves scale ox oy ∧
   fbm noise2D x y octaves scale ox oy <= 1 - halves octaves)%Q.
Proof.
  unfold fbm.
  destruct (fbm_loop_reach octaves x y scale ox oy 0 (1 # 2) 1 ltac:(lra))
    as [H1 H2].
  rewrite reach_closed in H1, H2. split; lra.
Qed.

Lemma terrainCell_length seed (w : World) (st : list Q * list Q) i :
  length (terrainCell noise2D seed w st i).1 = length st.1 ∧
  length (terrainCell noise2D seed w st i).2 = length st.2.
Proof. unfold terrainCell. cbv zeta. cbn [fst snd]. by rewrite !length_insert. Qed.

Lemma terrainCell_other seed (w : World) (st : list Q * list Q) i j :
  j ≠ i →
  (terrainCell noise2D seed w st i).1 !! j = st.1 !! j ∧
  (terrainCell noise2D seed w st i).2 !! j = st.2 !! j.
Proof.
  intros Hne. unfold terrainCell. cbv zeta. cbn [fst snd].
  by rewrite !list_lookup_insert_ne.
Qed.

Lemma terrainCell_written seed (w : World) (st : list Q * list Q) i :
  i < length st.1 → i < length st.2 →
  ∃ e m, (terrainCell noise2D seed w st i).1 !! i = Some e ∧
         (terrainCell noise2D seed w st i).2 !! i = Some m ∧
         (- (179 # 160) <= e ∧ e <= 11 # 10)%Q ∧
         (- (15 # 16) <= m ∧ m <= 23 # 16)%Q ∧
         ((e < 0)%Q → (- (7 # 16) <= m)%Q) ∧
         ((0 <= e)%Q → (m <= 15 # 16)%Q).
Proof.
  intros H1 H2. unfold terrainCell. cbv zeta. cbn [fst snd].
  set (sE := (Qmin (width w) (height w) * _)%Q).
  set (sM := (Qmin (width w) (height w) * _)%Q).
  set (x := points w !!! (i * 2)). set (y := points w !!! (i * 2 + 1)).
  set (h5 := fbm noise2D x y 5 sE _ _).
  set (h4 := fbm noise2D x y 4 (sE / 4) _ _).
  set (m4 := fbm noise2D x y 4 sM _ _).
  assert (halves 5 == 1 # 32)%Q as E5 by reflexivity.
  assert (halves 4 == 1 # 16)%Q as E4 by reflexivity.
  destruct (fbm_range x y 5 sE (offsetElevationX seed) (offsetElevationY seed))
    as [A1 A2]. fold h5 in A1, A2. rewrite E5 in A1, A2.
  destruct (fbm_range x y 4 (sE / 4) (offsetElevationX seed + 5000)
              (offsetElevationY seed)) as [B1 B2].
  fold h4 in B1, B2. rewrite E4 in B1, B2.
  destruct (fbm_range x y 4 sM (offsetMoistureX seed) (offsetMoistureY seed))
    as [C1 C2]. fold m4 in C1, C2. rewrite E4 in C1, C2.
  assert (0 <= Qabs h4 ∧ Qabs h4 <= 15 # 16)%Q as [D1 D2].
  { split; [apply Qabs_nonneg|]. apply Qabs_Qle_condition. split; lra. }
  rewrite list_lookup_total_insert_eq by done.
  rewrite !list_lookup_insert_eq by done.
  destruct (decide (h5 + Qabs h4 * (3 # 10) - (15 # 100) < 0)%Q) as [Hneg|Hpos].
  - eexists _, _. split_and!; try done; try lra.
  - eexists _, _. split_and!; try done; try lra.
Qed.

Lemma terrain_loop seed (w : World) (elev moist : list Q) (m : nat) :
  m ≤ length elev → length moist = length elev →
  let st := foldl (terrainCell noise2D seed w) (elev, moist) (seq 0 m) in
  length st.1 = length elev ∧ length st.2 = length elev ∧
  ∀ i, i < m →
    ∃ e mo, st.1 !! i = Some e ∧ st.2 !! i = Some mo ∧
            (- (179 # 160) <= e ∧ e <= 11 # 10)%Q ∧
            (- (15 # 16) <= mo ∧ mo <= 23 # 16)%Q ∧
            ((e < 0)%Q → (- (7 # 16) <= mo)%Q) ∧
            ((0 <= e)%Q → (mo <= 15 # 16)%Q).
Proof.
  intros Hm Hl. cbv zeta. induction m as [|m IH].
  { simpl. split_and!; [done | done | lia]. }
  rewrite foldl_seq_S. destruct (IH ltac:(lia)) as (L1 & L2 & Hcells).
  set (st := foldl _ _ (seq 0 m)) in *.
  destruct (terrainCell_length seed w st m) as [L1' L2'].
  split_and!; [congruence | congruence |].
  intros i Hi. destruct (decide (i = m)) as [->|Hne].
  - apply terrainCell_written; lia.
  - destruct (terrainCell_other seed w st m i Hne) as [-> ->].
    apply Hcells. lia.
Qed.

(** X20.  With a noise function that stays in [[-1, 1]], [fbm] over [k]
    octaves stays within [1 - 2^-k] of 0, whatever the position, scale and
    offsets. *)
Theorem fbm_bounded (x y : Q) (octaves : nat) (scale offsetX offsetY : Q) :
  (- (1 - halves octaves) <= fbm noise2D x y octaves scale offsetX offsetY ∧
   fbm noise2D x y octaves scale offsetX offsetY <= 1 - halves octaves)%Q ∧
  (0 < halves octaves)%Q.
Proof. split; [apply fbm_range | apply halves_range]. Qed.

Lemma generateTerrain_fields (seed : TerrainSeed) (w : World) :
  length (elevations w) = cellCount w →
  length (moisture w) = cellCount w →
  field_within (- (179 # 160)) (11 # 10)
               (elevations (generateTerrain noise2D seed w)) ∧
  field_within (- (15 # 16)) (23 # 16)
               (moisture (generateTerrain noise2D seed w)) ∧
  (∀ i, i < cellCount w →
        ((elevations (generateTerrain noise2D seed w) !!! i < 0)%Q →
         (- (7 # 16) <= moisture (generateTerrain noise2D seed w) !!! i)%Q) ∧
        ((0 <= elevations (generateTerrain noise2D seed w) !!! i)%Q →
         (moisture (generateTerrain noise2D seed w) !!! i <= 15 # 16)%Q)) ∧
  length (elevations (generateTerrain noise2D seed w)) = cellCount w ∧
  length (moisture (generateTerrain noise2D seed w)) = cellCount w ∧
  points (generateTerrain noise2D seed w) = points w ∧
  adjacency (generateTerrain noise2D seed w) = adjacency w ∧
  rivers (generateTerrain noise2D seed w) = rivers w.
Proof.
  intros He Hm. unfold generateTerrain. cbv zeta. simpl.
  destruct (terrain_loop seed w (elevations w) (moisture w) (cellCount w))
    as (L1 & L2 & Hcells); [lia | lia |].
  set (st := foldl _ _ _) in *.
  split_and!; try done; try lia.
  - apply Forall_lookup_2. intros i x Hx.
    destruct (Hcells i) as (e & mo & E1 & _ & Hb & _).
    { apply lookup_lt_Some in Hx. lia. }
    by simplify_eq.
  - apply Forall_lookup_2. intros i x Hx.
    destruct (Hcells i) as (e & mo & _ & E2 & _ & Hb & _).
    { apply lookup_lt_Some in Hx. lia. }
    by simplify_eq.
  - intros i Hi. destruct (Hcells i Hi) as (e & mo & E1 & E2 & _ & _ & H1 & H2).
    by rewrite (list_lookup_total_correct _ _ _ E1),
               (list_lookup_total_correct _ _ _ E2).
Qed.

(** X21.  With such a noise function, [generateTerrain] writes at every
    cell an elevation from [-1.11875] to [9227469 / 8388608], the Float32
    nearest to 1.1, which the stored value can reach, and a moisture in
    [[-0.9375, 1.4375]]; the moisture is at least [-0.4375] where the
    elevation is negative and at most [0.9375] elsewhere; nothing but the
    two fields is written. *)
Theorem generateTerrain_range (seed : TerrainSeed) (w : World) :
  length (elevations w) = cellCount w →
  length (moisture w) = cellCount w →
  field_within (- (179 # 160)) (9227469 # 8388608)
               (elevations (generateTerrain noise2D seed w)) ∧
  field_within (- (15 # 16)) (23 # 16)
               (moisture (generateTerrain noise2D seed w)) ∧
  (∀ i, i < cellCount w →
        ((elevations (generateTerrain noise2D seed w) !!! i < 0)%Q →
         (- (7 # 16) <= moisture (generateTerrain noise2D seed w) !!! i)%Q) ∧
        ((0 <= elevations (generateTerrain noise2D seed w) !!! i)%Q →
         (moisture (generateTerrain noise2D seed w) !!! i <= 15 # 16)%Q)) ∧
  length (elevations (generateTerrain noise2D seed w)) = cellCount w ∧
  length (moisture (generateTerrain noise2D seed w)) = cellCount w ∧
  points (generateTerrain noise2D seed w) = points w ∧
  adjacency (generateTerrain noise2D seed w) = adjacency w ∧
  rivers (generateTerrain noise2D seed w) = rivers w.
Proof.
  intros He Hm. destruct (generateTerrain_fields seed w He Hm) as (H1 & H2).
  split; [|exact H2]. eapply Forall_impl; [exact H1|].
  cbv beta. intros x [Hlo Hhi]. split; [exact Hlo | lra].
Qed.

End terrain_facts.

(** ** The renderer: colours and river lines *)

Module MapViewFacts.
Import MapView.

Ltac color_cases :=
  unfold getBiomeColor, OCEAN, COAST, SAND, GRASS, LAND, FOREST, DESERT, SWAMP,
         MOUNTAIN_LOW, MOUNTAIN_HIGH, SNOW, RIVER;
  repeat destruct (decide _).

Lemma biome_color_decimal (height moisture : Q) :
  (getBiomeColor height moisture = OCEAN ↔ (height < 0)%Q) ∧
  (getBiomeColor height moisture = COAST ↔
   (0 <= height)%Q ∧ (height < 5 # 100)%Q) ∧
  (getBiomeColor height moisture = SNOW ↔ (8 # 10 < height)%Q) ∧
  getBiomeColor height moisture ≠ RIVER.
Proof.
  split_and!; [split | split | split |]; color_cases;
    try (intros [? ?]); try intros ?; try split; try lra; try done.
Qed.

(** A Float32 of at least [2^(k+24) / 2^149] is a multiple of
    [2^(k+1) / 2^149]. *)
Lemma float32_grid (m e k : Z) :
  (Z.abs m < 2 ^ 24)%Z → (0 <= e)%Z → (0 <= k)%Z →
  (2 ^ (k + 24) <= m * 2 ^ e)%Z →
  ∃ M : Z, (m * 2 ^ e = M * 2 ^ (k + 1))%Z.
Proof.
  intros Hm He Hk Hbig.
  assert (0 < 2 ^ e)%Z as Hpe by (apply Z.pow_pos_nonneg; lia).
  assert (0 < 2 ^ k)%Z as Hpk by (apply Z.pow_pos_nonneg; lia).
  rewrite Z.pow_add_r in Hbig by lia.
  destruct (Z_le_gt_dec e k) as [Hle|Hgt].
  - pose proof (Z.pow_le_mono_r 2 e k ltac:(lia) Hle) as Hmono.
    exfalso. nia.
  - exists (m * 2 ^ (e - k - 1))%Z.
    rewrite <- Z.mul_assoc, <- Z.pow_add_r by lia. do 2 f_equal. lia.
Qed.

(** No Float32 lies from 0.05 up to the double nearest to 0.05. *)
Lemma float32_not_at_0_05 (h : Q) :
  is_float32 h → (5 # 100 <= h)%Q → (h < double_0_05)%Q → False.
Proof.
  intros (m & e & Hm & He & Heq) Hlo Hhi. rewrite Heq in Hlo, Hhi.
  unfold Qle, Qlt, double_0_05 in *. cbn [Qnum Qden] in *.
  rewrite Z2Pos.id in * by (apply Z.pow_pos_nonneg; lia).
  destruct (float32_grid m e 120 Hm He ltac:(lia)) as [M HM].
  { change (120 + 24)%Z with 144%Z.
    change (2 ^ 144)%Z with 22300745198530623141535718272648361505980416%Z.
    change (2 ^ 149)%Z
      with 713623846352979940529142984724747568191373312%Z in Hlo. lia. }
  rewrite HM in Hlo, Hhi. change (120 + 1)%Z with 121%Z in *.
  change (2 ^ 121)%Z with 2658455991569831745807614120560689152%Z in *.
  change (2 ^ 149)%Z
    with 713623846352979940529142984724747568191373312%Z in *.
  lia.
Qed.

(** No Float32 lies above 0.8 and up to the double nearest to 0.8. *)
Lemma float32_not_at_0_8 (h : Q) :
  is_float32 h → (8 # 10 < h)%Q → (h <= double_0_8)%Q → False.
Proof.
  intros (m & e & Hm & He & Heq) Hlo Hhi. rewrite Heq in Hlo, Hhi.
  unfold Qle, Qlt, double_0_8 in *. cbn [Qnum Qden] in *.
  rewrite Z2Pos.id in * by (apply Z.pow_pos_nonneg; lia).
  destruct (float32_grid m e 124 Hm He ltac:(lia)) as [M HM].
  { change (124 + 24)%Z with 148%Z.
    change (2 ^ 148)%Z with 356811923176489970264571492362373784095686656%Z.
    change (2 ^ 149)%Z
      with 713623846352979940529142984724747568191373312%Z in Hlo. lia. }
  rewrite HM in Hlo, Hhi. change (124 + 1)%Z with 125%Z in *.
  change (2 ^ 125)%Z with 42535295865117307932921825928971026432%Z in *.
  change (2 ^ 149)%Z
    with 713623846352979940529142984724747568191373312%Z in *.
  lia.
Qed.

(** X22.  On a Float32 height, as [draw] passes it, [getBiomeColor]
    returns the ocean colour exactly for a negative height, the coast
    colour exactly for a height from 0 and below the double 0.05, the snow
    colour exactly for a height above the double 0.8, whatever the
    moisture, and never the river colour. *)
Theorem biome_color_classes (height moisture : Q) :
  is_float32 height →
  (getBiomeColor height moisture = OCEAN ↔ (height < 0)%Q) ∧
  (getBiomeColor height moisture = COAST ↔
   (0 <= height)%Q ∧ (height < double_0_05)%Q) ∧
  (getBiomeColor height moisture = SNOW ↔ (double_0_8 < height)%Q) ∧
  getBiomeColor height moisture ≠ RIVER.
Proof.
  intros Hf.
  destruct (biome_color_decimal height moisture) as (H1 & H2 & H3 & H4).
  split_and!; [exact H1 | | | exact H4].
  - rewrite H2. split; intros [H0 Hlt]; (split; [exact H0|]).
    + unfold double_0_05. lra.
    + destruct (Qlt_le_dec height (5 # 100)) as [?|Hge]; [done|].
      destruct (float32_not_at_0_05 height Hf Hge Hlt).
  - rewrite H3. split; intros Hgt.
    + destruct (Qlt_le_dec double_0_8 height) as [?|Hle]; [done|].
      destruct (float32_not_at_0_8 height Hf Hgt Hle).
    + unfold double_0_8 in Hgt. lra.
Qed.

Lemma biome_color_classes_witness :
  (getBiomeColor (1 # 2) 0 = OCEAN ↔ (1 # 2 < 0)%Q) ∧
  (getBiomeColor (1 # 2) 0 = COAST ↔
   (0 <= 1 # 2)%Q ∧ (1 # 2 < double_0_05)%Q) ∧
  (getBiomeColor (1 # 2) 0 = SNOW ↔ (double_0_8 < 1 # 2)%Q) ∧
  getBiomeColor (1 # 2) 0 ≠ RIVER.
Proof.
  apply (biome_color_classes (1 # 2) 0).
  exists 1%Z, 148%Z. split_and!; [by vm_compute | by vm_compute | by vm_compute].
Defined.

(** X23.  A cell that a river segment starts at is drawn neither in the
    ocean colour nor in the coast colour, whatever its moisture. *)
Theorem river_cells_drawn_as_land (w : World) (i : nat) (moisture : Q) :
  well_formed w →
  i ∈ river_cells w (downhill w) (flux w) →
  getBiomeColor (elevations w !!! i) moisture ≠ OCEAN ∧
  getBiomeColor (elevations w !!! i) moisture ≠ COAST.
Proof.
  intros (_ & _ & Hadj).
  unfold river_cells. rewrite list_elem_of_filter, elem_of_seq.
  intros ((_ & _ & Hpos) & _ & Hi). simpl in Hi.
  assert (1 # 20 < elevations w !!! i)%Q as Hthr.
  { assert (flows_to (downhill w) i (Z.to_nat (downhill w !!! i))) as Hf.
    { unfold flows_to.
      destruct (lookup_lt_is_Some_2 (downhill w) i) as [d Hd].
      { unfold downhill. by rewrite downhillPass_length. }
      rewrite (list_lookup_total_correct _ _ _ Hd) in *.
      rewrite Hd. f_equal. lia. }
    by destruct (flows_to_lower (cellCount w) (adjacency w) (elevations w)
                   (distToCoast w) _ _ Hf) as (_ & _ & _ & ? & _). }
  split; color_cases; try lra; done.
Qed.

Lemma clampChannel_range (v : Q) :
  (0 <= clampChannel v ∧ clampChannel v <= 255)%Q.
Proof.
  unfold clampChannel. cbv zeta.
  destruct (decide (0 < v)%Q); destruct (decide (_ < 255)%Q); split; lra.
Qed.

Lemma toInt32_range (v : Q) :
  (0 <= v ∧ v <= 255)%Q → (0 <= toInt32 v <= 255)%Z.
Proof.
  intros [H0 H1]. unfold toInt32. destruct v as [n d].
  unfold Qle in H0, H1. simpl in *.
  rewrite Z.quot_div_nonneg by lia. split.
  - apply Z.div_pos; lia.
  - apply Z.div_le_upper_bound; lia.
Qed.

Lemma channel_range (c : Z) (percent : Q) :
  (0 <= toInt32 (clampChannel (inject_Z c + inject_Z c * percent)) <= 255)%Z.
Proof. apply toInt32_range, clampChannel_range. Qed.

Lemma pack_range (r g b : Z) :
  (0 <= r <= 255)%Z → (0 <= g <= 255)%Z → (0 <= b <= 255)%Z →
  (0 <= Z.lor (Z.lor (Z.shiftl r 16) (Z.shiftl g 8)) b < 2 ^ 24)%Z.
Proof.
  intros Hr Hg Hb.
  assert (∀ a n, (0 <= a <= 255)%Z → (0 <= n <= 16)%Z →
                 (0 <= Z.shiftl a n)%Z ∧ (Z.log2 (Z.shiftl a n) < 24)%Z) as Hsh.
  { intros a n Ha Hn. split; [apply Z.shiftl_nonneg; lia|].
    destruct (decide (a = 0%Z)) as [->|Hne].
    - rewrite Z.shiftl_0_l. simpl. lia.
    - rewrite Z.log2_shiftl by lia.
      assert (Z.log2 a <= Z.log2 255)%Z by (apply Z.log2_le_mono; lia).
      change (Z.log2 255) with 7%Z in *. lia. }
  destruct (Hsh r 16%Z Hr ltac:(lia)) as [R0 R1].
  destruct (Hsh g 8%Z Hg ltac:(lia)) as [G0 G1].
  destruct (Hsh b 0%Z Hb ltac:(lia)) as [B0 B1].
  rewrite Z.shiftl_0_r in B0, B1.
  assert (0 <= Z.lor (Z.shiftl r 16) (Z.shiftl g 8))%Z as RG0
    by (apply Z.lor_nonneg; lia).
  assert (0 <= Z.lor (Z.lor (Z.shiftl r 16) (Z.shiftl g 8)) b)%Z as RGB0
    by (apply Z.lor_nonneg; lia).
  split; [done|].
  destruct (decide (Z.lor (Z.lor (Z.shiftl r 16) (Z.shiftl g 8)) b = 0%Z)) as [->|Hne];
    [done|].
  apply Z.log2_lt_pow2; [lia|].
  rewrite !Z.log2_lor by lia. lia.
Qed.

(** X24.  Whatever the colour and the factor, [adjustColor] returns a
    24-bit colour. *)
Theorem adjustColor_range (color : Z) (percent : Q) :
  (0 <= adjustColor color percent < 2 ^ 24)%Z.
Proof. unfold adjustColor. cbv zeta. apply pack_range; apply channel_range. Qed.

Lemma channel_kept (c : Z) :
  (0 <= c <= 255)%Z →
  toInt32 (clampChannel (inject_Z c + inject_Z c * 0)) = c.
Proof.
  intros Hc. unfold clampChannel. cbv zeta.
  destruct (decide (0 < inject_Z c + inject_Z c * 0)%Q) as [H0|H0].
  - destruct (decide (_ < 255)%Q) as [H1|H1].
    + unfold toInt32. cbn. rewrite Z.quot_1_r. lia.
    + unfold Qlt in H1. cbn in H1. unfold toInt32. cbn.
      rewrite Z.quot_1_r. lia.
  - unfold Qlt in H0. cbn in H0.
    destruct (decide (0 < 255)%Q) as [_|H1]; [|by destruct H1].
    unfold toInt32. cbn. rewrite ?Z.quot_1_r. lia.
Qed.

Lemma channels_recombine (c : Z) :
  (0 <= c < 2 ^ 24)%Z →
  Z.lor (Z.lor (Z.shiftl (Z.land (Z.shiftr c 16) 0xFF) 16)
               (Z.shiftl (Z.land (Z.shiftr c 8) 0xFF) 8))
        (Z.land c 0xFF) = c.
Proof.
  intros Hc. apply Z.bits_inj'. intros n Hn.
  change 0xFF%Z with (Z.ones 8).
  rewrite !Z.lor_spec, !Z.shiftl_spec, !Z.land_spec by done.
  assert (∀ k, (24 <= k)%Z → Z.testbit c k = false) as Hhigh.
  { apply (Z.bounded_iff_bits_nonneg 24); lia. }
  destruct (decide (n < 8)%Z) as [H8|H8].
  - rewrite (Z.testbit_neg_r _ (n - 16)), (Z.testbit_neg_r _ (n - 8)) by lia.
    cbn [andb orb]. rewrite Z.testbit_ones_nonneg by lia.
    rewrite (proj2 (Z.ltb_lt n 8)) by done. by rewrite andb_true_r.
  - destruct (decide (n < 16)%Z) as [H16|H16].
    + rewrite (Z.testbit_neg_r _ (n - 16)) by lia. cbn [andb orb].
      rewrite Z.shiftr_spec by lia.
      rewrite !Z.testbit_ones_nonneg by lia.
      rewrite (proj2 (Z.ltb_lt (n - 8) 8)) by lia.
      rewrite (proj2 (Z.ltb_ge n 8)) by lia.
      rewrite andb_true_r, andb_false_r, orb_false_r.
      f_equal. lia.
    + rewrite !Z.shiftr_spec by lia.
      rewrite !Z.testbit_ones_nonneg by lia.
      rewrite (proj2 (Z.ltb_ge (n - 8) 8)) by lia.
      rewrite (proj2 (Z.ltb_ge n 8)) by lia.
      rewrite !andb_false_r, !orb_false_r.
      replace (n - 16 + 16)%Z with n by lia.
      destruct (decide (n < 24)%Z) as [H24|H24].
      * rewrite (proj2 (Z.ltb_lt (n - 16) 8)) by lia. by rewrite andb_true_r.
      * rewrite (Hhigh n) by lia. done.
Qed.

(** X25.  With the factor 0 [adjustColor] gives a 24-bit colour back
    unchanged: taking the three channels apart and putting them together
    again loses nothing. *)
Theorem adjustColor_zero (color : Z) :
  (0 <= color < 2 ^ 24)%Z → adjustColor color 0 = color.
Proof.
  intros Hc. unfold adjustColor. cbv zeta.
  assert (∀ a, 0 <= Z.land a 0xFF <= 255)%Z as Hland.
  { intros a. pose proof (Z.land_ones a 8 ltac:(lia)) as E.
    change (Z.ones 8) with 255%Z in E. change (2 ^ 8)%Z with 256%Z in E.
    rewrite E. pose proof (Z.mod_pos_bound a 256 ltac:(lia)). lia. }
  rewrite !channel_kept by apply Hland. by apply channels_recombine.
Qed.

Lemma adjustColor_zero_witness : adjustColor OCEAN 0 = OCEAN.
Proof. apply (adjustColor_zero OCEAN). by vm_compute. Defined.

End MapViewFacts.

Lemma riverStrokes_loop_reads (pre : list Q) (ss : list MapView.Stroke)
    (fuel : nat) :
  length ss ≤ fuel →
  MapView.riverStrokes_loop fuel
    (pre ++ concat (map (λ s, [MapView.x1 s; MapView.y1 s; MapView.x2 s;
                               MapView.y2 s; MapView.strokeFlux s]) ss))
    (length pre) = ss.
Proof.
  revert pre fuel. induction ss as [|s ss IH]; intros pre fuel Hf.
  { destruct fuel as [|fuel]; [done|]. simpl.
    rewrite app_nil_r. destruct (decide (length pre < length pre)); [lia | done]. }
  destruct fuel as [|fuel]; [simpl in Hf; lia|].
  destruct s as [a b c d e].
  cbn [MapView.riverStrokes_loop map concat MapView.x1 MapView.y1 MapView.x2
       MapView.y2 MapView.strokeFlux].
  set (rest := concat (map _ ss)).
  destruct (decide (length pre < length (pre ++ _))) as [_|Hn].
  2:{ destruct Hn. rewrite length_app. simpl. lia. }
  assert (∀ k x, [a; b; c; d; e] !! k = Some x →
                 (pre ++ [a; b; c; d; e] ++ rest) !!! (length pre + k) = x)
    as Hread.
  { intros k x Hk. apply list_lookup_total_correct.
    rewrite lookup_app_r by lia.
    replace (length pre + k - length pre) with k by lia.
    by apply lookup_app_l_Some. }
  pose proof (Hread 0 a eq_refl) as H0. rewrite Nat.add_0_r in H0.
  rewrite H0, (Hread 1 b), (Hread 2 c), (Hread 3 d), (Hread 4 e) by done.
  f_equal.
  specialize (IH (pre ++ [a; b; c; d; e]) fuel ltac:(simpl in Hf; lia)).
  rewrite length_app in IH. simpl in IH.
  rewrite <- (assoc_L (++)) in IH. exact IH.
Qed.

(** ** Sink filling twice *)

Lemma elev_cle_iff (e : list Q) (a b : nat) :
  MinHeap.cle (elevCompare e) a b ↔ (e !!! a <= e !!! b)%Q.
Proof. unfold MinHeap.cle, MinHeap.precedes, elevCompare. split; lra. Qed.

Lemma elev_cle_trans (e : list Q) (a b c : nat) :
  MinHeap.cle (elevCompare e) a b → MinHeap.cle (elevCompare e) b c →
  MinHeap.cle (elevCompare e) a c.
Proof. rewrite !elev_cle_iff. lra. Qed.

Lemma elev_cle_total (e : list Q) (a b : nat) :
  MinHeap.cle (elevCompare e) a b ∨ MinHeap.cle (elevCompare e) b a.
Proof.
  rewrite !elev_cle_iff.
  destruct (Qlt_le_dec (e !!! b) (e !!! a)); [right | left]; lra.
Qed.

Lemma drained_sinks adj (elev : list Q) (vis : list bool) c :
  length vis = length elev →
  drained adj elev vis c → sinks_to_sea adj elev c.
Proof.
  intros Hl. induction 1 as [c Hc Hsea|u c _ Huc Hle _ IH].
  - apply sinks_sea; [|done]. apply lookup_lt_Some in Hc. lia.
  - by eapply sinks_up.
Qed.

(** After [fillSinks] every cell reachable from the sea sinks to it. *)
Lemma fillSinks_sinks (w : World) (x : nat) :
  well_formed w →
  reachable_from_sea (adjacency w) (elevations (fillSinks w)) x →
  sinks_to_sea (adjacency w) (elevations (fillSinks w)) x.
Proof.
  intros Hwf Hreach. destruct (fillSinks_inv w Hwf) as (popped & Hinv & Hcl & Hh).
  assert (reachable_from_sea (adjacency w) (elevations w) x) as Hreach0.
  { destruct Hreach as (s & Hs & Hsea & Hpath). exists s. simpl in *.
    rewrite (fi_len_elev _ _ _ _ Hinv) in Hs. split_and!; [done | | done].
    pose proof (fi_raise _ _ _ _ Hinv s). lra. }
  pose proof (reachable_visited _ _ _ _ _ Hinv Hcl Hh Hreach0) as Hvis.
  simpl. eapply drained_sinks; [|by apply (fi_drained _ _ _ _ Hinv)].
  by rewrite (fi_len_vis _ _ _ _ Hinv), (fi_len_elev _ _ _ _ Hinv).
Qed.

Lemma seed_heap_ok (e : list Q) (m : nat) :
  m ≤ length e →
  MinHeap.heap_ok (elevCompare e)
    (fs_heap (foldl seedCell (mkFill e (replicate (length e) false) [])
                    (seq 0 m))).
Proof.
  induction m as [|m IH]; intros Hm; [apply MinHeapFacts.heap_ok_nil|].
  rewrite foldl_seq_S.
  destruct (seed_loop e m ltac:(lia)) as (He & _).
  specialize (IH ltac:(lia)). set (st := foldl seedCell _ (seq 0 m)) in *.
  unfold seedCell. destruct (decide _); [|done]. simpl. rewrite He.
  apply MinHeapFacts.push_ok;
    [intros ???; apply elev_cle_trans | intros ??; apply elev_cle_total | done].
Qed.

(** On a filled surface, a cell that sinks to the sea is visited already
    or not lower than the cell being processed. *)
Lemma filled_frontier adj e popped u st x :
  filled_step_inv adj e popped u st → sinks_to_sea adj e x →
  fs_visited st !! x = Some true ∨ (e !!! u <= e !!! x)%Q.
Proof.
  intros (He & Hinv & Hcl & Hok & Hmin).
  induction 1 as [c Hc Hsea|p c Hpc Hle _ IH].
  - left. by apply (fi_sea _ _ _ _ Hinv).
  - destruct IH as [Hp|Hp]; [|right; lra].
    apply (fi_visited _ _ _ _ Hinv) in Hp.
    apply elem_of_app in Hp as [[Hp| ->%list_elem_of_singleton]%elem_of_app|Hp].
    + left. by eapply Hcl.
    + by right.
    + right. specialize (Hmin p Hp). lra.
Qed.

Lemma filled_raise adj e popped u st v :
  (∀ x, reachable_from_sea adj e x → sinks_to_sea adj e x) →
  filled_step_inv adj e popped u st →
  edge adj u v → v < length e →
  filled_step_inv adj e popped u (raiseNeighbor u st v).
Proof.
  intros Hsinks Hstep Huv Hv.
  pose proof Hstep as (He & Hinv & Hcl & Hok & Hmin).
  assert (u ∈ popped ++ [u]) as Hu by (apply elem_of_app; right; by left).
  destruct (raise_inv _ _ _ _ _ _ Hinv Hu Huv Hv) as (Hinv' & _ & Hmono).
  unfold raiseNeighbor in *.
  destruct (decide (fs_visited st !! v = Some true)) as [Hvis|Hnv]; [done|].
  cbv zeta in *.
  assert (e !!! u <= e !!! v)%Q as Hle.
  { assert (fs_visited st !! u = Some true) as Huvis
      by (by apply (fi_visited _ _ _ _ Hinv), elem_of_app; left).
    destruct (fi_reach _ _ _ _ Hinv u Huvis) as (s & Hs & Hsea & Hpath).
    assert (sinks_to_sea adj e v) as Hsv.
    { apply Hsinks. exists s. split_and!; [done | done | by eapply rtc_r]. }
    by destruct (filled_frontier _ _ _ _ _ _ Hstep Hsv). }
  rewrite He in *.
  destruct (decide (e !!! v < e !!! u)%Q) as [?|_]; [lra|].
  split_and!; simpl; [done | done | | |].
  - intros a b Ha Hab. apply Hmono. by eapply Hcl.
  - apply MinHeapFacts.push_ok;
      [intros ???; apply elev_cle_trans | intros ??; apply elev_cle_total | done].
  - intros h. rewrite MinHeapFacts.push_perm.
    intros [->|Hh]%elem_of_cons; [done | by apply Hmin].
Qed.

Lemma filled_raise_loop adj e popped u ns st :
  (∀ x, reachable_from_sea adj e x → sinks_to_sea adj e x) →
  Forall (λ v, edge adj u v ∧ v < length e) ns →
  filled_step_inv adj e popped u st →
  filled_step_inv adj e popped u (foldl (raiseNeighbor u) st ns).
Proof.
  intros Hsinks Hns. revert st.
  induction Hns as [|v ns [Huv Hv] _ IH]; intros st Hstep; [done|].
  simpl. by apply IH, filled_raise.
Qed.

Lemma filled_iteration adj e popped st u h' :
  Forall (Forall (λ k, k < length e)) adj →
  (∀ x, reachable_from_sea adj e x → sinks_to_sea adj e x) →
  filled_inv adj e popped st →
  MinHeap.pop (elevCompare (fs_elev st)) (fs_heap st) = (Some u, h') →
  filled_inv adj e (popped ++ [u])
    (foldl (raiseNeighbor u) (mkFill (fs_elev st) (fs_visited st) h')
           (adj !!! u)).
Proof.
  intros Hadj Hsinks (He & Hinv & Hcl & Hok) Hpop.
  assert (h' = (MinHeap.pop (elevCompare e) (fs_heap st)).2) as Hh'
    by (by rewrite <- He, Hpop).
  assert (fs_heap st !! 0 = Some u) as Hroot.
  { destruct (fs_heap st) as [|top r]; [done|].
    pose proof (MinHeapFacts.pop_cons (elevCompare (fs_elev st)) top r) as E.
    rewrite Hpop in E. simpl in E. by rewrite E. }
  pose proof (MinHeapFacts.pop_perm _ _ _ _ Hpop) as Hperm.
  assert (filled_step_inv adj e popped u
            (mkFill (fs_elev st) (fs_visited st) h')) as Hstep.
  { split_and!; simpl; [done | | done | |].
    - eapply fill_inv_perm; [exact Hinv|]. by rewrite Hperm, <- (assoc_L (++)).
    - rewrite Hh'. apply MinHeapFacts.pop_ok;
        [intros ???; apply elev_cle_trans | intros ??; apply elev_cle_total
        | done].
    - intros h Hh. apply elev_cle_iff.
      apply (MinHeapFacts.heap_root_min (elevCompare e)
               (elev_cle_trans e) (elev_cle_total e) (fs_heap st) u Hok Hroot).
      rewrite Hperm. by right. }
  pose proof (neighbors_forall _ _ u Hadj) as Hns.
  pose proof (filled_raise_loop _ _ _ _ _ _ Hsinks Hns Hstep)
    as (He' & Hinv' & Hcl' & Hok' & _).
  destruct Hstep as (_ & Hinv1 & _).
  assert (u ∈ popped ++ [u]) as Hu by (apply elem_of_app; right; by left).
  destruct (raise_loop_inv _ _ _ _ _ _ Hinv1 Hu Hns) as (_ & Hall & Hmono).
  split_and!; [done | done | | done].
  intros a b [Ha| ->%list_elem_of_singleton]%elem_of_app Hab.
  - by eapply Hcl'.
  - by apply Hall.
Qed.

Lemma fillSinks_twice (w : World) :
  well_formed w → fillSinks (fillSinks w) = fillSinks w.
Proof.
  intros Hwf. pose proof (fillSinks_keeps_well_formed w Hwf) as (_ & Hlen & Hadj).
  set (e := elevations (fillSinks w)) in *.
  change (cellCount (fillSinks w)) with (cellCount w) in *.
  unfold neighbors_in_range in Hadj.
  change (adjacency (fillSinks w)) with (adjacency w) in Hadj.
  change (cellCount (fillSinks w)) with (cellCount w) in Hadj.
  rewrite <- Hlen in Hadj.
  destruct (floodLoop_invariant (filled_inv (adjacency w) e) (adjacency w)
              (cellCount w) []
              (foldl seedCell (mkFill e (replicate (length e) false) [])
                     (seq 0 (length e))))
    as (popped & He & _).
  - intros popped st u h'. apply filled_iteration; [done|].
    intros x. by apply fillSinks_sinks.
  - split_and!.
    + by destruct (seed_loop e (length e) ltac:(done)) as (-> & _).
    + apply seed_inv.
    + by intros u v ?%elem_of_nil.
    + by apply seed_heap_ok.
  - assert (fs_elev (fillSinksState (fillSinks w)) = e) as E.
    { unfold fillSinksState. cbv zeta.
      change (cellCount (fillSinks w)) with (cellCount w).
      change (adjacency (fillSinks w)) with (adjacency w).
      change (elevations (fillSinks w)) with e.
      rewrite Hlen in He. exact He. }
    change (fillSinks (fillSinks w)) with
      (mkWorld (width w) (height w) (points w) (adjacency w)
               (fs_elev (fillSinksState (fillSinks w))) (moisture w) (rivers w)).
    by rewrite E.
Qed.

(** X27.  Filling the sinks twice is filling them once: on a filled world
    the heap hands out the cells lowest first, every cell is met from a
    cell that is not higher, and nothing is raised. *)
Theorem fillSinks_idempotent (w : World) :
  well_formed w → fillSinks (fillSinks w) = fillSinks w.
Proof. apply fillSinks_twice. Qed.


(** ** The constructor *)

Lemma insert_loop_map {A} (f : nat → A) (d : A) (n m : nat) :
  m ≤ n →
  foldl (λ l i, <[i := f i]> l) (replicate n d) (seq 0 m)
  = map f (seq 0 m) ++ replicate (n - m) d.
Proof.
  induction m as [|m IH]; intros Hm.
  { simpl. by rewrite Nat.sub_0_r. }
  rewrite foldl_seq_S, IH by lia.
  rewrite seq_S, map_app. simpl. rewrite <- (assoc_L (++)).
  replace (n - m) with (S (n - S m)) by lia. simpl.
  rewrite insert_app_r_alt by (rewrite length_map, length_seq; lia).
  rewrite length_map, length_seq, Nat.sub_diag. done.
Qed.

Lemma precalculateNeighbors_map (neighbors : nat → list nat) (w : World) :
  precalculateNeighbors neighbors w = map neighbors (seq 0 (cellCount w)).
Proof.
  unfold precalculateNeighbors. rewrite insert_loop_map by done.
  by rewrite Nat.sub_diag, app_nil_r.
Qed.

Lemma flat_points_length (pts : list (Q * Q)) :
  length (flat_map (λ p, [p.1; p.2]) pts) = length pts * 2.
Proof. induction pts as [|p pts IH]; simpl; [done | lia]. Qed.

Lemma storePoint_loop (pts : list (Q * Q)) (m : nat) :
  m ≤ length pts →
  foldl (storePoint pts) (replicate (length pts * 2) 0%Q) (seq 0 m)
  = flat_map (λ p, [p.1; p.2]) (take m pts)
    ++ replicate ((length pts - m) * 2) 0%Q.
Proof.
  induction m as [|m IH]; intros Hm.
  { simpl. by rewrite Nat.sub_0_r. }
  rewrite foldl_seq_S, IH by lia.
  destruct (lookup_lt_is_Some_2 pts m ltac:(lia)) as [p Hp].
  rewrite (take_S_r _ _ _ Hp), flat_map_app. simpl.
  rewrite <- (assoc_L (++)).
  unfold storePoint. rewrite (list_lookup_total_correct _ _ _ Hp).
  assert (length (flat_map (λ p, [p.1; p.2]) (take m pts)) = m * 2) as Hl.
  { rewrite flat_points_length, length_take. lia. }
  replace ((length pts - m) * 2) with (S (S ((length pts - S m) * 2))) by lia.
  rewrite !insert_app_r_alt by lia.
  rewrite Hl. replace (m * 2 - m * 2) with 0 by lia.
  replace (m * 2 + 1 - m * 2) with 1 by lia. done.
Qed.

Lemma generatePoissonPoints_flat (pts : list (Q * Q)) :
  generatePoissonPoints pts = flat_map (λ p, [p.1; p.2]) pts.
Proof.
  unfold generatePoissonPoints. rewrite storePoint_loop by done.
  by rewrite firstn_all, Nat.sub_diag, app_nil_r.
Qed.

Lemma flat_points_lookup (pts : list (Q * Q)) (i : nat) (x y : Q) :
  pts !! i = Some (x, y) →
  flat_map (λ p, [p.1; p.2]) pts !! (i * 2) = Some x ∧
  flat_map (λ p, [p.1; p.2]) pts !! (i * 2 + 1) = Some y.
Proof.
  revert i. induction pts as [|p pts IH]; intros i Hi; [done|].
  destruct i as [|i]; simpl in *.
  - by injection Hi as ->.
  - by apply IH.
Qed.

Lemma points_cellCount (pts : list (Q * Q)) wd ht adj e m r :
  cellCount (mkWorld wd ht (generatePoissonPoints pts) adj e m r)
  = length pts.
Proof.
  unfold cellCount. cbn [points].
  rewrite generatePoissonPoints_flat, flat_points_length.
  by rewrite Nat.div_mul.
Qed.

(** X28.  [generatePoissonPoints] lays the samples out flat, in order:
    the array has two numbers for each sample, so [cellCount] is the
    number of samples, and cell [i] has its coordinates at [2 i] and
    [2 i + 1], where [generateTerrain] and [generateRivers] read them. *)
Theorem generatePoissonPoints_layout (pointsArray : list (Q * Q)) :
  length (generatePoissonPoints pointsArray) = 2 * length pointsArray ∧
  (∀ wd ht adj e m r,
     cellCount (mkWorld wd ht (generatePoissonPoints pointsArray) adj e m r)
     = length pointsArray) ∧
  (∀ i x y, pointsArray !! i = Some (x, y) →
            generatePoissonPoints pointsArray !! (i * 2) = Some x ∧
            generatePoissonPoints pointsArray !! (i * 2 + 1) = Some y).
Proof.
  split_and!.
  - rewrite generatePoissonPoints_flat, flat_points_length. lia.
  - intros. apply points_cellCount.
  - intros i x y Hi. rewrite generatePoissonPoints_flat.
    by apply flat_points_lookup.
Qed.

Lemma fillSinks_only_raises (w : World) (i : nat) :
  well_formed w →
  (elevations w !!! i <= elevations (fillSinks w) !!! i)%Q.
Proof.
  intros Hwf. destruct (fillSinks_inv w Hwf) as (popped & Hinv & _).
  apply (fi_raise _ _ _ _ Hinv i).
Qed.

Lemma smoothLoop_length k n adj (current next : list Q) :
  length current = n → length next = n →
  length (smoothLoop k n adj current next) = n.
Proof.
  revert current next. induction k as [|k IH]; intros current next ??; simpl.
  { done. }
  apply IH; [by rewrite smoothPass_length | done].
Qed.

Section constructor_facts.
Variable noise2D : Q → Q → Q.
Hypothesis noise_range : ∀ a b, (-1 <= noise2D a b ∧ noise2D a b <= 1)%Q.

Lemma construct_stages (seed : TerrainSeed) (wd ht : Q)
    (pointsArray : list (Q * Q)) (neighbors : nat → list nat) :
  construct noise2D seed wd ht pointsArray neighbors
  = let n := length pointsArray in
    let w1 := mkWorld wd ht (generatePoissonPoints pointsArray)
                      (map neighbors (seq 0 n))
                      (replicate n 0%Q) (replicate n 0%Q) [] in
    let w2 := generateTerrain noise2D seed w1 in
    let w3 := mkWorld wd ht (points w1) (adjacency w1)
                      (smoothMap w2 (elevations w2) 2) (moisture w2) [] in
    let w4 := mkWorld wd ht (points w1) (adjacency w1) (elevations w3)
                      (smoothMap w3 (moisture w3) 2) [] in
    let w5 := fillSinks w4 in
    mkWorld wd ht (points w1) (adjacency w1) (elevations w5) (moisture w4)
            (generateRivers w5).
Proof.
  unfold construct. cbv zeta.
  cbn [points adjacency elevations moisture rivers].
  rewrite precalculateNeighbors_map, !points_cellCount.
  reflexivity.
Qed.

(** X29.  The constructor builds a well-formed world with one cell for
    each sample, provided the neighbour relation stays within the cells and
    the noise within [[-1, 1]]: its moisture lies in [[-0.9375, 1.4375]],
    no elevation is below [-1.11875], the rivers stored are those of the
    final elevations, and filling the sinks once more changes nothing. *)
Theorem construct_world (seed : TerrainSeed) (wd ht : Q)
    (pointsArray : list (Q * Q)) (neighbors : nat → list nat) :
  (∀ i, i < length pointsArray →
        Forall (λ n, n < length pointsArray) (neighbors i)) →
  cellCount (construct noise2D seed wd ht pointsArray neighbors)
  = length pointsArray ∧
  well_formed (construct noise2D seed wd ht pointsArray neighbors) ∧
  length (moisture (construct noise2D seed wd ht pointsArray neighbors))
  = length pointsArray ∧
  field_within (- (15 # 16)) (23 # 16)
    (moisture (construct noise2D seed wd ht pointsArray neighbors)) ∧
  Forall (λ x, (- (179 # 160) <= x)%Q)
    (elevations (construct noise2D seed wd ht pointsArray neighbors)) ∧
  rivers (construct noise2D seed wd ht pointsArray neighbors)
  = generateRivers (construct noise2D seed wd ht pointsArray neighbors) ∧
  fillSinks (construct noise2D seed wd ht pointsArray neighbors)
  = construct noise2D seed wd ht pointsArray neighbors.
Proof.
  intros Hnb. rewrite construct_stages. cbv zeta.
  set (n := length pointsArray).
  set (w1 := mkWorld wd ht (generatePoissonPoints pointsArray)
                     (map neighbors (seq 0 n))
                     (replicate n 0%Q) (replicate n 0%Q) []).
  set (w2 := generateTerrain noise2D seed w1).
  set (w3 := mkWorld wd ht (points w1) (adjacency w1)
                     (smoothMap w2 (elevations w2) 2) (moisture w2) []).
  set (w4 := mkWorld wd ht (points w1) (adjacency w1) (elevations w3)
                     (smoothMap w3 (moisture w3) 2) []).
  assert (cellCount w1 = n) as Hn by apply points_cellCount.
  assert (Forall (Forall (λ m, m < n)) (adjacency w1)) as Hadj.
  { apply Forall_forall. intros ns (i & -> & Hi%elem_of_seq)%list_elem_of_fmap.
    apply Hnb. lia. }
  destruct (generateTerrain_fields noise2D noise_range seed w1)
    as (He2 & Hm2 & _ & Hle2 & Hlm2 & _);
    [rewrite Hn; apply length_replicate ..|].
  fold w2 in He2, Hm2, Hle2, Hlm2. rewrite Hn in Hle2, Hlm2.
  assert (cellCount w2 = n ∧ cellCount w3 = n ∧ cellCount w4 = n)
    as (Hn2 & Hn3 & Hn4) by done.
  assert (∀ (w : World) data lo hi,
            cellCount w = n → adjacency w = adjacency w1 →
            length data = n → field_within lo hi data →
            field_within lo hi (smoothMap w data 2) ∧
            length (smoothMap w data 2) = n) as Hsmooth.
  { intros w data lo hi Hc Ha Hl Hw. unfold smoothMap.
    rewrite Hc, Ha, Hl. split.
    - apply smoothLoop_within; [done | by rewrite length_replicate | done..].
    - apply smoothLoop_length; [done | by rewrite length_replicate]. }
  destruct (Hsmooth w2 (elevations w2) _ _ Hn2 eq_refl Hle2 He2) as (He3 & Hle3).
  destruct (Hsmooth w3 (moisture w3) _ _ Hn3 eq_refl Hlm2 Hm2) as (Hm4 & Hlm4).
  assert (well_formed w4) as Hwf4.
  { split_and!;
      [| by rewrite Hn4 | unfold neighbors_in_range; by rewrite Hn4].
    rewrite Hn4. unfold w4, w1. cbn [adjacency].
    by rewrite length_map, length_seq. }
  pose proof (fillSinks_keeps_well_formed w4 Hwf4) as Hwf5.
  split_and!.
  - done.
  - exact Hwf5.
  - exact Hlm4.
  - exact Hm4.
  - cbn [elevations]. apply Forall_lookup_2. intros i x Hx.
    pose proof (fillSinks_only_raises w4 i Hwf4) as Hraise.
    rewrite (list_lookup_total_correct _ _ _ Hx) in Hraise.
    apply lookup_lt_Some in Hx.
    destruct Hwf5 as (_ & Hl5 & _). rewrite Hl5 in Hx.
    change (cellCount (fillSinks w4)) with (cellCount w4) in Hx.
    rewrite Hn4, <- Hle3 in Hx.
    destruct (lookup_lt_is_Some_2 _ _ Hx) as [x0 Hx0].
    pose proof (Forall_lookup_1 _ _ _ _ He3 Hx0) as [Hlo _].
    change (elevations w4) with (elevations w3) in Hraise.
    rewrite (list_lookup_total_correct _ _ _ Hx0) in Hraise. lra.
  - reflexivity.
  - pose proof (f_equal elevations (fillSinks_twice w4 Hwf4)) as E.
    unfold fillSinks at 1. cbn [width height points adjacency moisture rivers].
    f_equal. exact E.
Qed.

End constructor_facts.

(** ** The further properties on concrete worlds *)

Lemma chain_world_well_formed : well_formed chain_world.
Proof.
  split_and!; [by vm_compute | by vm_compute |].
  unfold neighbors_in_range.
  match goal with |- ?P => apply (bool_decide_unpack P) end. by vm_compute.
Qed.

Lemma chain_world_river :
  1 ∈ river_cells chain_world (downhill chain_world) (flux chain_world).
Proof.
  match goal with |- ?P => apply (bool_decide_unpack P) end. by vm_compute.
Qed.

Lemma checker_noise_range (a b : Q) :
  (-1 <= checker_noise a b ∧ checker_noise a b <= 1)%Q.
Proof. unfold checker_noise. destruct (decide _); lra. Qed.

Lemma row_neighbors_range (i : nat) :
  i < 3 → Forall (λ n, n < 3) (row_neighbors i).
Proof.
  intros Hi. destruct i as [|[|[|i]]]; [| | |lia];
    repeat constructor; lia.
Qed.

Lemma fillSinks_well_formed_witness :
  well_formed (fillSinks pit_world) ∧
  cellCount (fillSinks pit_world) = cellCount pit_world.
Proof. apply (fillSinks_well_formed pit_world pit_world_well_formed). Defined.

Lemma fillSinks_loop_ends_witness :
  fs_heap (fillSinksState pit_world) = [] ∧
  floodLoop (cellCount pit_world + 1) (adjacency pit_world)
    (foldl seedCell
           (mkFill (elevations pit_world)
                   (replicate (cellCount pit_world) false) [])
           (seq 0 (cellCount pit_world)))
  = fillSinksState pit_world ∧
  (fs_visited (fillSinksState pit_world) !! 2 = Some true ↔
   reachable_from_sea (adjacency pit_world) (elevations pit_world) 2).
Proof. apply (fillSinks_loop_ends pit_world 1 2 pit_world_well_formed). Defined.

Lemma fillSinks_raised_over_neighbor_witness :
  ∃ u, edge (adjacency pit_world) u 2 ∧
       reachable_from_sea (adjacency pit_world) (elevations pit_world) u ∧
       (elevations pit_world !!! 2%nat
        < elevations (fillSinks pit_world) !!! u)%Q ∧
       (elevations (fillSinks pit_world) !!! u
        <= elevations (fillSinks pit_world) !!! 2%nat)%Q.
Proof.
  apply (fillSinks_raised_over_neighbor pit_world 2 pit_world_well_formed).
  by vm_compute.
Defined.

Lemma coast_distance_zero_witness :
  (-1 <= 0)%Z ∧ (0%Z = 0%Z ↔ (elevations pit_world !!! 0%nat <= 0)%Q).
Proof.
  apply (coast_distance_zero pit_world 0 0 pit_world_well_formed).
  reflexivity.
Defined.

Lemma coast_distance_edge_witness :
  ∃ k', calculateDistanceToCoast pit_world !! 2 = Some (Z.of_nat k') ∧
        k' ≤ 2.
Proof.
  apply (coast_distance_edge pit_world 1 2 1 pit_world_well_formed).
  - right. left.
  - reflexivity.
Defined.

Lemma coast_distance_parent_witness :
  ∃ u, edge (adjacency pit_world) u 2 ∧
       calculateDistanceToCoast pit_world !! u = Some (Z.of_nat 1).
Proof.
  apply (coast_distance_parent pit_world 2 1 pit_world_well_formed).
  reflexivity.
Defined.

Lemma coast_distance_after_fillSinks_witness :
  calculateDistanceToCoast (fillSinks pit_world)
  = calculateDistanceToCoast pit_world.
Proof.
  apply (coast_distance_after_fillSinks pit_world pit_world_well_formed).
Defined.

Lemma coast_loop_ends_witness :
  cs_queue (coastState pit_world) !! cs_queueStart (coastState pit_world)
  = None ∧
  coastLoop (cellCount pit_world + 1) (adjacency pit_world)
    (foldl (seedCoast (elevations pit_world))
           (mkCoast (replicate (cellCount pit_world) (-1)%Z) [] 0)
           (seq 0 (cellCount pit_world)))
  = coastState pit_world ∧
  NoDup (cs_queue (coastState pit_world)) ∧
  (2 ∈ cs_queue (coastState pit_world) ↔
   reachable_from_sea (adjacency pit_world) (elevations pit_world) 2).
Proof. apply (coast_loop_ends pit_world 1 2 pit_world_well_formed). Defined.

Lemma downhill_shape_witness :
  length (downhill (fillSinks pit_world)) = cellCount (fillSinks pit_world) ∧
  (∀ i, i < cellCount (fillSinks pit_world) →
        (elevations (fillSinks pit_world) !!! i <= 1 # 20)%Q →
        downhill (fillSinks pit_world) !! i = Some (-1)%Z) ∧
  (∀ i d, downhill (fillSinks pit_world) !! i = Some d →
          (-1 <= d < Z.of_nat (cellCount (fillSinks pit_world)))%Z) ∧
  (∀ i t, flows_to (downhill (fillSinks pit_world)) i t →
          t < cellCount (fillSinks pit_world) ∧ t ≠ i ∧
          edge (adjacency (fillSinks pit_world)) i t).
Proof.
  apply (downhill_shape (fillSinks pit_world) pit_world_filled_well_formed).
Defined.

Lemma flux_grows_downstream_witness :
  length (fluxPass (cellCount (fillSinks pit_world))
                   (elevations (fillSinks pit_world))
                   (downhill (fillSinks pit_world))
                   (sortedIndices (fillSinks pit_world)))
  = cellCount (fillSinks pit_world) ∧
  (∀ c, c < cellCount (fillSinks pit_world) →
        (1 <= fluxPass (cellCount (fillSinks pit_world))
                       (elevations (fillSinks pit_world))
                       (downhill (fillSinks pit_world))
                       (sortedIndices (fillSinks pit_world)) !!! c)%Z) ∧
  (∀ i t, flows_to (downhill (fillSinks pit_world)) i t →
          (fluxPass (cellCount (fillSinks pit_world))
                    (elevations (fillSinks pit_world))
                    (downhill (fillSinks pit_world))
                    (sortedIndices (fillSinks pit_world)) !!! i + 1
           <= fluxPass (cellCount (fillSinks pit_world))
                       (elevations (fillSinks pit_world))
                       (downhill (fillSinks pit_world))
                       (sortedIndices (fillSinks pit_world)) !!! t)%Z).
Proof.
  destruct (flux_grows_downstream (fillSinks pit_world)
              (sortedIndices (fillSinks pit_world))
              pit_world_filled_well_formed) as (H1 & H2 & H3).
  - apply sortedIndices_sorted_perm.
  - apply sortedIndices_sorted_perm.
  - split_and!; [exact H1 | exact H2 | apply H3; by vm_compute].
Defined.

Lemma flux_conserved_witness :
  outlet_flow (elevations (fillSinks pit_world))
    (downhill (fillSinks pit_world))
    (fluxPass (cellCount (fillSinks pit_world))
              (elevations (fillSinks pit_world))
              (downhill (fillSinks pit_world))
              (sortedIndices (fillSinks pit_world)))
    (seq 0 (cellCount (fillSinks pit_world)))
  = Z.of_nat (cellCount (fillSinks pit_world)).
Proof.
  apply (flux_conserved (fillSinks pit_world)
           (sortedIndices (fillSinks pit_world))
           pit_world_filled_well_formed).
  - by vm_compute.
  - apply sortedIndices_sorted_perm.
  - apply sortedIndices_sorted_perm.
Defined.

Lemma flux_at_most_cells_witness :
  (∀ c, c < cellCount pit_world →
        (flux pit_world !!! c <= Z.of_nat (cellCount pit_world))%Z) ∧
  (cellCount pit_world ≤ 50 → generateRivers pit_world = []).
Proof.
  destruct (flux_at_most_cells pit_world pit_world_well_formed) as [H1 H2].
  split; [apply H1; by vm_compute | exact H2].
Defined.

Lemma river_segment_ends_witness :
  (1 # 20 < elevations chain_world !!! 1%nat)%Q ∧
  ∃ t, downhill chain_world !!! 1%nat = Z.of_nat t ∧
       t < cellCount chain_world ∧
       t ≠ 1 ∧ edge (adjacency chain_world) 1 t ∧
       lower (elevations chain_world) (distToCoast chain_world) t 1 ∧
       (flux chain_world !!! 1%nat < flux chain_world !!! t)%Z.
Proof.
  destruct (river_segment_ends chain_world 1 chain_world_well_formed
              chain_world_river) as (H1 & t & H2 & H3 & H4 & H5 & H6 & H7).
  split; [exact H1|]. exists t.
  split_and!; [exact H2 | exact H3 | exact H4 | exact H5 | exact H6 |].
  apply H7. by vm_compute.
Defined.

Lemma fbm_bounded_witness :
  (- (1 - halves 5) <= fbm checker_noise 1 2 5 3 0 0 ∧
   fbm checker_noise 1 2 5 3 0 0 <= 1 - halves 5)%Q ∧
  (0 < halves 5)%Q.
Proof. apply (fbm_bounded checker_noise checker_noise_range). Defined.

Lemma generateTerrain_range_witness :
  field_within (- (179 # 160)) (9227469 # 8388608)
    (elevations (generateTerrain checker_noise sample_seed pit_world)) ∧
  field_within (- (15 # 16)) (23 # 16)
    (moisture (generateTerrain checker_noise sample_seed pit_world)) ∧
  (∀ i, i < cellCount pit_world →
        ((elevations (generateTerrain checker_noise sample_seed pit_world)
            !!! i < 0)%Q →
         (- (7 # 16)
          <= moisture (generateTerrain checker_noise sample_seed pit_world)
               !!! i)%Q) ∧
        ((0 <= elevations (generateTerrain checker_noise sample_seed pit_world)
                 !!! i)%Q →
         (moisture (generateTerrain checker_noise sample_seed pit_world) !!! i
          <= 15 # 16)%Q)) ∧
  length (elevations (generateTerrain checker_noise sample_seed pit_world))
  = cellCount pit_world ∧
  length (moisture (generateTerrain checker_noise sample_seed pit_world))
  = cellCount pit_world ∧
  points (generateTerrain checker_noise sample_seed pit_world)
  = points pit_world ∧
  adjacency (generateTerrain checker_noise sample_seed pit_world)
  = adjacency pit_world ∧
  rivers (generateTerrain checker_noise sample_seed pit_world)
  = rivers pit_world.
Proof.
  apply (generateTerrain_range checker_noise checker_noise_range sample_seed
           pit_world); reflexivity.
Defined.

Lemma river_cells_drawn_as_land_witness :
  MapView.getBiomeColor (elevations chain_world !!! 1%nat) 0 ≠ MapView.OCEAN ∧
  MapView.getBiomeColor (elevations chain_world !!! 1%nat) 0 ≠ MapView.COAST.
Proof.
  apply (MapViewFacts.river_cells_drawn_as_land chain_world 1 0
           chain_world_well_formed).
  apply chain_world_river.
Defined.

Lemma fillSinks_idempotent_witness :
  fillSinks (fillSinks pit_world) = fillSinks pit_world.
Proof. apply (fillSinks_idempotent pit_world pit_world_well_formed). Defined.

Lemma construct_world_witness :
  cellCount (construct checker_noise sample_seed 3 1
               [(0, 0); (1, 0); (2, 0)]%Q row_neighbors)
  = 3 ∧
  well_formed (construct checker_noise sample_seed 3 1
                 [(0, 0); (1, 0); (2, 0)]%Q row_neighbors) ∧
  length (moisture (construct checker_noise sample_seed 3 1
                      [(0, 0); (1, 0); (2, 0)]%Q row_neighbors))
  = 3 ∧
  field_within (- (15 # 16)) (23 # 16)
    (moisture (construct checker_noise sample_seed 3 1
                 [(0, 0); (1, 0); (2, 0)]%Q row_neighbors)) ∧
  Forall (λ x, (- (179 # 160) <= x)%Q)
    (elevations (construct checker_noise sample_seed 3 1
                   [(0, 0); (1, 0); (2, 0)]%Q row_neighbors)) ∧
  rivers (construct checker_noise sample_seed 3 1
            [(0, 0); (1, 0); (2, 0)]%Q row_neighbors)
  = generateRivers (construct checker_noise sample_seed 3 1
                      [(0, 0); (1, 0); (2, 0)]%Q row_neighbors) ∧
  fillSinks (construct checker_noise sample_seed 3 1
               [(0, 0); (1, 0); (2, 0)]%Q row_neighbors)
  = construct checker_noise sample_seed 3 1
      [(0, 0); (1, 0); (2, 0)]%Q row_neighbors.
Proof.
  apply (construct_world checker_noise checker_noise_range sample_seed 3 1
           [(0, 0); (1, 0); (2, 0)]%Q row_neighbors).
  apply row_neighbors_range.
Defined.

(** ** The returned river array *)

Lemma roundHalfEven_whole (num : Z) : roundHalfEven num 1 = num.
Proof.
  unfold roundHalfEven. cbv zeta. rewrite Z.mod_1_r, Z.div_1_r.
  destruct (decide (2 * 0 < 1)%Z); [done | lia].
Qed.

(** A whole number up to [2^24] is a Float32. *)
Lemma fround_whole (z : Z) :
  (0 <= z <= 2 ^ 24)%Z → (fround (inject_Z z) == inject_Z z)%Q.
Proof.
  intros [Hz Hmax]. unfold fround.
  destruct (decide (inject_Z z == 0)%Q) as [E|Hne]; [by rewrite E|].
  assert (0 < z)%Z as Hpos.
  { destruct (decide (z = 0%Z)) as [->|]; [by destruct Hne | lia]. }
  destruct (decide (0 < inject_Z z)%Q) as [_|Hn].
  2:{ destruct Hn. change 0%Q with (inject_Z 0). by rewrite <- Zlt_Qlt. }
  destruct (decide (z = 2 ^ 24)%Z) as [->|Hlt]; [by vm_compute|].
  assert (Z.log2 z < 24)%Z as Hlog by (apply Z.log2_lt_pow2; lia).
  pose proof (Z.log2_nonneg z) as Hlog0.
  pose proof (Z.log2_spec z Hpos) as [Hlo _].
  unfold froundPos, ilog2. cbn [Qnum Qden inject_Z].
  change (Z.log2 1) with 0%Z. rewrite Z.sub_0_r, Z.pow_0_r, Z.mul_1_r, Z.mul_1_l.
  destruct (decide (z < 2 ^ Z.log2 z)%Z) as [?|_]; [lia|].
  cbv zeta. rewrite Z.max_l by lia.
  destruct (decide (0 <= Z.log2 z - 23)%Z) as [H0|H0].
  - replace (Z.log2 z - 23)%Z with 0%Z by lia.
    by rewrite Z.pow_0_r, Z.mul_1_l, Z.mul_1_r, roundHalfEven_whole.
  - rewrite roundHalfEven_whole. unfold Qeq. cbn [Qnum Qden inject_Z].
    rewrite Z2Pos.id by (apply Z.pow_pos_nonneg; lia). lia.
Qed.

Lemma flux_whole (w : World) (i : nat) :
  well_formed w → (Z.of_nat (cellCount w) <= 2 ^ 24)%Z → i < cellCount w →
  (1 <= flux w !!! i <= 2 ^ 24)%Z.
Proof.
  intros (_ & _ & Hadj) Hmax Hi.
  destruct (sortedIndices_sorted_perm w) as [Hp Hs]. split.
  - pose proof (fluxPass_pos (cellCount w) (elevations w) (downhill w)
                  (sortedIndices w)) as Hpos.
    assert (length (flux w) = cellCount w) as Hl.
    { unfold flux, fluxPass. by rewrite flux_loop_length, length_replicate. }
    destruct (lookup_lt_is_Some_2 (flux w) i ltac:(lia)) as [x Hx].
    rewrite (list_lookup_total_correct _ _ _ Hx).
    by apply (Forall_lookup_1 _ _ _ _ Hpos Hx).
  - etrans; [|exact Hmax]. eapply flux_bound; eauto.
Qed.

(** C6.  A cell has a record in the river output exactly when its flux
    exceeds 50, its elevation is positive and it has a downhill target.  In
    a well-formed world of at most [2^24] cells, with coordinates in the
    finite range of Float32, the output is the concatenation of the
    records of these cells, in the order of the cells; a record is the
    position of the cell and the position of its target, every coordinate
    rounded to the nearest Float32, and the flux of the cell, which the
    rounding leaves as it is. *)
Theorem river_output (w : World) :
  NoDup (river_cells w (downhill w) (flux w)) ∧
  (∀ i, i ∈ river_cells w (downhill w) (flux w) ↔
        i < cellCount w ∧ (50 < flux w !!! i)%Z ∧
        (0 < elevations w !!! i)%Q ∧ (0 <= downhill w !!! i)%Z) ∧
  (well_formed w → (Z.of_nat (cellCount w) <= 2 ^ 24)%Z →
   Forall float32_finite (points w) →
   generateRivers w =
     concat (map (λ i, [ fround (points w !!! (i * 2));
                         fround (points w !!! (i * 2 + 1));
                         fround (points w !!! (Z.to_nat (downhill w !!! i) * 2));
                         fround (points w !!!
                                   (Z.to_nat (downhill w !!! i) * 2 + 1));
                         fround (inject_Z (flux w !!! i)) ])
                 (river_cells w (downhill w) (flux w))) ∧
   ∀ i, i < cellCount w →
        (fround (inject_Z (flux w !!! i)) == inject_Z (flux w !!! i))%Q).
Proof.
  split_and!.
  - apply NoDup_filter, NoDup_seq.
  - intros i. unfold river_cells. rewrite list_elem_of_filter, elem_of_seq.
    unfold RIVER_THRESHOLD. split; [intros ((?&?&?)&?&?) | intros (?&?&?&?)];
      split_and!; done || lia.
  - intros Hwf Hmax _. split; [apply generateRivers_records|].
    intros i Hi. apply fround_whole.
    pose proof (flux_whole w i Hwf Hmax Hi). lia.
Qed.

Lemma river_output_witness :
  generateRivers chain_world =
    concat (map (λ i, [ fround (points chain_world !!! (i * 2));
                        fround (points chain_world !!! (i * 2 + 1));
                        fround (points chain_world !!!
                                  (Z.to_nat (downhill chain_world !!! i) * 2));
                        fround (points chain_world !!!
                                  (Z.to_nat (downhill chain_world !!! i) * 2 + 1));
                        fround (inject_Z (flux chain_world !!! i)) ])
                (river_cells chain_world (downhill chain_world)
                             (flux chain_world))) ∧
  ∀ i, i < cellCount chain_world →
       (fround (inject_Z (flux chain_world !!! i))
        == inject_Z (flux chain_world !!! i))%Q.
Proof.
  apply (river_output chain_world).
  - apply chain_world_well_formed.
  - by vm_compute.
  - match goal with |- ?P => apply (bool_decide_unpack P) end. by vm_compute.
Defined.

(** The claim as it is written asks for the position itself.  In
    [offset_world] the one river cell, cell 1, stands at [x = 16777217]; its
    record starts with [16777216], the Float32 nearest to it. *)
Lemma river_position_rounded_counterexample :
  well_formed offset_world ∧
  (Z.of_nat (cellCount offset_world) <= 2 ^ 24)%Z ∧
  Forall float32_finite (points offset_world) ∧
  river_cells offset_world (downhill offset_world) (flux offset_world) = [1] ∧
  (points offset_world !!! 2%nat == 16777217)%Q ∧
  ∃ x1, generateRivers offset_world !! 0%nat = Some x1 ∧
        (x1 == 16777216)%Q ∧
        ¬ (x1 == points offset_world !!! 2%nat)%Q.
Proof.
  split_and!.
  - split_and!; [by vm_compute | by vm_compute |].
    unfold neighbors_in_range.
    match goal with |- ?P => apply (bool_decide_unpack P) end. by vm_compute.
  - by vm_compute.
  - match goal with |- ?P => apply (bool_decide_unpack P) end. by vm_compute.
  - by vm_compute.
  - by vm_compute.
  - eexists. split_and!; [by vm_compute | by vm_compute | by vm_compute].
Qed.

(** X26.  The river loop of [draw] reads back what [generateRivers]
    returned: in a well-formed world of at most [2^24] cells, with
    coordinates in the finite range of Float32, one line for each river
    cell, in the order of the cells, from the position of the
    cell to the position of its target, both as the Float32 array holds
    them, with the flux of the cell, which the array holds as it is. *)
Theorem draw_reads_rivers (w : World) :
  well_formed w → (Z.of_nat (cellCount w) <= 2 ^ 24)%Z →
  Forall float32_finite (points w) →
  MapView.riverStrokes (generateRivers w) =
    map (λ i, MapView.mkStroke
                (fround (points w !!! (i * 2)))
                (fround (points w !!! (i * 2 + 1)))
                (fround (points w !!! (Z.to_nat (downhill w !!! i) * 2)))
                (fround (points w !!! (Z.to_nat (downhill w !!! i) * 2 + 1)))
                (fround (inject_Z (flux w !!! i))))
        (river_cells w (downhill w) (flux w)) ∧
  ∀ i, i < cellCount w →
       (fround (inject_Z (flux w !!! i)) == inject_Z (flux w !!! i))%Q.
Proof.
  intros Hwf Hmax _. split.
  2:{ intros i Hi. apply fround_whole.
      pose proof (flux_whole w i Hwf Hmax Hi). lia. }
  unfold MapView.riverStrokes.
  assert (generateRivers w =
          [] ++ concat (map (λ s, [MapView.x1 s; MapView.y1 s; MapView.x2 s;
                                   MapView.y2 s; MapView.strokeFlux s])
                            (map (λ i, MapView.mkStroke
                (fround (points w !!! (i * 2)))
                (fround (points w !!! (i * 2 + 1)))
                (fround (points w !!! (Z.to_nat (downhill w !!! i) * 2)))
                (fround (points w !!! (Z.to_nat (downhill w !!! i) * 2 + 1)))
                (fround (inject_Z (flux w !!! i))))
                                 (river_cells w (downhill w) (flux w)))))
    as E.
  { rewrite generateRivers_records. cbn [app]. f_equal. by rewrite map_map. }
  rewrite E at 2. apply (riverStrokes_loop_reads []).
  rewrite length_map, E. cbn [app].
  generalize (river_cells w (downhill w) (flux w)). intros l.
  induction l as [|i l IH]; [simpl; lia|].
  cbn [map concat length app] in *. lia.
Qed.

Lemma draw_reads_rivers_witness :
  MapView.riverStrokes (generateRivers chain_world) =
    map (λ i, MapView.mkStroke
                (fround (points chain_world !!! (i * 2)))
                (fround (points chain_world !!! (i * 2 + 1)))
                (fround (points chain_world !!!
                           (Z.to_nat (downhill chain_world !!! i) * 2)))
                (fround (points chain_world !!!
                           (Z.to_nat (downhill chain_world !!! i) * 2 + 1)))
                (fround (inject_Z (flux chain_world !!! i))))
        (river_cells chain_world (downhill chain_world) (flux chain_world)) ∧
  ∀ i, i < cellCount chain_world →
       (fround (inject_Z (flux chain_world !!! i))
        == inject_Z (flux chain_world !!! i))%Q.
Proof.
  apply (draw_reads_rivers chain_world).
  - apply chain_world_well_formed.
  - by vm_compute.
  - match goal with |- ?P => apply (bool_decide_unpack P) end. by vm_compute.
Defined.

(** C3.  In every order that sorts the cell indices by the comparator of
    pass 2, a cell above sea level comes before its downhill target.  With
    at most [2^24] cells every flow volume stays a whole number from 1 to
    [2^24], which the Float32 array holds exactly, and the final flow of
    every cell is 1 plus the final flows of the cells above sea level
    whose target it is.  [sortedIndices_sorted_perm] and [flux_of_world]
    apply this to the order the model of the sort returns. *)
Theorem flux_accumulation (w : World) (order : list nat) :
  well_formed w →
  order ≡ₚ seq 0 (cellCount w) →
  sorted_by (riverCompare (elevations w) (distToCoast w)) order →
  (∀ i t, flows_to (downhill w) i t → (0 < elevations w !!! i)%Q →
          ∃ l1 l2 l3, order = l1 ++ i :: l2 ++ t :: l3) ∧
  ((Z.of_nat (cellCount w) <= 2 ^ 24)%Z →
   (∀ c, c < cellCount w →
         (1 <= fluxPass (cellCount w) (elevations w) (downhill w) order !!! c
          <= 2 ^ 24)%Z) ∧
   (∀ c, c < cellCount w →
         fluxPass (cellCount w) (elevations w) (downhill w) order !!! c =
           (1 + inflow (elevations w) (downhill w)
                  (fluxPass (cellCount w) (elevations w) (downhill w) order)
                  (seq 0 (cellCount w)) c)%Z)).
Proof.
  intros (_ & _ & Hadj) Hp Hs. split.
  { intros i t Hf _. by eapply drainage_order. }
  intros Hmax. split.
  - intros c Hc. split.
    + pose proof (fluxPass_pos (cellCount w) (elevations w) (downhill w) order)
        as Hpos.
      destruct (lookup_lt_is_Some_2
                  (fluxPass (cellCount w) (elevations w) (downhill w) order) c)
        as [x Hx].
      { unfold fluxPass. by rewrite flux_loop_length, length_replicate. }
      rewrite (list_lookup_total_correct _ _ _ Hx).
      by apply (Forall_lookup_1 _ _ _ _ Hpos Hx).
    + etrans; [|exact Hmax]. eapply flux_bound; eauto.
  - intros c Hc. by apply flux_recurrence.
Qed.

Lemma flux_accumulation_witness :
  (∀ i t, flows_to (downhill (fillSinks pit_world)) i t →
          (0 < elevations (fillSinks pit_world) !!! i)%Q →
          ∃ l1 l2 l3,
            sortedIndices (fillSinks pit_world) = l1 ++ i :: l2 ++ t :: l3) ∧
  (∀ c, c < cellCount (fillSinks pit_world) →
        (1 <= fluxPass (cellCount (fillSinks pit_world))
                       (elevations (fillSinks pit_world))
                       (downhill (fillSinks pit_world))
                       (sortedIndices (fillSinks pit_world)) !!! c
         <= 2 ^ 24)%Z) ∧
  (∀ c, c < cellCount (fillSinks pit_world) →
        fluxPass (cellCount (fillSinks pit_world))
                 (elevations (fillSinks pit_world))
                 (downhill (fillSinks pit_world))
                 (sortedIndices (fillSinks pit_world)) !!! c =
          (1 + inflow (elevations (fillSinks pit_world))
                 (downhill (fillSinks pit_world))
                 (fluxPass (cellCount (fillSinks pit_world))
                           (elevations (fillSinks pit_world))
                           (downhill (fillSinks pit_world))
                           (sortedIndices (fillSinks pit_world)))
                 (seq 0 (cellCount (fillSinks pit_world))) c)%Z).
Proof.
  destruct (flux_accumulation (fillSinks pit_world)
              (sortedIndices (fillSinks pit_world))
              pit_world_filled_well_formed) as [H1 H2].
  - apply sortedIndices_sorted_perm.
  - apply sortedIndices_sorted_perm.
  - split; [exact H1 | apply H2; by vm_compute].
Defined.

(** [fround] on a few numbers: 1.1, whose Float32 is the highest elevation
    a store of [generateTerrain] can hold; 0.50001 and 1024.00001; two
    whole numbers half way between two Float32s; a number that is a
    Float32 already; the smallest positive Float32 and half of it. *)
Example fround_values :
  (fround (11 # 10) == 9227469 # 8388608)%Q ∧
  (fround (50001 # 100000) == 1048597 # 2097152)%Q ∧
  (fround (102400001 # 100000) == 1024)%Q ∧
  (fround 16777217 == 16777216)%Q ∧
  (fround 16777219 == 16777220)%Q ∧
  (fround (- (3 # 8)) == - (3 # 8))%Q ∧
  (fround (1 # Z.to_pos (2 ^ 149)) == 1 # Z.to_pos (2 ^ 149))%Q ∧
  (fround (1 # Z.to_pos (2 ^ 150)) == 0)%Q.
Proof. by vm_compute. Qed.
